(** * arealens-geocode: the geocoding pipeline and the insight engine

    A shallow embedding of [apps/api/index.js] (the Express handlers and the
    SQL they run) and of the radius, zoom and base URL computations of
    [apps/web/src/App.jsx].

    Conventions of the embedding.

    - A value held by the database (a [DOUBLE PRECISION] or [numeric] column,
      the result of [AVG], [ROUND], [ST_Distance]) is the rational number
      denoted by its decimal numeral, and SQL arithmetic on it is exact.
    - A JavaScript [Number] is the rational value of a binary64 float:
      [parseFloat] and every arithmetic operation of the handler round to
      the nearest binary64 value ([binary64] below).  Integers that the
      handler obtains with [parseInt] are exact (they stay far below 2^53).
    - In the pipeline and in the insight engine the store never fails: the
      [catch] branches for store faults are not part of the model.  The
      intake ([Intake]) does model the refusals that the schema of
      [001_init.sql] prescribes: a primary key that is taken, and a
      [customer_count] that is no 32-bit integer.
    - Text is a sequence of code units below 256. *)

From Stdlib Require Import ZArith QArith Qround Qabs Qpower Lia Lqa Bool Ascii String.
From stdpp Require Import gmap strings list pretty sorting.
From Equations Require Import Equations.

(** ** Numbers *)

Module Num.

Local Open Scope Q_scope.

(** [2^s] as a rational, for any integer exponent. *)
Definition pow2 (s : Z) : Q := 2 ^ s.

(** Nearest integer, ties to the even one (the rounding of binary64
    arithmetic). *)
Definition round_half_even (x : Q) : Z :=
  let f := Qfloor x in
  match Qcompare (x - inject_Z f) (1 # 2) with
  | Lt => f
  | Gt => (f + 1)%Z
  | Eq => if Z.even f then f else (f + 1)%Z
  end.

(** [floor (log2 q)] for a positive rational. *)
Definition ilog2 (q : Q) : Z :=
  let e0 := (Z.log2 (Qnum q) - Z.log2 (Zpos (Qden q)))%Z in
  if Qle_bool (pow2 e0) q then e0 else (e0 - 1)%Z.

(** The binary64 value nearest to a positive rational: 53 significant bits,
    or a multiple of [2^-1074] in the subnormal range.  Overflow to
    [Infinity] is not modelled. *)
Definition binary64_pos (q : Q) : Q :=
  let s := Z.min (52 - ilog2 q) 1074 in
  inject_Z (round_half_even (q * pow2 s)) * pow2 (- s).

Definition binary64 (q : Q) : Q :=
  match Qnum q with
  | Z0 => 0
  | Zpos _ => binary64_pos q
  | Zneg _ => - binary64_pos (- q)
  end.

(** [2^-53], the relative error of a rounding, and [2^-100], which is
    more than the absolute error of a rounding in the subnormal range. *)
Definition unit_roundoff : Q := 1 # 9007199254740992.
Definition tiny : Q := 1 # 1267650600228229401496703205376.

(** JavaScript [parseFloat] of a decimal numeral. *)
Definition parseFloat (q : Q) : Q := binary64 q.

(** JavaScript [a * b] and [a / b] on Numbers. *)
Definition js_mul (a b : Q) : Q := binary64 (a * b).
Definition js_div (a b : Q) : Q := binary64 (a / b).

(** [Math.round]: nearest integer, ties towards +infinity. *)
Definition Math_round (x : Q) : Z := Qfloor (x + (1 # 2)).

(** [Math.ceil]. *)
Definition Math_ceil (x : Q) : Z := Qceiling x.

Definition Math_max (a b : Q) : Q := if Qle_bool a b then b else a.
Definition Math_min (a b : Q) : Q := if Qle_bool a b then a else b.

(** PostgreSQL [ROUND(v::numeric, 2)], as an integer number of hundredths:
    ties are rounded away from zero. *)
Definition ROUND2 (v : Q) : Z :=
  if (Qnum v <? 0)%Z then (- Qfloor (- v * 100 + (1 # 2)))%Z
  else Qfloor (v * 100 + (1 # 2)).

End Num.

(** ** Decimal numerals *)

Module Numeral.

Definition digit (d : Z) : string :=
  String (pretty_N_char (Z.to_N d)) EmptyString.

(** A non-negative number of hundredths printed with two decimals. *)
Definition hundredths (n : Z) : string :=
  pretty (n / 100)%Z +:+ "." +:+ digit ((n / 10) mod 10)%Z +:+ digit (n mod 10)%Z.

(** Text of a [numeric] with scale 2, given as a number of hundredths: what
    [cell_lat || ','] prints. *)
Definition numeric2_text (k : Z) : string :=
  (if (k <? 0)%Z then "-" else EmptyString) +:+ hundredths (Z.abs k).

(** [x.toFixed(2)]: the sign of [x], then the magnitude rounded to the
    nearest hundredth, the larger one on a tie. *)
Definition toFixed2 (x : Q) : string :=
  if (Qnum x <? 0)%Z
  then "-" +:+ hundredths (Qfloor ((- x) * 100 + (1 # 2))%Q)
  else hundredths (Qfloor (x * 100 + (1 # 2))%Q).

End Numeral.

Import Num Numeral.

(** ** The persisted store ([db/001_init.sql]) *)

Module UploadStatus.
Inductive t := uploaded | processing | done | failed.
End UploadStatus.

Module GeocodeStatus.
Inductive t := pending | success | failed.

Definition eqb (a b : t) : bool :=
  match a, b with
  | pending, pending | success, success | failed, failed => true
  | _, _ => false
  end.
End GeocodeStatus.

(** A record of table [uploads]. *)
Module Upload.
Record t := {
  id : string;
  original_filename : string;
  status : UploadStatus.t;
  total_rows : Z;
  valid_rows : Z;
  invalid_rows : Z
}.

Definition set_status (s : UploadStatus.t) (u : t) : t :=
  {| id := id u; original_filename := original_filename u; status := s;
     total_rows := total_rows u; valid_rows := valid_rows u;
     invalid_rows := invalid_rows u |}.
End Upload.

(** A record of table [upload_rows].  Column [geom] is the point
    [(lng, lat)] and is not stored separately. *)
Module Row.
Record t := {
  id : Z;
  upload_id : string;
  row_index : Z;
  raw_address : string;
  service_type : option string;
  customer_count : option Z;
  revenue_bucket : option string;
  geocode_status : GeocodeStatus.t;
  lat : option Q;
  lng : option Q;
  geocode_error : option string
}.

(** [SET lat = $1, lng = $2, geom = ..., geocode_status = 'success',
    geocode_error = NULL] *)
Definition set_success (la ln : Q) (r : t) : t :=
  {| id := id r; upload_id := upload_id r; row_index := row_index r;
     raw_address := raw_address r; service_type := service_type r;
     customer_count := customer_count r; revenue_bucket := revenue_bucket r;
     geocode_status := GeocodeStatus.success;
     lat := Some la; lng := Some ln; geocode_error := None |}.

(** [SET geocode_status = 'failed', geocode_error = $2] *)
Definition set_failed (err : string) (r : t) : t :=
  {| id := id r; upload_id := upload_id r; row_index := row_index r;
     raw_address := raw_address r; service_type := service_type r;
     customer_count := customer_count r; revenue_bucket := revenue_bucket r;
     geocode_status := GeocodeStatus.failed;
     lat := lat r; lng := lng r; geocode_error := Some err |}.
End Row.

Record db := {
  uploads : list Upload.t;
  upload_rows : list Row.t
}.

(** [UPDATE t SET ... WHERE p] on a table held as a list. *)
Definition sql_update {A} (p : A -> bool) (f : A -> A) (table : list A) : list A :=
  map (fun r => if p r then f r else r) table.

(** Stable insertion sort: [ORDER BY] with the rows of equal rank left in
    the order in which they arrive. *)
Fixpoint insert_by {A} (le : A -> A -> bool) (x : A) (l : list A) : list A :=
  match l with
  | [] => [x]
  | y :: ys => if le x y then x :: y :: ys else y :: insert_by le x ys
  end.

Definition order_by {A} (le : A -> A -> bool) (l : list A) : list A :=
  foldr (insert_by le) [] l.

(** ** The address resolver: [geocodeAddress] and [reverseGeocode] *)

Module Resolver.

(** What [geocodeAddress] returns: [{lat, lng, success: true}] or
    [{success: false, error}].  It catches its own exceptions. *)
Inductive geocode_result :=
| Found (lat lng : Q)
| NotFound (error : string).

(** Outcome of the forward request: a thrown error with its message
    (network failure, status not OK, a candidate without [center]), or a
    body with the [center], [[lng, lat]], of each of its [features]. *)
Inductive forward :=
| ForwardThrows (message : string)
| ForwardBody (features : option (list (Q * Q))).

(** [geocodeAddress(address)] once the provider has answered. *)
Definition geocodeAddress (provider : string -> forward) (address : string)
  : geocode_result :=
  match provider address with
  | ForwardThrows message => NotFound message
  | ForwardBody (Some ((lng, lat) :: _)) => Found lat lng
  | ForwardBody _ => NotFound "no result"
  end.

(** An entry of [feature.context]. *)
Record context_item := {
  ctx_id : option string;
  ctx_text : option string
}.

(** A candidate of the provider's reverse-geocoding response.  A field that
    is [undefined] in the response is [None]. *)
Record feature := {
  place_type : option (list string);
  text : option string;
  place_name : option string;
  context : option (list context_item)
}.

(** Outcome of [fetch] and [response.json()]: a thrown error (network
    failure, status not OK), or a body with its [features] field. *)
Inductive fetched :=
| FetchThrows
| Body (features : option (list feature)).

(** JavaScript truthiness of a string-or-undefined. *)
Definition truthy (o : option string) : bool :=
  match o with
  | Some s => negb (String.eqb s EmptyString)
  | None => false
  end.

(** A string-or-undefined inside a template literal. *)
Definition interpolate (o : option string) : string :=
  match o with
  | Some s => s
  | None => "undefined"
  end.

(** [a !== b] on strings-or-undefined. *)
Definition strict_ne (a b : option string) : bool :=
  match a, b with
  | Some x, Some y => negb (String.eqb x y)
  | None, None => false
  | _, _ => true
  end.

(** [a || b] where [a] is a string-or-undefined and [b] a string. *)
Definition or_else (a : option string) (b : string) : string :=
  if truthy a then interpolate a else b.

Definition includes (type : string) (types : list string) : bool :=
  existsb (String.eqb type) types.

(** [f.place_type && f.place_type.includes(type)] *)
Definition has_type (type : string) (f : feature) : bool :=
  match place_type f with
  | Some types => includes type types
  | None => false
  end.

(** [context.find(c => c.id?.startsWith(p))?.text] *)
Definition context_text (p : string) (ctx : list context_item) : option string :=
  match find (fun c => match ctx_id c with
                       | Some i => String.prefix p i
                       | None => false
                       end) ctx with
  | Some c => ctx_text c
  | None => None
  end.

(** [s.split(',')[0]] *)
Fixpoint before_comma (s : string) : string :=
  match s with
  | EmptyString => EmptyString
  | String c rest =>
      if Ascii.eqb c ","%char then EmptyString else String c (before_comma rest)
  end.

(** [`${lat.toFixed(2)}, ${lng.toFixed(2)}`] *)
Definition coordinates (lat lng : Q) : string :=
  toFixed2 lat +:+ ", " +:+ toFixed2 lng.

Definition near (lat lng : Q) : string := "Near " +:+ coordinates lat lng.

Definition priorityTypes : list string :=
  ["neighborhood"; "locality"; "place"; "district"; "region"].

(** The label built from the candidate picked by the priority loop. *)
Definition area_label (f : feature) (lat lng : Q) : string :=
  let context := default [] (context f) in
  let placeName := text f in
  let locality := context_text "locality" context in
  let region := context_text "region" context in
  if truthy locality && strict_ne placeName locality
  then interpolate placeName +:+ " / " +:+ interpolate locality
  else if truthy region && strict_ne placeName region
  then interpolate placeName +:+ " / " +:+ interpolate region
  else or_else placeName
         (or_else (before_comma <$> place_name f) (coordinates lat lng)).

(** [for (const type of priorityTypes)]: the first candidate of the first
    type that has one. *)
Fixpoint first_of_priority (types : list string) (features : list feature)
  : option feature :=
  match types with
  | [] => None
  | type :: rest =>
      match find (has_type type) features with
      | Some f => Some f
      | None => first_of_priority rest features
      end
  end.

(** [reverseGeocode(lat, lng)] once the provider has answered. *)
Definition label_of (answer : fetched) (lat lng : Q) : string :=
  match answer with
  | Body (Some ((firstFeature :: _) as features)) =>
      match first_of_priority priorityTypes features with
      | Some f => area_label f lat lng
      | None =>
          if negb (has_type "address" firstFeature)
          then or_else (text firstFeature) (coordinates lat lng)
          else near lat lng
      end
  | _ => near lat lng
  end.

End Resolver.

(** ** The batch geocoding pipeline: [POST /api/uploads/:id/geocode] *)

Module Pipeline.
Import Resolver.

Inductive response :=
| NotFound404   (* res.status(404).json({ error: 'Upload not found' }) *)
| Started.      (* res.json({ started: true }) *)

(** What a run does, in the order in which it does it. *)
Inductive event :=
| StatusWritten (uploadId : string) (s : UploadStatus.t)
| ResolverCalled (rowId : Z) (address : string)
| RowWritten (rowId : Z) (s : GeocodeStatus.t)
| Responded (r : response)
| Delayed (ms : Z).

Record world := {
  store : db;
  trace : list event
}.

(** The handler threads the store and the trace. *)
Definition M (A : Type) : Type := world -> A * world.

#[local] Instance M_ret : MRet M := fun A x w => (x, w).
#[local] Instance M_bind : MBind M := fun A B f m w => let (x, w') := m w in f x w'.

Definition emit (e : event) : M unit := fun w =>
  (tt, {| store := store w; trace := trace w ++ [e] |}).

Definition write (f : db -> db) : M unit := fun w =>
  (tt, {| store := f (store w); trace := trace w |}).

Definition read {A} (f : db -> A) : M A := fun w => (f (store w), w).

(** [SELECT id FROM uploads WHERE id = $1] *)
Definition select_upload (uploadId : string) : M (list string) :=
  read (fun d => Upload.id <$>
                 List.filter (fun u => String.eqb (Upload.id u) uploadId) (uploads d)).

(** [UPDATE uploads SET status = $1 WHERE id = $2] *)
Definition update_status (s : UploadStatus.t) (uploadId : string) : M unit :=
  write (fun d =>
    {| uploads := sql_update (fun u => String.eqb (Upload.id u) uploadId)
                             (Upload.set_status s) (uploads d);
       upload_rows := upload_rows d |}) ≫= fun _ =>
  emit (StatusWritten uploadId s).

(** [SELECT id, raw_address FROM upload_rows
     WHERE upload_id = $1 AND geocode_status = 'pending'] *)
Definition is_pending_of (uploadId : string) (r : Row.t) : bool :=
  String.eqb (Row.upload_id r) uploadId
  && GeocodeStatus.eqb (Row.geocode_status r) GeocodeStatus.pending.

Definition select_pending (uploadId : string) : M (list (Z * string)) :=
  read (fun d => (fun r => (Row.id r, Row.raw_address r)) <$>
                 List.filter (is_pending_of uploadId) (upload_rows d)).

(** [UPDATE upload_rows SET ... WHERE id = $4] with the outcome of a row. *)
Definition update_row (rowId : Z) (result : geocode_result) : M unit :=
  match result with
  | Found la ln =>
      write (fun d =>
        {| uploads := uploads d;
           upload_rows := sql_update (fun r => (Row.id r =? rowId)%Z)
                                     (Row.set_success la ln) (upload_rows d) |}) ≫= fun _ =>
      emit (RowWritten rowId GeocodeStatus.success)
  | NotFound err =>
      write (fun d =>
        {| uploads := uploads d;
           upload_rows := sql_update (fun r => (Row.id r =? rowId)%Z)
                                     (Row.set_failed err) (upload_rows d) |}) ≫= fun _ =>
      emit (RowWritten rowId GeocodeStatus.failed)
  end.

Definition batchSize : nat := 10.

(** [rows.slice(i, j)] *)
Definition slice {A} (l : list A) (i j : nat) : list A := take (j - i) (drop i l).

(** The counters [successCount] and [failedCount]. *)
Record counts := {
  successCount : nat;
  failedCount : nat
}.

Section Run.

(** The resolver: [Resolver.geocodeAddress] of some provider. *)
Variable geocodeAddress : string -> geocode_result.

(** A callback of [batch.map] up to its first [await]: the resolver call
    is issued. *)
Definition start_row (row : Z * string) : M unit :=
  emit (ResolverCalled row.1 row.2).

(** The rest of the callback, once the resolver has answered. *)
Definition finish_row (c : counts) (row : Z * string) : M counts :=
  match geocodeAddress row.2 with
  | Found la ln =>
      update_row row.1 (Found la ln) ≫= fun _ =>
      mret {| successCount := S (successCount c); failedCount := failedCount c |}
  | NotFound err =>
      update_row row.1 (NotFound err) ≫= fun _ =>
      mret {| successCount := successCount c; failedCount := S (failedCount c) |}
  end.

Fixpoint for_each {A} (f : A -> M unit) (l : list A) : M unit :=
  match l with
  | [] => mret tt
  | x :: xs => f x ≫= fun _ => for_each f xs
  end.

Fixpoint fold_rows (c : counts) (l : list (Z * string)) : M counts :=
  match l with
  | [] => mret c
  | x :: xs => finish_row c x ≫= fun c' => fold_rows c' xs
  end.

(** [await Promise.all(batch.map(async (row) => ...))]: every callback
    runs up to its [await] before any of them resumes; the rows of a batch
    are distinct, so the order in which they resume does not show in the
    store, and the model resumes them in the order of the batch. *)
Definition process_batch (batch : list (Z * string)) (c : counts) : M counts :=
  for_each start_row batch ≫= fun _ => fold_rows c batch.

(** [for (let i = 0; i < rows.length; i += batchSize)] with its body. *)
Equations? batches (rows : list (Z * string)) (i : nat) (c : counts) (w : world)
  : counts * world by wf (length rows - i) lt :=
  batches rows i c w with decide (i < length rows) := {
    | left _ =>
        batches rows (i + batchSize)
          (process_batch (slice rows i (i + batchSize)) c w).1
          (if decide (i + batchSize < length rows)
           then (emit (Delayed 200) (process_batch (slice rows i (i + batchSize)) c w).2).2
           else (process_batch (slice rows i (i + batchSize)) c w).2);
    | right _ => (c, w) }.
Proof. unfold batchSize. lia. Qed.

(** The handler of the trigger. *)
Definition geocode (uploadId : string) : M unit :=
  select_upload uploadId ≫= fun uploadCheck =>
  if (length uploadCheck =? 0)%nat then emit (Responded NotFound404)
  else
    update_status UploadStatus.processing uploadId ≫= fun _ =>
    emit (Responded Started) ≫= fun _ =>
    select_pending uploadId ≫= fun rows =>
    if (length rows =? 0)%nat then update_status UploadStatus.done uploadId
    else
      batches rows 0 {| successCount := 0; failedCount := 0 |} ≫= fun c =>
      update_status (if (0 <? successCount c)%nat
                     then UploadStatus.done else UploadStatus.failed) uploadId.

(** The operations of the core.  The two queries only read the store. *)
Inductive operation :=
| StartGeocoding (uploadId : string)
| GetPoints (uploadId : string)
| GetInsights (uploadId : string).

Definition perform (op : operation) (w : world) : world :=
  match op with
  | StartGeocoding uploadId => (geocode uploadId w).2
  | GetPoints _ | GetInsights _ => w
  end.

Definition perform_all (ops : list operation) (w : world) : world :=
  foldl (fun w op => perform op w) w ops.

End Run.

(** The status of an upload in the store. *)
Definition status_of (uploadId : string) (d : db) : option UploadStatus.t :=
  Upload.status <$> find (fun u => String.eqb (Upload.id u) uploadId) (uploads d).

(** The statuses written for one upload, oldest first. *)
Definition status_writes (uploadId : string) (t : list event) : list UploadStatus.t :=
  omap (fun e => match e with
                 | StatusWritten u s => if String.eqb u uploadId then Some s else None
                 | _ => None
                 end) t.

Definition resolver_calls (t : list event) : list (Z * string) :=
  omap (fun e => match e with
                 | ResolverCalled i a => Some (i, a)
                 | _ => None
                 end) t.

End Pipeline.

(** ** The spatial aggregator and the insight engine:
       [GET /api/uploads/:id/insights] *)

Module Insights.

(** A row that passes
    [WHERE upload_id = $1 AND geocode_status = 'success'
       AND lat IS NOT NULL AND lng IS NOT NULL]. *)
Record point := {
  p_lat : Q;
  p_lng : Q;
  p_customers : option Z
}.

Definition geocoded (uploadId : string) (r : Row.t) : option point :=
  if String.eqb (Row.upload_id r) uploadId
     && GeocodeStatus.eqb (Row.geocode_status r) GeocodeStatus.success
  then match Row.lat r, Row.lng r with
       | Some la, Some ln =>
           Some {| p_lat := la; p_lng := ln; p_customers := Row.customer_count r |}
       | _, _ => None
       end
  else None.

Definition successful_rows (uploadId : string) (rows : list Row.t) : list point :=
  omap (geocoded uploadId) rows.

(** The grouping key [ROUND(lat::numeric, 2), ROUND(lng::numeric, 2)], in
    hundredths of a degree. *)
Definition cell_key (p : point) : Z * Z := (ROUND2 (p_lat p), ROUND2 (p_lng p)).

(** The transition state of the aggregates of one group:
    [COUNT], the two [AVG] and [SUM(customer_count)]. *)
Record group := {
  g_key : Z * Z;
  g_count : nat;
  g_sum_lat : Q;
  g_sum_lng : Q;
  g_sum_customers : option Z
}.

(** [SUM] skips NULL and is NULL until it has seen a value. *)
Definition sum_step (s v : option Z) : option Z :=
  match v with
  | None => s
  | Some x => Some (default 0%Z s + x)%Z
  end.

Definition open_group (p : point) : group :=
  {| g_key := cell_key p; g_count := 1;
     g_sum_lat := p_lat p; g_sum_lng := p_lng p;
     g_sum_customers := sum_step None (p_customers p) |}.

Definition advance (g : group) (p : point) : group :=
  {| g_key := g_key g; g_count := S (g_count g);
     g_sum_lat := g_sum_lat g + p_lat p; g_sum_lng := g_sum_lng g + p_lng p;
     g_sum_customers := sum_step (g_sum_customers g) (p_customers p) |}.

Definition key_eqb (a b : Z * Z) : bool := (a.1 =? b.1)%Z && (a.2 =? b.2)%Z.

Fixpoint add_point (p : point) (groups : list group) : list group :=
  match groups with
  | [] => [open_group p]
  | g :: rest =>
      if key_eqb (g_key g) (cell_key p) then advance g p :: rest
      else g :: add_point p rest
  end.

(** [GROUP BY]: the groups come out in the order in which their first row
    is met (PostgreSQL leaves that order open). *)
Definition group_by_cell (points : list point) : list group :=
  foldl (fun groups p => add_point p groups) [] points.

(** A row of the CTE [grid_cells] (and of [all_cells]). *)
Record grid_cell := {
  cell_lat : Z;
  cell_lng : Z;
  count : nat;
  center_lat : Q;
  center_lng : Q;
  total_customers : Z
}.

Definition finish (g : group) : grid_cell :=
  {| cell_lat := (g_key g).1; cell_lng := (g_key g).2;
     count := g_count g;
     center_lat := g_sum_lat g / inject_Z (Z.of_nat (g_count g));
     center_lng := g_sum_lng g / inject_Z (Z.of_nat (g_count g));
     total_customers := default 0%Z (g_sum_customers g) |}.

Definition grid_cells (uploadId : string) (rows : list Row.t) : list grid_cell :=
  finish <$> group_by_cell (successful_rows uploadId rows).

(** [cell_lat || ',' || cell_lng] *)
Definition cell_id (c : grid_cell) : string :=
  numeric2_text (cell_lat c) +:+ "," +:+ numeric2_text (cell_lng c).

(** [ORDER BY count DESC LIMIT 3].  PostgreSQL leaves the order of cells
    of equal count open; here they stay in the order of the aggregation,
    in this query and in the CTE [dense_cells] of the whitespace query
    alike. *)
Definition count_desc (a b : grid_cell) : bool := (count b <=? count a)%nat.

Definition denseAreasResult (uploadId : string) (rows : list Row.t) : list grid_cell :=
  take 3 (order_by count_desc (grid_cells uploadId rows)).

(** [SELECT COALESCE(SUM(customer_count), 0) FROM upload_rows
     WHERE upload_id = $1 AND geocode_status = 'success'
       AND customer_count IS NOT NULL] *)
Definition totalCustomersResult (uploadId : string) (rows : list Row.t) : Z :=
  default 0%Z
    (foldl sum_step None
       (Row.customer_count <$>
        List.filter (fun r => String.eqb (Row.upload_id r) uploadId
                              && GeocodeStatus.eqb (Row.geocode_status r) GeocodeStatus.success
                              && bool_decide (is_Some (Row.customer_count r))) rows)).

(** [denseAreasResult.rows.reduce((sum, row) => sum + parseInt(row.total_customers || 0), 0)] *)
Definition customersInTop3 (dense : list grid_cell) : Z :=
  foldl (fun sum row => (sum + total_customers row)%Z) 0%Z dense.

(** [totalCustomers > 0 ? Math.round((customersInTop3 / totalCustomers) * 100) : 0] *)
Definition concentration (inTop3 total : Z) : Z :=
  if (0 <? total)%Z
  then Math_round (js_mul (js_div (inject_Z inTop3) (inject_Z total)) 100)
  else 0%Z.

(** The areas of the report. *)
Record center := {
  lat : Q;
  lng : Q
}.

Module DenseArea.
Record t := {
  cellId : string;
  count : Z;
  center : Insights.center;
  label : string
}.
End DenseArea.

Module WhiteSpaceArea.
Record t := {
  cellId : string;
  count : Z;
  center : Insights.center;
  distanceKm : Q;
  label : string
}.
End WhiteSpaceArea.

Record report := {
  topDenseAreas : list DenseArea.t;
  concentrationPercent : Z;
  whiteSpaceAreas : list WhiteSpaceArea.t
}.

(** [Math.round(parseFloat(row.distance_km) * 10) / 10] *)
Definition round1 (distance_km : Q) : Q :=
  js_div (inject_Z (Math_round (js_mul (parseFloat distance_km) 10))) 10.

(** The key of the label memo: [`${lat.toFixed(2)},${lng.toFixed(2)}`]. *)
Definition cache_key (c : center) : string :=
  toFixed2 (lat c) +:+ "," +:+ toFixed2 (lng c).

(** The memo [geocodeCache] of one request and the calls of
    [reverseGeocode] issued so far. *)
Record labeler := {
  geocodeCache : gmap string string;
  issued : list center
}.

(** [parseFloat(row.lat)], [parseFloat(row.lng)] *)
Definition center_of (c : grid_cell) : center :=
  {| lat := parseFloat (center_lat c); lng := parseFloat (center_lng c) |}.

Section Engine.

(** PostGIS [ST_Distance] between two geography points [(lng, lat)], in
    metres. *)
Variable ST_Distance : Q * Q -> Q * Q -> Q.

(** The provider's answer to the reverse-geocoding request for
    [(lat, lng)]. *)
Variable provider : Q -> Q -> Resolver.fetched.

Definition reverseGeocode (lat lng : Q) : string :=
  Resolver.label_of (provider lat lng) lat lng.

(** [await Promise.all(rows.map(async (row) => { ... await getLabel(lat, lng) ... }))].
    Every callback runs up to its first suspension before any of them
    resumes: [getLabel] computes the key, looks it up in the memo as it is
    when the batch starts and, on a miss, calls [reverseGeocode], which
    issues its request.  The callbacks that missed store their label when
    they resume (here in the order of the batch). *)
Definition missed (cache : gmap string string) (c : center) : bool :=
  bool_decide (cache !! cache_key c = None).

Definition getLabel (cache : gmap string string) (c : center) : string :=
  match cache !! cache_key c with
  | Some label => label
  | None => reverseGeocode (lat c) (lng c)
  end.

Definition label_all (centers : list center) (st : labeler) : list string * labeler :=
  let cache := geocodeCache st in
  let pending := List.filter (missed cache) centers in
  (getLabel cache <$> centers,
   {| geocodeCache :=
        foldl (fun m c => <[cache_key c := reverseGeocode (lat c) (lng c)]> m)
              cache pending;
      issued := issued st ++ pending |}).

Definition dense_area (row : grid_cell) (label : string) : DenseArea.t :=
  {| DenseArea.cellId := cell_id row;
     DenseArea.count := Z.of_nat (count row);
     DenseArea.center := center_of row;
     DenseArea.label := label |}.

(** [ST_Distance(ac.center, dc.center) / 1000.0] *)
Definition distance_km (ac dc : grid_cell) : Q :=
  ST_Distance (center_lng ac, center_lat ac) (center_lng dc, center_lat dc) / 1000.

Definition Qmin (a b : Q) : Q := if Qle_bool a b then a else b.

(** [MIN] over the rows of a group: NULL when there is none. *)
Definition sql_min (l : list Q) : option Q :=
  match l with
  | [] => None
  | x :: xs => Some (foldl Qmin x xs)
  end.

(** A row of the CTE [whitespace_candidates]. *)
Record candidate := {
  cand_cell : grid_cell;
  cand_distance_km : Q
}.

(** [NOT EXISTS (SELECT 1 FROM dense_cells dc2
                 WHERE dc2.cell_lat = ac.cell_lat AND dc2.cell_lng = ac.cell_lng)] *)
Definition is_dense (dense_cells : list grid_cell) (ac : grid_cell) : bool :=
  existsb (fun dc2 => key_eqb (cell_lat dc2, cell_lng dc2) (cell_lat ac, cell_lng ac))
          dense_cells.

Definition whitespace_candidate (dense_cells : list grid_cell) (ac : grid_cell)
  : option candidate :=
  if (count ac <=? 1)%nat && negb (is_dense dense_cells ac)
  then match sql_min (distance_km ac <$> dense_cells) with
       | Some d =>
           if Qle_bool d 3
           then Some {| cand_cell := ac; cand_distance_km := d |}
           else None
       | None => None
       end
  else None.

Definition whitespace_candidates (all_cells dense_cells : list grid_cell)
  : list candidate :=
  omap (whitespace_candidate dense_cells) all_cells.

(** [ORDER BY distance_km ASC LIMIT 3] *)
Definition distance_asc (a b : candidate) : bool :=
  Qle_bool (cand_distance_km a) (cand_distance_km b).

Definition whiteSpaceResult (uploadId : string) (rows : list Row.t) : list candidate :=
  take 3 (order_by distance_asc
            (whitespace_candidates (grid_cells uploadId rows)
                                   (denseAreasResult uploadId rows))).

Definition white_space_area (row : candidate) (label : string) : WhiteSpaceArea.t :=
  {| WhiteSpaceArea.cellId := cell_id (cand_cell row);
     WhiteSpaceArea.count := Z.of_nat (count (cand_cell row));
     WhiteSpaceArea.center := center_of (cand_cell row);
     WhiteSpaceArea.distanceKm := round1 (cand_distance_km row);
     WhiteSpaceArea.label := label |}.

(** The handler: the report and the state of the labeler when it ends. *)
Definition insights (uploadId : string) (rows : list Row.t) : report * labeler :=
  let denseRows := denseAreasResult uploadId rows in
  let fresh := {| geocodeCache := ∅; issued := [] |} in
  let (denseLabels, st1) := label_all (center_of <$> denseRows) fresh in
  let topDenseAreas := zip_with dense_area denseRows denseLabels in
  let totalCustomers := totalCustomersResult uploadId rows in
  let concentrationPercent := concentration (customersInTop3 denseRows) totalCustomers in
  if (0 <? length topDenseAreas)%nat
  then
    let whiteRows := whiteSpaceResult uploadId rows in
    let (whiteLabels, st2) := label_all ((center_of ∘ cand_cell) <$> whiteRows) st1 in
    ({| topDenseAreas := topDenseAreas;
        concentrationPercent := concentrationPercent;
        whiteSpaceAreas := zip_with white_space_area whiteRows whiteLabels |}, st2)
  else
    ({| topDenseAreas := topDenseAreas;
        concentrationPercent := concentrationPercent;
        whiteSpaceAreas := [] |}, st1).

End Engine.

(** The presentation layer ([App.jsx]):
    [Math.min(3, Math.max(0.5, Math.ceil(area.distanceKm)))]. *)
Definition radius (area : WhiteSpaceArea.t) : Q :=
  Math_min 3 (Math_max (1 # 2) (inject_Z (Math_ceil (WhiteSpaceArea.distanceKm area)))).

End Insights.

(** ** Vocabulary of the statements *)

Module Spec.
Import Insights.
Local Open Scope Q_scope.

Definition Qsum (l : list Q) : Q := foldr Qplus 0 l.
Definition Zsum (l : list Z) : Z := foldr Z.add 0%Z l.

(** Arithmetic mean. *)
Definition mean (l : list Q) : Q := Qsum l / inject_Z (Z.of_nat (length l)).

(** A missing [customer_count] counts for 0. *)
Definition customers (p : point) : Z := default 0%Z (p_customers p).

Definition key_of (c : grid_cell) : Z * Z := (cell_lat c, cell_lng c).

(** Round half up. *)
Definition round_half_up (x : Q) : Z := Qfloor (x + (1 # 2)).

(** The rows of an upload that were geocoded successfully, and what a row
    counts for. *)
Definition successfully_geocoded (uploadId : string) (r : Row.t) : bool :=
  String.eqb (Row.upload_id r) uploadId
  && GeocodeStatus.eqb (Row.geocode_status r) GeocodeStatus.success.

Definition row_customers (r : Row.t) : Z := default 0%Z (Row.customer_count r).

(** The sum of [customer_count] over all successfully geocoded rows. *)
Definition total_customer_count (uploadId : string) (rows : list Row.t) : Z :=
  Zsum (row_customers <$> List.filter (successfully_geocoded uploadId) rows).

(** [clamp(x, lo, hi)]. *)
Definition clamp (x lo hi : Q) : Q :=
  if Qle_bool x lo then lo else if Qle_bool hi x then hi else x.

(** The points whose rounded coordinates are [k]. *)
Definition members (k : Z * Z) (points : list point) : list point :=
  List.filter (fun p => key_eqb (cell_key p) k) points.

(** The sum of [customer_count] over the successfully geocoded rows whose
    cell is one of the top-3 dense cells. *)
Definition in_cells (cells : list grid_cell) (p : point) : bool :=
  bool_decide (cell_key p ∈ key_of <$> cells).

Definition top3_customer_count (uploadId : string) (rows : list Row.t) : Z :=
  Zsum (customers <$>
        List.filter (in_cells (denseAreasResult uploadId rows))
                    (successful_rows uploadId rows)).

(** No successfully geocoded row of the upload has a negative
    [customer_count]. *)
Definition counts_nonnegative (uploadId : string) (rows : list Row.t) : Prop :=
  Forall (fun r => successfully_geocoded uploadId r = true -> (0 <= row_customers r)%Z) rows.

(** [d] is the distance, in kilometres, from the centroid of [c] to the
    nearest centroid of [dense]. *)
Definition nearest (ST_Distance : Q * Q -> Q * Q -> Q)
    (c : grid_cell) (dense : list grid_cell) (d : Q) : Prop :=
  (exists dc, dc ∈ dense /\ d = distance_km ST_Distance c dc)
  /\ (forall dc, dc ∈ dense -> d <= distance_km ST_Distance c dc).

(** The area [a] of the report is the row [r] of the whitespace query. *)
Definition shows (a : WhiteSpaceArea.t) (r : candidate) : Prop :=
  WhiteSpaceArea.cellId a = cell_id (cand_cell r)
  /\ WhiteSpaceArea.count a = Z.of_nat (count (cand_cell r))
  /\ WhiteSpaceArea.center a = center_of (cand_cell r)
  /\ WhiteSpaceArea.distanceKm a = round1 (cand_distance_km r).

(** The numbers that the report gives for a whitespace area. *)
Definition area_numbers (a : WhiteSpaceArea.t) : list Q :=
  [ inject_Z (WhiteSpaceArea.count a);
    lat (WhiteSpaceArea.center a);
    lng (WhiteSpaceArea.center a);
    WhiteSpaceArea.distanceKm a ].

(** What the whitespace query keeps. *)
Definition kept (ST_Distance : Q * Q -> Q * Q -> Q)
    (uploadId : string) (rows : list Row.t) (r : candidate) : Prop :=
  cand_cell r ∈ grid_cells uploadId rows
  /\ (count (cand_cell r) <= 1)%nat
  /\ (key_of (cand_cell r) ∉ (key_of <$> denseAreasResult uploadId rows))
  /\ nearest ST_Distance (cand_cell r) (denseAreasResult uploadId rows) (cand_distance_km r)
  /\ cand_distance_km r <= 3.

(** [add_point] on the group of the point. *)
Definition touch (p : point) (g : group) : group :=
  if key_eqb (g_key g) (cell_key p) then advance g p else g.

(** What the transition state of a group records about the points seen so
    far. *)
Record summarises (pts : list point) (g : group) : Prop := {
  sum_members : members (g_key g) pts <> [];
  sum_count : g_count g = length (members (g_key g) pts);
  sum_lat : g_sum_lat g == Qsum (p_lat <$> members (g_key g) pts);
  sum_lng : g_sum_lng g == Qsum (p_lng <$> members (g_key g) pts);
  sum_customers :
    default 0%Z (g_sum_customers g) = Zsum (customers <$> members (g_key g) pts)
}.

(** The invariant of the aggregation loop. *)
Record grouped (pts : list point) (groups : list group) : Prop := {
  grouped_nodup : NoDup (g_key <$> groups);
  grouped_cover : forall q, q ∈ pts -> cell_key q ∈ g_key <$> groups;
  grouped_sums : Forall (summarises pts) groups
}.

End Spec.

(** The label policy in the words of its description. *)
Module LabelSpec.
Import Resolver.

(** The name of a candidate. *)
Definition name (f : feature) : string := default EmptyString (text f).

(** [o], when it exists and differs from the name [n]. *)
Definition differing (n : string) (o : option string) : option string :=
  match o with
  | Some x => if negb (String.eqb x EmptyString) && negb (String.eqb n x) then Some x else None
  | None => None
  end.

(** The distinguishing locality, else region, of a candidate. *)
Definition distinguishing (f : feature) : option string :=
  let ctx := default [] (context f) in
  match differing (name f) (context_text "locality" ctx) with
  | Some locality => Some locality
  | None => differing (name f) (context_text "region" ctx)
  end.

(** ["<name> / <locality-or-region>"], else the bare name. *)
Definition composed (f : feature) : string :=
  match distinguishing f with
  | Some x => name f +:+ " / " +:+ x
  | None => name f
  end.

(** The label as described: the preferred candidate composed; else the
    name of the first candidate that is not an address; else the
    coordinates. *)
Definition stated_label (features : list feature) (lat lng : Q) : string :=
  match first_of_priority priorityTypes features with
  | Some f => composed f
  | None =>
      match find (fun f => negb (has_type "address" f)) features with
      | Some f => name f
      | None => near lat lng
      end
  end.

(** [f] is the first candidate of the first type, in the order of [types],
    that some candidate has. *)
Definition preferred (types : list string) (features : list feature) (f : feature) : Prop :=
  exists (i : nat) (type : string),
    types !! i = Some type
    /\ find (has_type type) features = Some f
    /\ forall (j : nat) (earlier : string),
         (j < i)%nat -> types !! j = Some earlier ->
         Forall (fun g => has_type earlier g = false) features.

(** No candidate has one of the [types]. *)
Definition none_preferred (types : list string) (features : list feature) : Prop :=
  forall type, type ∈ types -> Forall (fun g => has_type type g = false) features.

End LabelSpec.

(** Vocabulary of the statements about the pipeline. *)
Module PipelineSpec.
Import Resolver Pipeline.

Definition found (geocodeAddress : string -> geocode_result) (row : Z * string) : bool :=
  match geocodeAddress row.2 with
  | Found _ _ => true
  | NotFound _ => false
  end.

(** The status that a run leaves behind when it attempted [rows]. *)
Definition final_status (geocodeAddress : string -> geocode_result)
    (rows : list (Z * string)) : UploadStatus.t :=
  if existsb (found geocodeAddress) rows then UploadStatus.done else UploadStatus.failed.

(** The pending rows of an upload, as the trigger selects them. *)
Definition pending_rows (uploadId : string) (d : db) : list (Z * string) :=
  (fun r => (Row.id r, Row.raw_address r)) <$>
  List.filter (is_pending_of uploadId) (upload_rows d).

(** The events of the rows of a batch. *)
Definition call_event (row : Z * string) : event := ResolverCalled row.1 row.2.

Definition write_event (geocodeAddress : string -> geocode_result)
    (row : Z * string) : event :=
  RowWritten row.1 (if found geocodeAddress row
                    then GeocodeStatus.success else GeocodeStatus.failed).

(** The world after [UPDATE uploads SET status = $1 WHERE id = $2]. *)
Definition with_status (s : UploadStatus.t) (uploadId : string) (w : world) : world :=
  {| store := {| uploads := sql_update (fun u => String.eqb (Upload.id u) uploadId)
                                       (Upload.set_status s) (uploads (store w));
                 upload_rows := upload_rows (store w) |};
     trace := trace w ++ [StatusWritten uploadId s] |}.

(** The events of the loop over [rows]: they call the resolver for these
    rows, in order, and write no upload status. *)
Definition row_events (rows : list (Z * string)) (events : list event) : Prop :=
  resolver_calls events = rows /\ forall u, status_writes u events = [].

(** The status in which a run leaves the upload. *)
Definition outcome (geocodeAddress : string -> geocode_result)
    (rows : list (Z * string)) : UploadStatus.t :=
  match rows with
  | [] => UploadStatus.done
  | _ => final_status geocodeAddress rows
  end.

(** The status writes of any number of runs: [processing], then [done] or
    [failed], again and again. *)
Inductive run_writes : list UploadStatus.t -> Prop :=
| run_writes_nil : run_writes []
| run_writes_run (s : UploadStatus.t) (rest : list UploadStatus.t) :
    s = UploadStatus.done \/ s = UploadStatus.failed ->
    run_writes rest ->
    run_writes (UploadStatus.processing :: s :: rest).

End PipelineSpec.

(** Characters of numerals. *)
Module Chars.

Definition is_digit (c : ascii) : bool :=
  match Ascii.is_nat c with Some _ => true | None => false end.

Fixpoint all_chars (P : ascii -> bool) (s : string) : bool :=
  match s with
  | EmptyString => true
  | String c rest => P c && all_chars P rest
  end.

(** The characters of a numeral: digits, the point and the sign. *)
Definition numeral_char (c : ascii) : bool :=
  is_digit c || Ascii.eqb c "." || Ascii.eqb c "-".

End Chars.

(** ** Sample data *)

Module Sample.

(** A row of upload ["u1"] that has been geocoded. *)
Definition located (i : Z) (la ln : Q) (customers : option Z) : Row.t :=
  {| Row.id := i; Row.upload_id := "u1"; Row.row_index := i;
     Row.raw_address := "address " +:+ pretty i;
     Row.service_type := None; Row.customer_count := customers;
     Row.revenue_bucket := None;
     Row.geocode_status := GeocodeStatus.success;
     Row.lat := Some la; Row.lng := Some ln; Row.geocode_error := None |}.

(** A row of upload ["u1"] that waits for the pipeline. *)
Definition waiting (i : Z) (address : string) : Row.t :=
  {| Row.id := i; Row.upload_id := "u1"; Row.row_index := i;
     Row.raw_address := address;
     Row.service_type := None; Row.customer_count := None;
     Row.revenue_bucket := None;
     Row.geocode_status := GeocodeStatus.pending;
     Row.lat := None; Row.lng := None; Row.geocode_error := None |}.

(** The two points of the grid-grouping example. *)
Definition two_points : list Row.t :=
  [ located 1 (37774901 # 1000000) (-122419412 # 1000000) None;
    located 2 (37774888 # 1000000) (-122419399 # 1000000) None ].

(** Candidates of a reverse-geocoding answer. *)
Definition ctx (i t : string) : Resolver.context_item :=
  {| Resolver.ctx_id := Some i; Resolver.ctx_text := Some t |}.

Definition mission : Resolver.feature :=
  {| Resolver.place_type := Some ["neighborhood"];
     Resolver.text := Some "Mission District";
     Resolver.place_name := Some "Mission District, San Francisco, California, United States";
     Resolver.context := Some [ctx "postcode.1" "94103"; ctx "place.2" "San Francisco";
                               ctx "region.3" "California"; ctx "country.4" "United States"] |}.

Definition valencia_street : Resolver.feature :=
  {| Resolver.place_type := Some ["address"];
     Resolver.text := Some "Valencia Street";
     Resolver.place_name := Some "500 Valencia Street, San Francisco, California 94103, United States";
     Resolver.context := Some [ctx "neighborhood.5" "Mission District"; ctx "postcode.1" "94103";
                               ctx "place.2" "San Francisco"; ctx "region.3" "California"] |}.

Definition postcode_94103 : Resolver.feature :=
  {| Resolver.place_type := Some ["postcode"];
     Resolver.text := Some "94103";
     Resolver.place_name := Some "San Francisco, California 94103, United States";
     Resolver.context := Some [ctx "place.2" "San Francisco"; ctx "region.3" "California"] |}.

(** A provider that finds every address but those that start with
    ["nowhere"]. *)
Definition atlas (address : string) : Resolver.forward :=
  if String.prefix "nowhere" address
  then Resolver.ForwardBody (Some [])
  else Resolver.ForwardBody (Some [((-12242 # 100)%Q, (3777 # 100)%Q)]).

Definition resolver : string -> Resolver.geocode_result :=
  Resolver.geocodeAddress atlas.

Definition upload_u1 (s : UploadStatus.t) : Upload.t :=
  {| Upload.id := "u1"; Upload.original_filename := "customers.csv";
     Upload.status := s; Upload.total_rows := 12; Upload.valid_rows := 12;
     Upload.invalid_rows := 0 |}.

(** An upload of twelve rows that has just been stored. *)
Definition stored : Pipeline.world :=
  {| Pipeline.store :=
       {| uploads := [upload_u1 UploadStatus.uploaded];
          upload_rows :=
            [ waiting 1 "1 Main St"; waiting 2 "nowhere 2"; waiting 3 "3 Main St";
              waiting 4 "4 Main St"; waiting 5 "5 Main St"; waiting 6 "6 Main St";
              waiting 7 "7 Main St"; waiting 8 "8 Main St"; waiting 9 "9 Main St";
              waiting 10 "10 Main St"; waiting 11 "nowhere 11"; waiting 12 "12 Main St" ] |};
     Pipeline.trace := [] |}.

(** An upload whose run has failed: its two rows are marked failed. *)
Definition given_up : Pipeline.world :=
  {| Pipeline.store :=
       {| uploads := [upload_u1 UploadStatus.failed];
          upload_rows :=
            [ Row.set_failed "no result" (waiting 1 "nowhere 1");
              Row.set_failed "no result" (waiting 2 "nowhere 2") ] |};
     Pipeline.trace := [] |}.

(** Two points on either side of a cell boundary: 37.775 is rounded to
    37.78 by the database, while the binary64 value of 37.775 lies just
    below 37.775. *)
Definition boundary : list Row.t :=
  [ located 1 (37775 # 1000) (-12242 # 100) None;
    located 2 (37774 # 1000) (-12242 # 100) None ].

(** A stand-in for [ST_Distance]: 100 km per degree along each axis. *)
Definition taxicab (a b : Q * Q) : Q :=
  100000 * (Qabs (a.1 - b.1) + Qabs (a.2 - b.2)).

(** A provider that cannot be reached. *)
Definition unreachable (lat lng : Q) : Resolver.fetched := Resolver.FetchThrows.

(** Three cells of three, two and two points, and five lone points to the
    north of them. *)
Definition town : list Row.t :=
  [ located 1 (377741 # 10000) (-1224194 # 10000) (Some 10%Z);
    located 2 (37825 # 1000) (-12242 # 100) (Some 1%Z);
    located 3 (377742 # 10000) (-1224194 # 10000) (Some 10%Z);
    located 4 (3779 # 100) (-12242 # 100) None;
    located 5 (3784 # 100) (-12242 # 100) (Some 2%Z);
    located 6 (3780 # 100) (-12242 # 100) (Some 5%Z);
    located 7 (3782 # 100) (-12242 # 100) (Some 3%Z);
    located 8 (377743 # 10000) (-1224194 # 10000) (Some 10%Z);
    located 9 (3779 # 100) (-12242 # 100) (Some 4%Z);
    located 10 (3781 # 100) (-12243 # 100) None;
    located 11 (3780 # 100) (-12242 # 100) (Some 5%Z);
    located 12 (3781 # 100) (-12242 # 100) (Some 7%Z) ].

(** Three dense cells, one of them at the origin, and four lone points at
    1.5, 2.97, 2.96 and 3.01 km from it (with [taxicab]). *)
Definition ridge : list Row.t :=
  [ located 1 0 0 None;
    located 2 0 0 None;
    located 3 5 5 None;
    located 4 5 5 None;
    located 5 6 6 None;
    located 6 6 6 None;
    located 7 (1 # 100) (197 # 10000) None;
    located 8 (2 # 100) (96 # 10000) None;
    located 9 (3 # 100) (1 # 10000) None;
    located 10 (15 # 1000) 0 None ].

(** Cells of four, three, two and one point: the top three hold 57 of the
    200 customers. *)
Definition shares : list Row.t :=
  [ located 1 (377741 # 10000) (-1224194 # 10000) (Some 20%Z);
    located 2 (377742 # 10000) (-1224194 # 10000) (Some 20%Z);
    located 3 (377743 # 10000) (-1224194 # 10000) (Some 17%Z);
    located 4 (377744 # 10000) (-1224194 # 10000) None;
    located 5 (3779 # 100) (-12242 # 100) (Some 0%Z);
    located 6 (3779 # 100) (-12242 # 100) None;
    located 7 (3779 # 100) (-12242 # 100) None;
    located 8 (3780 # 100) (-12242 # 100) None;
    located 9 (3780 # 100) (-12242 # 100) None;
    located 10 (3781 # 100) (-12242 # 100) (Some 143%Z) ].

(** The same cells, with a negative [customer_count] in the lone point:
    the top three hold 30 customers, all rows together 20. *)
Definition refunds : list Row.t :=
  [ located 1 (377741 # 10000) (-1224194 # 10000) (Some 10%Z);
    located 2 (377742 # 10000) (-1224194 # 10000) (Some 10%Z);
    located 3 (377743 # 10000) (-1224194 # 10000) (Some 10%Z);
    located 4 (377744 # 10000) (-1224194 # 10000) None;
    located 5 (3779 # 100) (-12242 # 100) (Some 0%Z);
    located 6 (3779 # 100) (-12242 # 100) None;
    located 7 (3779 # 100) (-12242 # 100) None;
    located 8 (3780 # 100) (-12242 # 100) None;
    located 9 (3780 # 100) (-12242 # 100) None;
    located 10 (3781 # 100) (-12242 # 100) (Some (-10)%Z) ].

End Sample.

(** ** Text

    The functions of JavaScript strings that the handlers use.  Text is a
    sequence of code units below 256. *)

Module Text.

(** White space and line terminators, which [trim] and [parseInt] skip:
    TAB, LF, VT, FF, CR, SP and NBSP. *)
Definition is_space (c : ascii) : bool :=
  let n := N_of_ascii c in
  ((9 <=? n) && (n <=? 13) || (n =? 32) || (n =? 160))%N.

Fixpoint trimStart (s : string) : string :=
  match s with
  | String c rest => if is_space c then trimStart rest else s
  | EmptyString => EmptyString
  end.

Fixpoint trimEnd (s : string) : string :=
  match s with
  | String c rest =>
      match trimEnd rest with
      | EmptyString => if is_space c then EmptyString else String c EmptyString
      | kept => String c kept
      end
  | EmptyString => EmptyString
  end.

(** [s.trim()] *)
Definition trim (s : string) : string := trimEnd (trimStart s).

(** The lower-case form of a code unit: A to Z and the capital letters
    from 192 to 222 (but the multiplication sign, 215) move up by 32. *)
Definition lower (c : ascii) : ascii :=
  let n := N_of_ascii c in
  if ((65 <=? n) && (n <=? 90) || (192 <=? n) && (n <=? 222) && negb (n =? 215))%N
  then ascii_of_N (n + 32)
  else c.

(** [s.toLowerCase()] *)
Fixpoint toLowerCase (s : string) : string :=
  match s with
  | String c rest => String (lower c) (toLowerCase rest)
  | EmptyString => EmptyString
  end.

(** [s.split(sep)] for a separator of one character: never an empty
    array. *)
Fixpoint split (sep : ascii) (s : string) : list string :=
  match s with
  | String c rest =>
      if Ascii.eqb c sep then EmptyString :: split sep rest
      else match split sep rest with
           | piece :: pieces => String c piece :: pieces
           | [] => [String c EmptyString]
           end
  | EmptyString => [EmptyString]
  end.

(** [parts.join(sep)] *)
Definition join (sep : string) (parts : list string) : string :=
  match parts with
  | [] => EmptyString
  | part :: rest => foldl (fun joined p => joined +:+ sep +:+ p) part rest
  end.

(** The value of a character as a digit of the radix, if it is one. *)
Definition digit_of (radix : Z) (c : ascii) : option Z :=
  let n := Z.of_N (N_of_ascii c) in
  let value :=
    if (48 <=? n)%Z && (n <=? 57)%Z then Some (n - 48)%Z
    else if (97 <=? n)%Z && (n <=? 122)%Z then Some (n - 87)%Z
    else if (65 <=? n)%Z && (n <=? 90)%Z then Some (n - 55)%Z
    else None in
  match value with
  | Some d => if (d <? radix)%Z then Some d else None
  | None => None
  end.

(** The number written by the longest prefix of digits; [acc] is the
    number read so far, [None] before the first digit. *)
Fixpoint digits (radix : Z) (s : string) (acc : option Z) : option Z :=
  match s with
  | String c rest =>
      match digit_of radix c with
      | Some d => digits radix rest (Some (default 0 acc * radix + d)%Z)
      | None => acc
      end
  | EmptyString => acc
  end.

(** [parseInt(s)] without a radix; [None] is [NaN].  Leading white space
    is skipped, then a sign, then [0x] or [0X], which selects radix 16;
    the number is that of the longest prefix of digits of what is left.
    The integer is kept exact here; the Number is the binary64 value
    nearest to it, the same integer below [2^53]. *)
Definition parseInt (s : string) : option Z :=
  let s1 := trimStart s in
  let '(sign, s2) :=
    match s1 with
    | String "-"%char rest => ((-1)%Z, rest)
    | String "+"%char rest => (1%Z, rest)
    | _ => (1%Z, s1)
    end in
  let '(radix, s3) :=
    match s2 with
    | String "0"%char (String "x"%char rest) => (16%Z, rest)
    | String "0"%char (String "X"%char rest) => (16%Z, rest)
    | _ => (10%Z, s2)
    end in
  Z.mul sign <$> digits radix s3 None.

End Text.

(** ** The intake of a file: [POST /api/upload] *)

Module Intake.
Import Text.

(** [req.file]: its name and its content as text. *)
Record file := {
  originalname : string;
  buffer : string
}.

(** A record of the parsed file: an object whose keys are the column
    names of the header. *)
Definition record : Type := gmap string string.

(** Outcome of [parse(text, { columns: true, skip_empty_lines: true,
    trim: true })]. *)
Inductive parsed :=
| ParseThrows (message : string)
| Records (records : list record).

(** The answers with status 400, by their [error]:
    'No file uploaded', 'File must be a CSV', 'Invalid CSV format' with
    its [details], 'CSV file is empty', and 'Missing required columns.
    Must have either address OR all of street, city, postal'. *)
Inductive rejection :=
| NoFile
| NotCsv
| InvalidCsv (details : string)
| EmptyCsv
| MissingColumns.

Inductive response :=
| BadRequest (error : rejection)
| Uploaded (uploadId : string) (totalRows validRows invalidRows : Z)
| InternalServerError.

(** The store with the sequence of [upload_rows.id] ([BIGSERIAL]). *)
Record world := {
  store : db;
  upload_rows_id_seq : Z
}.

(** A statement of the handler returns or throws. *)
Inductive result (A : Type) :=
| Returned (x : A)
| Thrown.
Arguments Returned {A} x.
Arguments Thrown {A}.

Definition M (A : Type) : Type := world -> result A * world.

#[local] Instance M_ret : MRet M := fun A x w => (Returned x, w).
#[local] Instance M_bind : MBind M := fun A B f m w =>
  match m w with
  | (Returned x, w') => f x w'
  | (Thrown, w') => (Thrown, w')
  end.

(** A value bound to [$5], the column [customer_count]: [null] or a
    Number, [NaN] when [v] is [None]. *)
Inductive parameter :=
| Null
| Number (v : option Z).

(** The value of an [INTEGER] column for a parameter, if it is one: [NaN]
    and the integers beyond 32 bits are refused. *)
Definition integer_of (p : parameter) : option (option Z) :=
  match p with
  | Null => Some None
  | Number (Some z) =>
      if (- 2147483648 <=? z)%Z && (z <=? 2147483647)%Z then Some (Some z) else None
  | Number None => None
  end.

(** [INSERT INTO uploads (original_filename, status) VALUES ($1, $2)
     RETURNING id].  The id is the one that [gen_random_uuid()] draws; the
    primary key refuses an id that is taken. *)
Definition insert_upload (uuid original_filename : string) (status : UploadStatus.t)
  : M string := fun w =>
  if existsb (fun u => String.eqb (Upload.id u) uuid) (uploads (store w))
  then (Thrown, w)
  else (Returned uuid,
        {| store :=
             {| uploads := uploads (store w)
                           ++ [ {| Upload.id := uuid;
                                   Upload.original_filename := original_filename;
                                   Upload.status := status;
                                   Upload.total_rows := 0;
                                   Upload.valid_rows := 0;
                                   Upload.invalid_rows := 0 |} ];
                upload_rows := upload_rows (store w) |};
           upload_rows_id_seq := upload_rows_id_seq w |}).

(** [INSERT INTO upload_rows (upload_id, row_index, raw_address,
     service_type, customer_count, revenue_bucket) VALUES ($1, ..., $6)].
    A parameter that is no [INTEGER] is refused when it is bound; the id is
    the next value of the sequence, and the primary key refuses one that is
    taken.  The other columns take their defaults.  (The upload that
    [upload_id] references has just been inserted.) *)
Definition insert_upload_row (upload_id : string) (row_index : Z) (raw_address : string)
    (service_type : option string) (customer_count : parameter)
    (revenue_bucket : option string) : M unit := fun w =>
  match integer_of customer_count with
  | None => (Thrown, w)
  | Some count =>
      let id := (upload_rows_id_seq w + 1)%Z in
      if existsb (fun r => (Row.id r =? id)%Z) (upload_rows (store w))
      then (Thrown, {| store := store w; upload_rows_id_seq := id |})
      else (Returned tt,
            {| store :=
                 {| uploads := uploads (store w);
                    upload_rows := upload_rows (store w)
                                   ++ [ {| Row.id := id;
                                           Row.upload_id := upload_id;
                                           Row.row_index := row_index;
                                           Row.raw_address := raw_address;
                                           Row.service_type := service_type;
                                           Row.customer_count := count;
                                           Row.revenue_bucket := revenue_bucket;
                                           Row.geocode_status := GeocodeStatus.pending;
                                           Row.lat := None;
                                           Row.lng := None;
                                           Row.geocode_error := None |} ] |};
               upload_rows_id_seq := id |})
  end.

Definition set_counts (total valid invalid : Z) (u : Upload.t) : Upload.t :=
  {| Upload.id := Upload.id u;
     Upload.original_filename := Upload.original_filename u;
     Upload.status := Upload.status u;
     Upload.total_rows := total;
     Upload.valid_rows := valid;
     Upload.invalid_rows := invalid |}.

(** [UPDATE uploads SET total_rows = $1, valid_rows = $2, invalid_rows = $3
     WHERE id = $4] *)
Definition update_counts (total valid invalid : Z) (uploadId : string) : M unit := fun w =>
  (Returned tt,
   {| store :=
        {| uploads := sql_update (fun u => String.eqb (Upload.id u) uploadId)
                                 (set_counts total valid invalid) (uploads (store w));
           upload_rows := upload_rows (store w) |};
      upload_rows_id_seq := upload_rows_id_seq w |}).

(** [req.file.originalname.split('.').pop()?.toLowerCase()] *)
Definition fileExtension (originalname : string) : option string :=
  toLowerCase <$> last (split "." originalname).

(** [Object.keys(records[0]).includes(column)] *)
Definition has_column (first : record) (column : string) : bool :=
  bool_decide (is_Some (first !! column)).

(** [(row.column || '').trim()] *)
Definition trimmed (row : record) (column : string) : string :=
  trim (default EmptyString (row !! column)).

(** [row.column || null] *)
Definition or_null (row : record) (column : string) : option string :=
  match row !! column with
  | Some s => if String.eqb s EmptyString then None else Some s
  | None => None
  end.

(** [row.customer_count ? parseInt(row.customer_count) : null] *)
Definition customer_count (row : record) : parameter :=
  match or_null row "customer_count" with
  | Some s => Number (parseInt s)
  | None => Null
  end.

Definition nonempty (s : string) : bool := negb (String.eqb s EmptyString).

(** The [raw_address] built from a record. *)
Definition rawAddress (hasAddress : bool) (row : record) : string :=
  if hasAddress then trimmed row "address"
  else join ", " (List.filter nonempty
                    [trimmed row "street"; trimmed row "city"; trimmed row "postal"]).

(** The counters [validRows] and [invalidRows]. *)
Record tally := {
  validRows : Z;
  invalidRows : Z
}.

(** [for (let i = 0; i < records.length; i++)], from the record of index
    [i] on. *)
Fixpoint for_records (uploadId : string) (hasAddress : bool) (records : list record)
    (i : Z) (t : tally) : M tally :=
  match records with
  | [] => mret t
  | row :: rest =>
      if nonempty (rawAddress hasAddress row)
      then
        insert_upload_row uploadId (i + 1) (rawAddress hasAddress row)
          (or_null row "service_type") (customer_count row)
          (or_null row "revenue_bucket") ≫= fun _ =>
        for_records uploadId hasAddress rest (i + 1)
          {| validRows := validRows t + 1; invalidRows := invalidRows t |}
      else
        for_records uploadId hasAddress rest (i + 1)
          {| validRows := validRows t; invalidRows := invalidRows t + 1 |}
  end.

(** [try { ... } catch (error) { res.status(500) ... }] *)
Definition try_catch (body : M response) (w : world) : response * world :=
  match body w with
  | (Returned r, w') => (r, w')
  | (Thrown, w') => (InternalServerError, w')
  end.

Section Handler.

(** The parser of the file's text. *)
Variable parse : string -> parsed.

(** The id that [gen_random_uuid()] draws for the upload. *)
Variable uuid : string.

(** The part of the handler that writes to the store. *)
Definition store_records (originalname : string) (hasAddress : bool)
    (records : list record) : M response :=
  insert_upload uuid originalname UploadStatus.uploaded ≫= fun uploadId =>
  for_records uploadId hasAddress records 0 {| validRows := 0; invalidRows := 0 |} ≫= fun t =>
  update_counts (Z.of_nat (length records)) (validRows t) (invalidRows t) uploadId ≫= fun _ =>
  mret (Uploaded uploadId (Z.of_nat (length records)) (validRows t) (invalidRows t)).

(** The handler. *)
Definition upload (req_file : option file) : world -> response * world :=
  try_catch
    match req_file with
    | None => mret (BadRequest NoFile)
    | Some f =>
        if Resolver.strict_ne (fileExtension (originalname f)) (Some "csv")
        then mret (BadRequest NotCsv)
        else
          match parse (buffer f) with
          | ParseThrows message => mret (BadRequest (InvalidCsv message))
          | Records [] => mret (BadRequest EmptyCsv)
          | Records ((first :: _) as records) =>
              let hasAddress := has_column first "address" in
              let hasStreet := has_column first "street" in
              let hasCity := has_column first "city" in
              let hasPostal := has_column first "postal" in
              if negb hasAddress && (negb hasStreet || negb hasCity || negb hasPostal)
              then mret (BadRequest MissingColumns)
              else store_records (originalname f) hasAddress records
          end
    end.

End Handler.

End Intake.

(** ** The queries: [GET /api/uploads/:id] and [GET /api/uploads/:id/points] *)

Module Queries.

Inductive upload_response :=
| UploadNotFound   (* res.status(404).json({ error: 'Upload not found' }) *)
| UploadRow (id : string) (status : UploadStatus.t)
            (total_rows valid_rows invalid_rows : Z).

(** [SELECT id, status, total_rows, valid_rows, invalid_rows FROM uploads
     WHERE id = $1], answered with [result.rows[0]]. *)
Definition get_upload (uploadId : string) (d : db) : upload_response :=
  match List.filter (fun u => String.eqb (Upload.id u) uploadId) (uploads d) with
  | [] => UploadNotFound
  | u :: _ => UploadRow (Upload.id u) (Upload.status u) (Upload.total_rows u)
                        (Upload.valid_rows u) (Upload.invalid_rows u)
  end.

(** An element of the answer of the points query. *)
Record point := {
  id : Z;
  lat : Q;
  lng : Q
}.

(** [SELECT id, lat, lng ... WHERE upload_id = $1 AND geocode_status =
     'success' AND lat IS NOT NULL AND lng IS NOT NULL], with the
    [row_index] of the row; the driver reads a [DOUBLE PRECISION] with
    [parseFloat]. *)
Definition select_point (uploadId : string) (r : Row.t) : option (Z * point) :=
  if String.eqb (Row.upload_id r) uploadId
     && GeocodeStatus.eqb (Row.geocode_status r) GeocodeStatus.success
  then match Row.lat r, Row.lng r with
       | Some la, Some ln =>
           Some (Row.row_index r,
                 {| id := Row.id r; lat := parseFloat la; lng := parseFloat ln |})
       | _, _ => None
       end
  else None.

(** [ORDER BY row_index] *)
Definition by_row_index (a b : Z * point) : bool := (a.1 <=? b.1)%Z.

Definition get_points (uploadId : string) (d : db) : list point :=
  snd <$> order_by by_row_index (omap (select_point uploadId) (upload_rows d)).

End Queries.

(** ** The presentation layer ([App.jsx]) and the configuration *)

Module Client.

(** [radiusKm <= 1 ? 14 : radiusKm <= 2 ? 13 : 12] *)
Definition zoomLevel (radiusKm : Q) : Z :=
  if Qle_bool radiusKm 1 then 14%Z else if Qle_bool radiusKm 2 then 13%Z else 12%Z.

(** [envUrl.replace(/\/$/, '')]: a slash at the end of the text is
    removed, once. *)
Fixpoint strip_slash (s : string) : string :=
  match s with
  | String c EmptyString => if Ascii.eqb c "/"%char then EmptyString else s
  | String c rest => String c (strip_slash rest)
  | EmptyString => EmptyString
  end.

(** [getApiBaseUrl()], given [import.meta.env.VITE_API_URL]. *)
Definition getApiBaseUrl (envUrl : option string) : string :=
  if Resolver.truthy envUrl then strip_slash (Resolver.interpolate envUrl)
  else "http://localhost:3000".

End Client.

Module Config.

(** [parseInt(url.port) || 5432] *)
Definition port (url_port : string) : Z :=
  match Text.parseInt url_port with
  | Some p => if (p =? 0)%Z then 5432%Z else p
  | None => 5432%Z
  end.

End Config.

(** ** Vocabulary of the statements about the store *)

Module StoreSpec.

(** Every row of the upload that is marked [success] has coordinates. *)
Definition coordinates_when_success (uploadId : string) (rows : list Row.t) : Prop :=
  Forall (fun r => Spec.successfully_geocoded uploadId r = true ->
                   is_Some (Row.lat r) /\ is_Some (Row.lng r)) rows.

(** The constraints of [001_init.sql] that the handlers rely on, the
    sequence of the row ids, and the agreement of the status of a row with
    its coordinates. *)
Record sound (d : db) (seq : Z) : Prop := {
  sound_upload_ids : NoDup (Upload.id <$> uploads d);
  sound_row_ids : NoDup (Row.id <$> upload_rows d);
  sound_sequence : Forall (fun r => (Row.id r <= seq)%Z) (upload_rows d);
  sound_references :
    Forall (fun r => Row.upload_id r ∈ Upload.id <$> uploads d) (upload_rows d);
  sound_coordinates :
    Forall (fun r => Row.geocode_status r = GeocodeStatus.success
                     <-> is_Some (Row.lat r) /\ is_Some (Row.lng r))
           (upload_rows d)
}.

End StoreSpec.

(** Vocabulary of the statements about the report. *)
Module ReportSpec.

(** The text of a key: what [cell_id] prints. *)
Definition key_text (k : Z * Z) : string :=
  numeric2_text k.1 +:+ "," +:+ numeric2_text k.2.

End ReportSpec.


(** Vocabulary of the statements about a run of the pipeline. *)
Module RunSpec.
Import Resolver Pipeline.

(** The row as the resolver's answer leaves it. *)
Definition resolved (result : geocode_result) (r : Row.t) : Row.t :=
  match result with
  | Found la ln => Row.set_success la ln r
  | NotFound err => Row.set_failed err r
  end.

(** What a run makes of a row: a pending row of the upload takes the
    answer of the resolver for its address, any other row stays as it
    is. *)
Definition settle (geocodeAddress : string -> geocode_result) (uploadId : string)
    (r : Row.t) : Row.t :=
  if is_pending_of uploadId r then resolved (geocodeAddress (Row.raw_address r)) r else r.

(** The table after the write for one selected row. *)
Definition row_written (geocodeAddress : string -> geocode_result)
    (table : list Row.t) (row : Z * string) : list Row.t :=
  sql_update (fun r => (Row.id r =? row.1)%Z) (resolved (geocodeAddress row.2)) table.

(** The primary key of [upload_rows]. *)
Definition unique_row_ids (d : db) : Prop := NoDup (Row.id <$> upload_rows d).

(** The resolver calls and the pauses of a trace. *)
Definition pace (t : list event) : list event :=
  List.filter (fun e => match e with
                        | ResolverCalled _ _ | Delayed _ => true
                        | _ => false
                        end) t.

(** A list cut into pieces of [n] elements, the last one maybe shorter. *)
Fixpoint chunks_of {A} (fuel n : nat) (l : list A) : list (list A) :=
  match fuel with
  | O => []
  | S fuel =>
      match l with
      | [] => []
      | _ => take n l :: chunks_of fuel n (drop n l)
      end
  end.

Definition chunks {A} (n : nat) (l : list A) : list (list A) := chunks_of (length l) n l.

(** The calls for batch after batch, with a pause of 200 ms between two
    batches. *)
Fixpoint paced (batches : list (list (Z * string))) : list event :=
  match batches with
  | [] => []
  | [batch] => PipelineSpec.call_event <$> batch
  | batch :: rest => (PipelineSpec.call_event <$> batch) ++ Delayed 200 :: paced rest
  end.

End RunSpec.

(** Vocabulary of the statements about the intake. *)
Module IntakeSpec.
Import Text Intake.

(** A record with an address. *)
Definition valid (hasAddress : bool) (row : record) : bool :=
  nonempty (rawAddress hasAddress row).

(** A record whose [customer_count] the [INTEGER] column takes. *)
Definition storable (row : record) : bool :=
  match integer_of (customer_count row) with
  | Some _ => true
  | None => false
  end.

(** The row stored with the id [id] for the record at position [index],
    counted from 0. *)
Definition stored_row (uploadId : string) (hasAddress : bool) (id : Z) (index : nat)
    (row : record) : Row.t :=
  {| Row.id := id;
     Row.upload_id := uploadId;
     Row.row_index := Z.of_nat index + 1;
     Row.raw_address := rawAddress hasAddress row;
     Row.service_type := or_null row "service_type";
     Row.customer_count := default None (integer_of (customer_count row));
     Row.revenue_bucket := or_null row "revenue_bucket";
     Row.geocode_status := GeocodeStatus.pending;
     Row.lat := None;
     Row.lng := None;
     Row.geocode_error := None |}.

(** The records with an address, each with its position; the first
    record has position [from]. *)
Definition kept (hasAddress : bool) (from : nat) (records : list record)
  : list (nat * record) :=
  List.filter (fun p => valid hasAddress p.2)
              (imap (fun j row => ((from + j)%nat, row)) records).

(** The rows stored for the records when the sequence stands at [seq]. *)
Definition stored_rows (uploadId : string) (hasAddress : bool) (seq : Z) (from : nat)
    (records : list record) : list Row.t :=
  imap (fun k p => stored_row uploadId hasAddress (seq + 1 + Z.of_nat k) p.1 p.2)
       (kept hasAddress from records).

(** [hasAddress], as the handler reads it off the first record. *)
Definition hasAddress (records : list record) : bool :=
  match records with
  | first :: _ => has_column first "address"
  | [] => false
  end.

(** The file passes the checks of the handler: its name ends in [csv], it
    parses, it has a record, and the first record has the column
    [address] or the columns [street], [city] and [postal]. *)
Definition accepted (parse : string -> parsed) (f : file) (records : list record) : Prop :=
  fileExtension (originalname f) = Some "csv"
  /\ parse (buffer f) = Records records
  /\ exists first rest,
       records = first :: rest
       /\ (has_column first "address" = true
           \/ (has_column first "street" = true
               /\ has_column first "city" = true
               /\ has_column first "postal" = true)).

(** The upload as the intake leaves it. *)
Definition new_upload (uuid original_filename : string) (total valid invalid : Z)
  : Upload.t :=
  {| Upload.id := uuid;
     Upload.original_filename := original_filename;
     Upload.status := UploadStatus.uploaded;
     Upload.total_rows := total;
     Upload.valid_rows := valid;
     Upload.invalid_rows := invalid |}.

(** The id [uuid] is free, and no row has an id beyond the sequence. *)
Definition ready (uuid : string) (w : world) : Prop :=
  Forall (fun u => Upload.id u <> uuid) (uploads (store w))
  /\ Forall (fun r => (Row.id r <= upload_rows_id_seq w)%Z) (upload_rows (store w)).

(** Text that is not empty and has no white space at either end. *)
Definition tidy (s : string) : Prop := s <> EmptyString /\ trim s = s.

Definition count_of {A} (p : A -> bool) (l : list A) : Z :=
  Z.of_nat (length (List.filter p l)).

End IntakeSpec.

(** Sample data of the further properties. *)
Module Cases.

(** Two shops in one cell and one in the next, with their customers. *)
Definition three_shops : list Row.t :=
  [ Sample.located 1 (377741 # 10000) (-1224194 # 10000) (Some 10%Z);
    Sample.located 2 (377742 # 10000) (-1224194 # 10000) (Some 5%Z);
    Sample.located 3 (3779 # 100) (-12242 # 100) (Some 7%Z) ].

(** A file of three records; the second has no address, the third no
    count. *)
Definition shops_csv : Intake.file :=
  {| Intake.originalname := "north/shops.CSV";
     Intake.buffer := "address,customer_count; 1 Main St ,12; ,3;2 Oak Ave," |}.

Definition shops_records : list Intake.record :=
  [ {[ "address" := " 1 Main St "; "customer_count" := "12" ]};
    {[ "address" := "  "; "customer_count" := "3" ]};
    {[ "address" := "2 Oak Ave"; "customer_count" := EmptyString ]} ].

(** A file whose second record has a count that is no number. *)
Definition crowds_csv : Intake.file :=
  {| Intake.originalname := "crowds.csv";
     Intake.buffer := "street,city,postal,customer_count;1 Main St,Leeds,LS1,12;2 Oak Ave,Leeds,LS2,many;3 Elm Rd,Leeds,LS3,7" |}.

Definition crowds_first : Intake.record :=
  {[ "street" := "1 Main St"; "city" := "Leeds"; "postal" := "LS1";
     "customer_count" := "12" ]}.

Definition crowds_second : Intake.record :=
  {[ "street" := "2 Oak Ave"; "city" := "Leeds"; "postal" := "LS2";
     "customer_count" := "many" ]}.

Definition crowds_third : Intake.record :=
  {[ "street" := "3 Elm Rd"; "city" := "Leeds"; "postal" := "LS3";
     "customer_count" := "7" ]}.

(** A file that is no CSV file. *)
Definition notes_txt : Intake.file :=
  {| Intake.originalname := "notes.txt"; Intake.buffer := "address; 1 Main St" |}.

(** A parser that knows the two files, with [;] for the end of a line. *)
Definition reader (text : string) : Intake.parsed :=
  if String.eqb text (Intake.buffer shops_csv) then Intake.Records shops_records
  else if String.eqb text (Intake.buffer crowds_csv)
       then Intake.Records [crowds_first; crowds_second; crowds_third]
       else Intake.ParseThrows "Invalid Record Length".

Definition fresh : Intake.world :=
  {| Intake.store := {| uploads := []; upload_rows := [] |};
     Intake.upload_rows_id_seq := 0 |}.

(** The store after the intake of [shops_csv] as upload ["u7"]. *)
Definition shops_stored : Intake.world :=
  (Intake.upload reader "u7" (Some shops_csv) fresh).2.

End Cases.
(** * Properties *)

(** [simpl] unfolds the list instances of [<$>] and [omap]; this folds
    them back. *)
Ltac refold_fmap :=
  repeat match goal with
         | |- context [list_fmap ?A ?B ?f ?l] =>
             progress change (list_fmap A B f l) with (f <$> l)
         | |- context [list_omap ?A ?B ?f ?l] =>
             progress change (list_omap A B f l) with (omap f l)
         end.

(** ** Sorting and limits *)

Section OrderBy.
Context {A : Type} (le : A -> A -> bool).

Lemma insert_by_perm (x : A) (l : list A) : insert_by le x l ≡ₚ x :: l.
Proof.
  induction l as [|y ys IH]; simpl; [done|].
  destruct (le x y); [done|].
  rewrite IH. apply perm_swap.
Qed.

Lemma order_by_perm (l : list A) : order_by le l ≡ₚ l.
Proof.
  induction l as [|x xs IH]; simpl; [done|].
  unfold order_by in *. simpl. rewrite insert_by_perm. by rewrite IH.
Qed.

Lemma order_by_length (l : list A) : length (order_by le l) = length l.
Proof. by rewrite order_by_perm. Qed.

Lemma elem_of_take_order_by (n : nat) (x : A) (l : list A) :
  x ∈ take n (order_by le l) -> x ∈ l.
Proof.
  intros Hx. rewrite <- (order_by_perm l).
  by eapply (subseteq_take n (order_by le l)).
Qed.

Hypothesis le_total : forall a b, le a b = false -> le b a = true.
Hypothesis le_trans : forall a b c, le a b = true -> le b c = true -> le a c = true.

Lemma insert_by_sorted (x : A) (l : list A) :
  StronglySorted (fun a b => le a b = true) l ->
  StronglySorted (fun a b => le a b = true) (insert_by le x l).
Proof.
  induction 1 as [|y ys Hs IH Hy]; simpl.
  - repeat constructor.
  - destruct (le x y) eqn:Hxy.
    + constructor; [by constructor|].
      constructor; [done|].
      eapply Forall_impl; [exact Hy|]. intros z Hz. by eapply le_trans.
    + constructor; [done|].
      rewrite insert_by_perm. constructor; [by apply le_total|done].
Qed.

Lemma order_by_sorted (l : list A) :
  StronglySorted (fun a b => le a b = true) (order_by le l).
Proof.
  induction l as [|x xs IH]; [constructor|].
  by apply insert_by_sorted.
Qed.

End OrderBy.

Lemma StronglySorted_take {A} (R : A -> A -> Prop) (n : nat) (l : list A) :
  StronglySorted R l -> StronglySorted R (take n l).
Proof.
  intros Hs. revert n.
  induction Hs as [|x xs Hs IH Hx]; intros [|n]; simpl; try constructor.
  - apply IH.
  - eapply Forall_forall. intros y Hy.
    rewrite Forall_forall in Hx. apply Hx.
    by eapply (subseteq_take n xs).
Qed.

(** ** Decimal numerals are read back unambiguously *)

Module NumeralFacts.
Import Chars.

Lemma all_chars_app (P : ascii -> bool) (a b : string) :
  all_chars P (a +:+ b) = all_chars P a && all_chars P b.
Proof. induction a as [|c a IH]; simpl; [done|]. by rewrite IH, andb_assoc. Qed.

Lemma all_chars_impl (P Q : ascii -> bool) (s : string) :
  (forall c, P c = true -> Q c = true) -> all_chars P s = true -> all_chars Q s = true.
Proof.
  intros HPQ. induction s as [|c s IH]; simpl; [done|].
  rewrite !andb_true_iff. intros [? ?]. auto.
Qed.

Lemma pretty_N_char_digit (x : N) : is_digit (pretty_N_char x) = true.
Proof. unfold pretty_N_char. by repeat case_match. Qed.

Lemma pretty_N_go_digits (x : N) (s : string) :
  all_chars is_digit s = true -> all_chars is_digit (pretty_N_go x s) = true.
Proof.
  revert s. induction (N.lt_wf_0 x) as [x _ IH]; intros s Hs.
  destruct (decide (x = 0)%N) as [->|Hx]; [by rewrite pretty_N_go_0|].
  rewrite pretty_N_go_step by lia. apply IH.
  - apply N.div_lt; lia.
  - simpl. by rewrite pretty_N_char_digit, Hs.
Qed.

Lemma pretty_N_go_nonempty (x : N) (s : string) :
  s <> EmptyString -> pretty_N_go x s <> EmptyString.
Proof.
  revert s. induction (N.lt_wf_0 x) as [x _ IH]; intros s Hs.
  destruct (decide (x = 0)%N) as [->|Hx]; [by rewrite pretty_N_go_0|].
  rewrite pretty_N_go_step by lia. apply IH; [apply N.div_lt; lia|done].
Qed.

Lemma pretty_N_digits (x : N) :
  all_chars is_digit (pretty x) = true /\ pretty x <> EmptyString.
Proof.
  unfold pretty, pretty_N. case_decide; [done|].
  split; [by apply pretty_N_go_digits|].
  rewrite pretty_N_go_step by lia. by apply pretty_N_go_nonempty.
Qed.

Lemma pretty_Z_digits (z : Z) :
  (0 <= z)%Z -> all_chars is_digit (pretty z) = true /\ pretty z <> EmptyString.
Proof.
  intros Hz. destruct z as [|p|p]; [done| |lia].
  apply (pretty_N_digits (N.pos p)).
Qed.

Lemma digit_numeral (d : Z) : all_chars numeral_char (digit d) = true.
Proof.
  unfold digit. simpl. unfold numeral_char.
  by rewrite pretty_N_char_digit.
Qed.

Lemma hundredths_numeral (n : Z) :
  (0 <= n)%Z -> all_chars numeral_char (hundredths n) = true.
Proof.
  intros Hn. unfold hundredths. rewrite !all_chars_app, !digit_numeral.
  destruct (pretty_Z_digits (n / 100)) as [Hd _]; [by apply Z.div_pos|].
  rewrite (all_chars_impl is_digit numeral_char); [done| |done].
  intros c Hc. unfold numeral_char. by rewrite Hc.
Qed.

Lemma numeric2_text_numeral (k : Z) : all_chars numeral_char (numeric2_text k) = true.
Proof.
  unfold numeric2_text. rewrite all_chars_app, hundredths_numeral by lia.
  by destruct (k <? 0)%Z.
Qed.

Lemma length_append (a b : string) :
  String.length (a +:+ b) = (String.length a + String.length b)%nat.
Proof. induction a as [|c a IH]; simpl; [done|]. by rewrite IH. Qed.

Lemma app_inj_tail_length (a a' b b' : string) :
  String.length b = String.length b' -> a +:+ b = a' +:+ b' -> a = a' /\ b = b'.
Proof.
  intros Hlen. revert a'. induction a as [|c a IH]; intros [|c' a'] H.
  - done.
  - exfalso. apply (f_equal String.length) in H.
    rewrite !length_append in H. simpl in H. rewrite ?length_append in H. lia.
  - exfalso. apply (f_equal String.length) in H.
    rewrite !length_append in H. simpl in H. rewrite ?length_append in H. lia.
  - simpl in H. injection H as -> H. destruct (IH _ H) as [-> ->]. done.
Qed.

Lemma digit_inj (a b : Z) :
  (0 <= a < 10)%Z -> (0 <= b < 10)%Z -> digit a = digit b -> a = b.
Proof.
  intros Ha Hb [= H]. apply pretty_N_char_inj in H; lia.
Qed.

Lemma hundredths_inj (n m : Z) :
  (0 <= n)%Z -> (0 <= m)%Z -> hundredths n = hundredths m -> n = m.
Proof.
  intros Hn Hm H. unfold hundredths in H.
  apply app_inj_tail_length in H as [Hint Hfrac]; [|done].
  apply (inj pretty) in Hint.
  injection Hfrac as Hd1 Hd2.
  assert (H1 : ((n / 10) mod 10 = (m / 10) mod 10)%Z).
  { apply digit_inj; [apply Z.mod_pos_bound; lia..|]. unfold digit. by rewrite Hd1. }
  assert (H2 : (n mod 10 = m mod 10)%Z).
  { apply digit_inj; [apply Z.mod_pos_bound; lia..|]. unfold digit. by rewrite Hd2. }
  Z.div_mod_to_equations. lia.
Qed.

Lemma hundredths_no_sign (n : Z) (s : string) :
  (0 <= n)%Z -> hundredths n <> "-" +:+ s.
Proof.
  intros Hn H. unfold hundredths in H.
  destruct (pretty_Z_digits (n / 100)) as [Hd Hne]; [by apply Z.div_pos|].
  destruct (pretty (n / 100)%Z) as [|c rest]; [done|].
  simpl in H, Hd. injection H as -> _. done.
Qed.

Lemma numeric2_text_inj (k k' : Z) : numeric2_text k = numeric2_text k' -> k = k'.
Proof.
  unfold numeric2_text.
  destruct (k <? 0)%Z eqn:Hk, (k' <? 0)%Z eqn:Hk'; simpl; intros H;
    try apply Z.ltb_lt in Hk; try apply Z.ltb_lt in Hk';
    try apply Z.ltb_ge in Hk; try apply Z.ltb_ge in Hk'.
  - injection H as H. apply hundredths_inj in H; lia.
  - symmetry in H. by apply hundredths_no_sign in H; [|lia].
  - by apply hundredths_no_sign in H; [|lia].
  - apply hundredths_inj in H; lia.
Qed.

(** [a ++ "," ++ b] splits at its first comma when [a] is a numeral. *)
Lemma comma_split (a a' b b' : string) :
  all_chars numeral_char a = true -> all_chars numeral_char a' = true ->
  a +:+ "," +:+ b = a' +:+ "," +:+ b' -> a = a' /\ b = b'.
Proof.
  revert a'. induction a as [|c a IH]; intros [|c' a'] Ha Ha' H; simpl in *.
  - by injection H.
  - injection H as <- _. done.
  - injection H as -> _. done.
  - injection H as -> H.
    apply andb_true_iff in Ha as [_ Ha], Ha' as [_ Ha'].
    destruct (IH _ Ha Ha' H) as [-> ->]. done.
Qed.

Lemma cell_id_inj (c c' : Insights.grid_cell) :
  Insights.cell_id c = Insights.cell_id c' ->
  Insights.cell_lat c = Insights.cell_lat c' /\ Insights.cell_lng c = Insights.cell_lng c'.
Proof.
  unfold Insights.cell_id. intros H.
  apply comma_split in H as [H1 H2]; try apply numeric2_text_numeral.
  split; by apply numeric2_text_inj.
Qed.

End NumeralFacts.

(** ** The spatial aggregator *)

Module AggregatorFacts.
Import Insights Spec.
Local Open Scope Q_scope.

Lemma key_eqb_eq (a b : Z * Z) : key_eqb a b = true <-> a = b.
Proof.
  destruct a as [a1 a2], b as [b1 b2]. unfold key_eqb. simpl.
  rewrite andb_true_iff, !Z.eqb_eq. split; [intros [-> ->]|intros [= -> ->]]; done.
Qed.

Lemma key_eqb_neq (a b : Z * Z) : key_eqb a b = false <-> a <> b.
Proof.
  rewrite <- key_eqb_eq. destruct (key_eqb a b); split; congruence.
Qed.

Lemma Qsum_snoc (l : list Q) (x : Q) : Qsum (l ++ [x]) == Qsum l + x.
Proof.
  induction l as [|y ys IH]; simpl; [ring|]. rewrite IH. ring.
Qed.

Lemma Zsum_snoc (l : list Z) (x : Z) : Zsum (l ++ [x]) = (Zsum l + x)%Z.
Proof. induction l as [|y ys IH]; simpl; lia. Qed.

Lemma Zsum_app (l1 l2 : list Z) : Zsum (l1 ++ l2) = (Zsum l1 + Zsum l2)%Z.
Proof. induction l1 as [|y ys IH]; simpl; lia. Qed.

Lemma members_snoc (k : Z * Z) (pts : list point) (p : point) :
  members k (pts ++ [p]) =
  members k pts ++ (if key_eqb (cell_key p) k then [p] else []).
Proof. unfold members. by rewrite List.filter_app. Qed.

Lemma sum_step_default (s v : option Z) :
  default 0%Z (sum_step s v) = (default 0%Z s + default 0%Z v)%Z.
Proof. destruct s, v; simpl; lia. Qed.

Lemma summarises_open (p : point) (pts : list point) :
  members (cell_key p) pts = [] -> summarises (pts ++ [p]) (open_group p).
Proof.
  intros Hnone.
  assert (Hm : members (cell_key p) (pts ++ [p]) = [p]).
  { rewrite members_snoc, Hnone.
    by rewrite (proj2 (key_eqb_eq _ _) eq_refl). }
  split; simpl; rewrite Hm; simpl; try done; try ring.
  unfold customers. destruct (p_customers p); simpl; lia.
Qed.

Lemma summarises_advance (p : point) (pts : list point) (g : group) :
  g_key g = cell_key p -> summarises pts g -> summarises (pts ++ [p]) (advance g p).
Proof.
  intros Hk [Hne Hc Hla Hln Hcu].
  assert (Hm : members (g_key g) (pts ++ [p]) = members (g_key g) pts ++ [p]).
  { rewrite members_snoc, Hk.
    by rewrite (proj2 (key_eqb_eq _ _) eq_refl). }
  split; simpl; rewrite Hm.
  - by destruct (members (g_key g) pts).
  - rewrite length_app. simpl. lia.
  - rewrite fmap_app. simpl. rewrite Qsum_snoc. by rewrite Hla.
  - rewrite fmap_app. simpl. rewrite Qsum_snoc. by rewrite Hln.
  - rewrite fmap_app. simpl. rewrite Zsum_snoc, sum_step_default, Hcu. done.
Qed.

Lemma summarises_other (p : point) (pts : list point) (g : group) :
  g_key g <> cell_key p -> summarises pts g -> summarises (pts ++ [p]) g.
Proof.
  intros Hk [Hne Hc Hla Hln Hcu].
  assert (Hm : members (g_key g) (pts ++ [p]) = members (g_key g) pts).
  { rewrite members_snoc.
    rewrite (proj2 (key_eqb_neq (cell_key p) (g_key g))) by congruence.
    by rewrite app_nil_r. }
  split; rewrite Hm; done.
Qed.

Lemma touch_absent (p : point) (groups : list group) :
  cell_key p ∉ g_key <$> groups -> touch p <$> groups = groups.
Proof.
  induction groups as [|g gs IH]; simpl; [done|].
  rewrite not_elem_of_cons. intros [Hg Hgs].
  unfold touch at 1.
  rewrite (proj2 (key_eqb_neq (g_key g) (cell_key p))) by congruence.
  f_equal. by apply IH.
Qed.

(** With one group per key, [add_point] advances the group of the point,
    or opens one at the end. *)
Lemma add_point_unfold (p : point) (groups : list group) :
  NoDup (g_key <$> groups) ->
  add_point p groups =
  if bool_decide (cell_key p ∈ g_key <$> groups)
  then touch p <$> groups else groups ++ [open_group p].
Proof.
  induction groups as [|g gs IH]; intros Hnd.
  - rewrite bool_decide_eq_false_2; [done|]. apply not_elem_of_nil.
  - rewrite fmap_cons in *. simpl add_point. rewrite fmap_cons.
    apply NoDup_cons in Hnd as [Hg Hgs]. unfold touch at 1.
    destruct (key_eqb (g_key g) (cell_key p)) eqn:Hk.
    + apply key_eqb_eq in Hk.
      rewrite bool_decide_eq_true_2 by (rewrite Hk; apply elem_of_cons; auto).
      rewrite touch_absent; [done|]. by rewrite <- Hk.
    + apply key_eqb_neq in Hk. rewrite (IH Hgs).
      destruct (bool_decide (cell_key p ∈ g_key <$> gs)) eqn:Hin.
      * apply bool_decide_eq_true in Hin.
        rewrite bool_decide_eq_true_2; [done|]. apply elem_of_cons; auto.
      * apply bool_decide_eq_false in Hin.
        rewrite bool_decide_eq_false_2; [done|].
        rewrite elem_of_cons. intros [?|?]; congruence.
Qed.

Lemma touch_key (p : point) (g : group) : g_key (touch p g) = g_key g.
Proof. unfold touch. by destruct (key_eqb _ _). Qed.

Lemma grouped_nil : grouped [] [].
Proof.
  split; simpl.
  - constructor.
  - intros q Hq. by apply elem_of_nil in Hq.
  - constructor.
Qed.

Lemma grouped_add (p : point) (pts : list point) (groups : list group) :
  grouped pts groups -> grouped (pts ++ [p]) (add_point p groups).
Proof.
  intros [Hnd Hcov Hsum].
  rewrite (add_point_unfold p groups Hnd).
  destruct (bool_decide (cell_key p ∈ g_key <$> groups)) eqn:Hin.
  - apply bool_decide_eq_true in Hin.
    assert (Hkeys : g_key <$> (touch p <$> groups) = g_key <$> groups).
    { rewrite <- list_fmap_compose. apply list_fmap_ext. intros _ g _.
      simpl. apply touch_key. }
    split.
    + by rewrite Hkeys.
    + intros q Hq. rewrite Hkeys.
      apply elem_of_app in Hq as [Hq|Hq]; [by apply Hcov|].
      apply list_elem_of_singleton in Hq. by subst.
    + rewrite Forall_fmap. eapply Forall_impl; [exact Hsum|].
      intros g Hg. simpl. unfold touch.
      destruct (key_eqb (g_key g) (cell_key p)) eqn:Hk.
      * apply key_eqb_eq in Hk. by apply summarises_advance.
      * apply key_eqb_neq in Hk. by apply summarises_other.
  - apply bool_decide_eq_false in Hin.
    split.
    + rewrite fmap_app. simpl. apply NoDup_app. split; [done|].
      split; [|apply NoDup_singleton].
      intros k Hk Hk'. apply list_elem_of_singleton in Hk'. by subst.
    + intros q Hq. rewrite fmap_app. simpl.
      apply elem_of_app in Hq as [Hq|Hq].
      * apply elem_of_app. left. by apply Hcov.
      * apply list_elem_of_singleton in Hq. subst.
        apply elem_of_app. right. by apply list_elem_of_singleton.
    + apply Forall_app. split.
      * eapply Forall_forall. intros g Hg.
        apply summarises_other.
        -- intros Heq. apply Hin. rewrite <- Heq. by apply list_elem_of_fmap_2.
        -- rewrite Forall_forall in Hsum. by apply Hsum.
      * constructor; [|constructor]. apply summarises_open.
        destruct (members (cell_key p) pts) as [|q qs] eqn:Hm; [done|].
        assert (Hq : q ∈ members (cell_key p) pts) by (rewrite Hm; left).
        unfold members in Hq.
        apply list_elem_of_In, List.filter_In in Hq as [Hq Hk].
        apply key_eqb_eq in Hk. apply list_elem_of_In, Hcov in Hq.
        rewrite Hk in Hq. done.
Qed.

Lemma grouped_foldl (pts2 pts1 : list point) (groups : list group) :
  grouped pts1 groups ->
  grouped (pts1 ++ pts2) (foldl (fun gs p => add_point p gs) groups pts2).
Proof.
  revert pts1 groups.
  induction pts2 as [|p ps IH]; intros pts1 groups H; simpl.
  - by rewrite app_nil_r.
  - replace (pts1 ++ p :: ps) with ((pts1 ++ [p]) ++ ps)
      by (by rewrite <- app_assoc).
    apply IH. by apply grouped_add.
Qed.

Lemma group_by_cell_grouped (pts : list point) : grouped pts (group_by_cell pts).
Proof. apply (grouped_foldl pts [] []). apply grouped_nil. Qed.

Lemma grid_cells_keys (uploadId : string) (rows : list Row.t) :
  key_of <$> grid_cells uploadId rows =
  g_key <$> group_by_cell (successful_rows uploadId rows).
Proof.
  unfold grid_cells. rewrite <- list_fmap_compose.
  apply list_fmap_ext. intros _ g _. simpl. unfold key_of. simpl. by destruct (g_key g).
Qed.

Lemma elem_of_members (k : Z * Z) (pts : list point) (p : point) :
  p ∈ members k pts <-> p ∈ pts /\ cell_key p = k.
Proof.
  unfold members. by rewrite !list_elem_of_In, List.filter_In, key_eqb_eq.
Qed.

(** What a cell of the aggregation says about its members. *)
Lemma grid_cell_members (uploadId : string) (rows : list Row.t) (c : grid_cell) :
  c ∈ grid_cells uploadId rows ->
  let ms := members (key_of c) (successful_rows uploadId rows) in
  ms <> [] /\ count c = length ms
  /\ center_lat c == mean (p_lat <$> ms)
  /\ center_lng c == mean (p_lng <$> ms)
  /\ total_customers c = Zsum (customers <$> ms).
Proof.
  intros Hc. unfold grid_cells in Hc.
  apply list_elem_of_fmap in Hc as (g & -> & Hg).
  destruct (group_by_cell_grouped (successful_rows uploadId rows)) as [_ _ Hs].
  rewrite Forall_forall in Hs. destruct (Hs g Hg) as [Hne Hn Hla Hln Hcu].
  assert (Hk : key_of (finish g) = g_key g) by (unfold key_of; simpl; by destruct (g_key g)).
  simpl. rewrite Hk. unfold mean. rewrite !length_fmap, <- Hn.
  repeat split; try done.
  - by rewrite Hla.
  - by rewrite Hln.
Qed.

Lemma grid_cell_count_pos (uploadId : string) (rows : list Row.t) (c : grid_cell) :
  c ∈ grid_cells uploadId rows -> (1 <= count c)%nat.
Proof.
  intros Hc. destruct (grid_cell_members uploadId rows c Hc) as (Hne & Hn & _).
  rewrite Hn. destruct (members _ _); [done|simpl; lia].
Qed.

End AggregatorFacts.

(** ** Claims about the aggregator *)

Section AggregatorClaims.
Import Insights Spec AggregatorFacts.
Local Open Scope Q_scope.



End AggregatorClaims.

(** ** The whitespace query and the report *)

Module EngineFacts.
Import Insights Spec AggregatorFacts.
Local Open Scope Q_scope.

Section WithProvider.
Variable ST_Distance : Q * Q -> Q * Q -> Q.
Variable provider : Q -> Q -> Resolver.fetched.

Lemma label_all_length (centers : list center) (st : labeler) :
  length (label_all provider centers st).1 = length centers.
Proof. unfold label_all. simpl. by rewrite length_fmap. Qed.

Lemma Qle_bool_false (a b : Q) : Qle_bool a b = false -> b < a.
Proof.
  intros H. apply Qnot_le_lt. intros Hle. apply Qle_bool_iff in Hle. congruence.
Qed.

Lemma Qmin_lower_l (a b : Q) : Qmin a b <= a.
Proof.
  unfold Qmin. destruct (Qle_bool a b) eqn:H; [apply Qle_refl|].
  apply Qlt_le_weak. by apply Qle_bool_false.
Qed.

Lemma Qmin_lower_r (a b : Q) : Qmin a b <= b.
Proof.
  unfold Qmin. destruct (Qle_bool a b) eqn:H; [by apply Qle_bool_iff|apply Qle_refl].
Qed.

Lemma Qmin_cases (a b : Q) : Qmin a b = a \/ Qmin a b = b.
Proof. unfold Qmin. destruct (Qle_bool a b); auto. Qed.

Lemma foldl_Qmin (l : list Q) (x : Q) :
  (foldl Qmin x l = x \/ foldl Qmin x l ∈ l)
  /\ foldl Qmin x l <= x /\ (forall y, y ∈ l -> foldl Qmin x l <= y).
Proof.
  revert x. induction l as [|z zs IH]; intros x; simpl.
  - split; [by left|]. split; [apply Qle_refl|]. intros y Hy. by apply elem_of_nil in Hy.
  - destruct (IH (Qmin x z)) as (Hin & Hle & Hall).
    split; [|split].
    + destruct Hin as [Hin|Hin].
      * rewrite Hin. destruct (Qmin_cases x z) as [-> | ->].
        -- by left.
        -- right. by left.
      * right. by right.
    + eapply Qle_trans; [exact Hle|apply Qmin_lower_l].
    + intros y Hy. apply elem_of_cons in Hy as [->|Hy].
      * eapply Qle_trans; [exact Hle|apply Qmin_lower_r].
      * by apply Hall.
Qed.

Lemma sql_min_spec (l : list Q) (d : Q) :
  sql_min l = Some d -> d ∈ l /\ (forall y, y ∈ l -> d <= y).
Proof.
  destruct l as [|x xs]; simpl; [done|]. intros [= <-].
  destruct (foldl_Qmin xs x) as (Hin & Hle & Hall). split.
  - destruct Hin as [->|Hin]; [by left|by right].
  - intros y Hy. apply elem_of_cons in Hy as [->|Hy]; [done|by apply Hall].
Qed.

Lemma is_dense_false (dense : list grid_cell) (c : grid_cell) :
  is_dense dense c = false -> key_of c ∉ (key_of <$> dense).
Proof.
  intros H Hin. apply list_elem_of_fmap in Hin as (dc & Hk & Hdc).
  assert (Ht : is_dense dense c = true); [|congruence].
  unfold is_dense. apply existsb_exists. exists dc.
  split; [by apply list_elem_of_In|].
  apply key_eqb_eq. unfold key_of in Hk. congruence.
Qed.

(** What the CTE [whitespace_candidates] keeps. *)
Lemma whitespace_candidate_spec (dense : list grid_cell) (c : grid_cell) (r : candidate) :
  whitespace_candidate ST_Distance dense c = Some r ->
  cand_cell r = c /\ (count c <= 1)%nat /\ (key_of c ∉ (key_of <$> dense))
  /\ nearest ST_Distance c dense (cand_distance_km r) /\ cand_distance_km r <= 3.
Proof.
  unfold whitespace_candidate.
  destruct (count c <=? 1)%nat eqn:Hc; simpl; [|done].
  destruct (is_dense dense c) eqn:Hd; simpl; [done|].
  destruct (sql_min _) as [d|] eqn:Hmin; [|done].
  destruct (Qle_bool d 3) eqn:Hle; [|done].
  intros [= <-]. simpl.
  apply sql_min_spec in Hmin as [Hin Hall].
  split; [done|]. split; [by apply Nat.leb_le|].
  split; [by apply is_dense_false|]. split; [|by apply Qle_bool_iff].
  split.
  - apply list_elem_of_fmap in Hin as (dc & -> & Hdc). by exists dc.
  - intros dc Hdc. apply Hall. by apply list_elem_of_fmap_2.
Qed.

Lemma whiteSpaceResult_kept (uploadId : string) (rows : list Row.t) :
  Forall (kept ST_Distance uploadId rows) (whiteSpaceResult ST_Distance uploadId rows).
Proof.
  apply Forall_forall. intros r Hr.
  unfold whiteSpaceResult in Hr. apply elem_of_take_order_by in Hr.
  unfold whitespace_candidates in Hr.
  apply list_elem_of_omap in Hr as (c & Hc & Hr).
  apply whitespace_candidate_spec in Hr as (<- & ? & ? & ? & ?).
  unfold kept. by split_and!.
Qed.

Lemma distance_asc_total (a b : candidate) :
  distance_asc a b = false -> distance_asc b a = true.
Proof.
  unfold distance_asc. intros H. apply Qle_bool_false in H.
  apply Qle_bool_iff. by apply Qlt_le_weak.
Qed.

Lemma distance_asc_trans (a b c : candidate) :
  distance_asc a b = true -> distance_asc b c = true -> distance_asc a c = true.
Proof.
  unfold distance_asc. rewrite !Qle_bool_iff. apply Qle_trans.
Qed.

Lemma StronglySorted_fmap {A B} (R : A -> A -> Prop) (S : B -> B -> Prop)
    (f : A -> B) (l : list A) :
  (forall a b, R a b -> S (f a) (f b)) ->
  StronglySorted R l -> StronglySorted S (f <$> l).
Proof.
  intros HRS. induction 1 as [|x xs Hs IH Hx]; simpl; constructor; [done|].
  apply Forall_fmap. eapply Forall_impl; [exact Hx|]. intros y. apply HRS.
Qed.

Lemma whiteSpaceResult_sorted (uploadId : string) (rows : list Row.t) :
  StronglySorted Qle (cand_distance_km <$> whiteSpaceResult ST_Distance uploadId rows).
Proof.
  unfold whiteSpaceResult.
  eapply (StronglySorted_fmap (fun a b => distance_asc a b = true)).
  { intros a b H. by apply Qle_bool_iff. }
  apply StronglySorted_take, order_by_sorted.
  - apply distance_asc_total.
  - apply distance_asc_trans.
Qed.

Lemma whiteSpaceResult_length (uploadId : string) (rows : list Row.t) :
  (length (whiteSpaceResult ST_Distance uploadId rows) <= 3)%nat.
Proof. unfold whiteSpaceResult. rewrite length_take. lia. Qed.

Lemma whitespace_candidates_no_dense (all_cells : list grid_cell) :
  whitespace_candidates ST_Distance all_cells [] = [].
Proof.
  induction all_cells as [|c cs IH]; [done|].
  unfold whitespace_candidates in *. cbn [omap list_omap].
  fold (omap (whitespace_candidate ST_Distance []) cs). rewrite IH.
  unfold whitespace_candidate. simpl. by destruct (_ && _).
Qed.

Lemma Forall2_zip_with_shows (rs : list candidate) (labels : list string) :
  length labels = length rs ->
  Forall2 shows (zip_with white_space_area rs labels) rs.
Proof.
  revert labels. induction rs as [|r rs IH]; intros [|l ls] Hlen; simpl in *;
    try done; try constructor.
  - by repeat split.
  - apply IH. lia.
Qed.

(** The whitespace areas of the report are the rows of the whitespace
    query, in its order. *)
Lemma insights_white_space (uploadId : string) (rows : list Row.t) :
  Forall2 shows
    (whiteSpaceAreas (insights ST_Distance provider uploadId rows).1)
    (whiteSpaceResult ST_Distance uploadId rows).
Proof.
  unfold insights.
  destruct (label_all provider (center_of <$> denseAreasResult uploadId rows) _)
    as [denseLabels st1] eqn:Hd.
  assert (Hlen : length denseLabels = length (denseAreasResult uploadId rows)).
  { replace denseLabels with (denseLabels, st1).1 by done.
    rewrite <- Hd, label_all_length. by rewrite length_fmap. }
  destruct (0 <? length _)%nat eqn:Hpos.
  - destruct (label_all provider _ st1) as [whiteLabels st2] eqn:Hw. simpl.
    apply Forall2_zip_with_shows.
    replace whiteLabels with (whiteLabels, st2).1 by done.
    rewrite <- Hw, label_all_length. by rewrite length_fmap.
  - simpl. apply Nat.ltb_ge in Hpos. rewrite length_zip_with in Hpos.
    assert (Hnil : denseAreasResult uploadId rows = []).
    { rewrite Hlen, Nat.min_id in Hpos.
      destruct (denseAreasResult uploadId rows); [done|]. simpl in Hpos. lia. }
    unfold whiteSpaceResult. rewrite Hnil, whitespace_candidates_no_dense.
    constructor.
Qed.

End WithProvider.
End EngineFacts.

(** ** Claims about the whitespace areas *)

Section WhitespaceClaims.
Import Insights Spec AggregatorFacts EngineFacts NumeralFacts.
Local Open Scope Q_scope.

Variable ST_Distance : Q * Q -> Q * Q -> Q.
Variable provider : Q -> Q -> Resolver.fetched.

Lemma insights_top_dense (uploadId : string) (rows : list Row.t) :
  DenseArea.cellId <$> topDenseAreas (insights ST_Distance provider uploadId rows).1
  = cell_id <$> denseAreasResult uploadId rows.
Proof.
  unfold insights.
  destruct (label_all provider (center_of <$> denseAreasResult uploadId rows) _)
    as [denseLabels st1] eqn:Hd.
  assert (Hlen : length denseLabels = length (denseAreasResult uploadId rows)).
  { replace denseLabels with (denseLabels, st1).1 by done.
    rewrite <- Hd, label_all_length. by rewrite length_fmap. }
  assert (Hids : DenseArea.cellId <$> zip_with dense_area (denseAreasResult uploadId rows) denseLabels
                 = cell_id <$> denseAreasResult uploadId rows).
  { clear Hd. revert denseLabels Hlen.
    induction (denseAreasResult uploadId rows) as [|c cs IH]; intros [|l ls] Hlen;
      simpl in *; try done.
    f_equal. apply IH. lia. }
  destruct (0 <? length _)%nat; [destruct (label_all provider _ st1)|]; simpl; exact Hids.
Qed.


(** C9.  A cell of the aggregation has at least one point, so every
    whitespace area of a report has [count] 1. *)
Theorem white_space_areas_have_one_point (uploadId : string) (rows : list Row.t) :
  Forall (fun c => (1 <= count c)%nat) (grid_cells uploadId rows)
  /\ Forall (fun a => WhiteSpaceArea.count a = 1%Z)
            (whiteSpaceAreas (insights ST_Distance provider uploadId rows).1).
Proof.
  split.
  - apply Forall_forall. intros c. apply grid_cell_count_pos.
  - pose proof (insights_white_space ST_Distance provider uploadId rows) as Hshow.
    pose proof (whiteSpaceResult_kept ST_Distance uploadId rows) as Hkept.
    apply Forall_forall. intros a Ha.
    apply list_elem_of_lookup in Ha as [i Ha].
    destruct (Forall2_lookup_l _ _ _ _ _ Hshow Ha) as (r & Hr & Hs).
    apply list_elem_of_lookup_2 in Hr.
    rewrite Forall_forall in Hkept. destruct (Hkept r Hr) as (Hcell & Hle & _).
    apply grid_cell_count_pos in Hcell.
    destruct Hs as (_ & -> & _). lia.
Qed.

End WhitespaceClaims.


Lemma white_space_count_town_witness :
  length (Insights.whiteSpaceAreas
            (Insights.insights Sample.taxicab Sample.unreachable "u1" Sample.town).1) = 3%nat
  /\ Forall (fun a => Insights.WhiteSpaceArea.count a = 1%Z)
       (Insights.whiteSpaceAreas
          (Insights.insights Sample.taxicab Sample.unreachable "u1" Sample.town).1).
Proof.
  split; [vm_compute; reflexivity|].
  apply (white_space_areas_have_one_point Sample.taxicab Sample.unreachable "u1" Sample.town).
Defined.

(** ** Binary64 rounding *)

Module FloatFacts.
Import Num.
Local Open Scope Q_scope.

Lemma pow2_pos (s : Z) : 0 < pow2 s.
Proof. apply Qpower_0_lt. reflexivity. Qed.

Lemma pow2_add (a b : Z) : pow2 (a + b) == pow2 a * pow2 b.
Proof. apply Qpower_plus. discriminate. Qed.

Lemma pow2_cancel (s : Z) : pow2 s * pow2 (- s) == 1.
Proof. rewrite <- pow2_add, Z.add_opp_diag_r. reflexivity. Qed.

Lemma pow2_Z (n : Z) : (0 <= n)%Z -> pow2 n == inject_Z (2 ^ n).
Proof. intros Hn. unfold pow2. by rewrite (Zpower_Qpower 2 n Hn). Qed.

Lemma pow2_le (a b : Z) : (a <= b)%Z -> pow2 a <= pow2 b.
Proof. intros Hab. apply Qpower_le_compat_l; [done|]. discriminate. Qed.

Lemma pow2_succ (a : Z) : pow2 (a + 1) == 2 * pow2 a.
Proof. rewrite pow2_add. unfold pow2 at 2. simpl. ring. Qed.

(** The rounded integer is within one half of its argument and does not
    cross an integer. *)
Lemma round_half_even_error (x : Q) :
  Qabs (inject_Z (round_half_even x) - x) <= 1 # 2.
Proof.
  unfold round_half_even.
  pose proof (Qfloor_le x) as Hlo. pose proof (Qlt_floor x) as Hhi.
  rewrite inject_Z_plus in Hhi. change (inject_Z 1) with 1 in Hhi.
  apply Qabs_Qle_condition.
  destruct (Qcompare_spec (x - inject_Z (Qfloor x)) (1 # 2)) as [H|H|H].
  - destruct (Z.even (Qfloor x)); rewrite ?inject_Z_plus;
      change (inject_Z 1) with 1; split; lra.
  - split; lra.
  - rewrite inject_Z_plus. change (inject_Z 1) with 1. split; lra.
Qed.

Lemma round_half_even_le (x : Q) (N : Z) :
  x <= inject_Z N -> (round_half_even x <= N)%Z.
Proof.
  intros Hx. unfold round_half_even.
  pose proof (Qfloor_le x) as Hlo.
  assert (Hf : (Qfloor x <= N)%Z).
  { rewrite Zle_Qle. lra. }
  destruct (Qcompare_spec (x - inject_Z (Qfloor x)) (1 # 2)) as [H|H|H]; [|done|].
  - destruct (Z.even (Qfloor x)); [done|].
    destruct (decide (Qfloor x = N)) as [Heq|Hne]; [|lia].
    rewrite Heq in H. lra.
  - destruct (decide (Qfloor x = N)) as [Heq|Hne]; [|lia].
    rewrite Heq in H. lra.
Qed.

Lemma round_half_even_ge (x : Q) (N : Z) :
  inject_Z N <= x -> (N <= round_half_even x)%Z.
Proof.
  intros Hx. unfold round_half_even.
  assert (Hf : (N <= Qfloor x)%Z).
  { rewrite <- (Qfloor_Z N). by apply Qfloor_resp_le. }
  destruct (Qcompare _ _); [destruct (Z.even _)| |]; lia.
Qed.

(** [ilog2] is the binary exponent. *)
Lemma ilog2_spec (q : Q) :
  0 < q -> pow2 (ilog2 q) <= q /\ q < pow2 (ilog2 q + 1).
Proof.
  intros Hq. destruct q as [n d]. unfold ilog2. simpl Qnum. simpl Qden.
  assert (Hn : (0 < n)%Z).
  { unfold Qlt in Hq. simpl in Hq. lia. }
  set (a := Z.log2 n). set (b := Z.log2 (Z.pos d)).
  assert (Ha : (0 <= a)%Z) by apply Z.log2_nonneg.
  assert (Hb : (0 <= b)%Z) by apply Z.log2_nonneg.
  destruct (Z.log2_spec n Hn) as [Ha1 Ha2]. fold a in Ha1, Ha2.
  destruct (Z.log2_spec (Z.pos d) eq_refl) as [Hb1 Hb2]. fold b in Hb1, Hb2.
  assert (Hpa : (0 < 2 ^ a)%Z) by (apply Z.pow_pos_nonneg; lia).
  assert (Hpb : (0 < 2 ^ b)%Z) by (apply Z.pow_pos_nonneg; lia).
  rewrite !Z.pow_succ_r in * by lia.
  (* n/d lies strictly between 2^(a-b-1) and 2^(a-b+1) *)
  assert (Hlow : pow2 (a - b - 1) <= n # d).
  { assert (E : pow2 (a - b - 1) * (pow2 b * 2) == pow2 a).
    { assert (E2 : pow2 b * 2 == pow2 (b + 1)) by (rewrite pow2_succ; ring).
      rewrite E2, <- pow2_add. by replace (a - b - 1 + (b + 1))%Z with a by lia. }
    apply (Qmult_le_r _ _ (pow2 b * 2)).
    { pose proof (pow2_pos b). lra. }
    rewrite E, !pow2_Z by lia.
    unfold Qle, Qmult. simpl. nia. }
  assert (Hhigh : n # d < pow2 (a - b + 1)).
  { assert (E : pow2 (a - b + 1) * pow2 b == pow2 a * 2).
    { rewrite <- pow2_add. replace (a - b + 1 + b)%Z with (a + 1)%Z by lia.
      rewrite pow2_succ. ring. }
    apply (Qmult_lt_r _ _ (pow2 b)); [apply pow2_pos|].
    rewrite E, !pow2_Z by lia.
    unfold Qlt, Qmult. simpl. nia. }
  destruct (Qle_bool (pow2 (a - b)) (n # d)) eqn:Hc.
  - apply Qle_bool_iff in Hc. done.
  - split; [done|].
    replace (a - b - 1 + 1)%Z with (a - b)%Z by lia.
    apply Qnot_le_lt. intros Hle. apply Qle_bool_iff in Hle. congruence.
Qed.

(** The rounding error of a positive number: half a unit in the last
    place. *)
Lemma binary64_pos_error (q : Q) :
  0 < q ->
  Qabs (binary64_pos q - q) <= pow2 (- Z.min (52 - ilog2 q) 1074) * (1 # 2).
Proof.
  intros Hq. unfold binary64_pos.
  set (s := Z.min (52 - ilog2 q) 1074).
  pose proof (round_half_even_error (q * pow2 s)) as Hr.
  pose proof (pow2_pos (- s)) as Hp.
  assert (E : inject_Z (round_half_even (q * pow2 s)) * pow2 (- s) - q
              == (inject_Z (round_half_even (q * pow2 s)) - q * pow2 s) * pow2 (- s)).
  { rewrite <- (Qmult_1_r q) at 2. rewrite <- (pow2_cancel s). ring. }
  rewrite E, Qabs_Qmult, (Qabs_pos (pow2 (- s))) by lra.
  rewrite (Qmult_comm (pow2 (- s))).
  apply Qmult_le_compat_r; lra.
Qed.

(** Unit roundoff and the smallest half-spacing of binary64. *)
Lemma binary64_pos_error_bound (q : Q) :
  0 < q -> Qabs (binary64_pos q - q) <= q * pow2 (-53) + pow2 (-1075).
Proof.
  intros Hq. eapply Qle_trans; [by apply binary64_pos_error|].
  destruct (ilog2_spec q Hq) as [Hlo _].
  pose proof (pow2_pos (-53)) as H53. pose proof (pow2_pos (-1075)) as H1075.
  destruct (Z.min_spec (52 - ilog2 q) 1074) as [[_ ->]|[_ ->]].
  - assert (E : pow2 (- (52 - ilog2 q)) * (1 # 2) == pow2 (ilog2 q) * pow2 (-53)).
    { replace (- (52 - ilog2 q))%Z with (ilog2 q + -53 + 1)%Z by lia.
      rewrite pow2_succ, pow2_add. ring. }
    rewrite E.
    assert (pow2 (ilog2 q) * pow2 (-53) <= q * pow2 (-53))
      by (apply Qmult_le_compat_r; lra).
    lra.
  - assert (E : pow2 (-1074) * (1 # 2) == pow2 (-1075)).
    { replace (-1074)%Z with (-1075 + 1)%Z by lia. rewrite pow2_succ. ring. }
    rewrite E.
    assert (0 <= q * pow2 (-53)) by (apply Qmult_le_0_compat; lra).
    lra.
Qed.

Lemma binary64_of_pos (q : Q) : 0 < q -> binary64 q = binary64_pos q.
Proof.
  intros Hq. unfold binary64. destruct q as [[|n|n] d]; try done.
Qed.

Lemma binary64_of_zero (q : Q) : q == 0 -> binary64 q = 0.
Proof.
  intros Hq. unfold binary64. destruct q as [[|n|n] d]; try done.
Qed.

Lemma binary64_error (q : Q) :
  0 <= q -> Qabs (binary64 q - q) <= q * pow2 (-53) + pow2 (-1075).
Proof.
  intros Hq. destruct (Qlt_le_dec 0 q) as [Hpos|Hzero].
  - rewrite binary64_of_pos by done. by apply binary64_pos_error_bound.
  - assert (E : q == 0) by lra. rewrite (binary64_of_zero q E), E.
    pose proof (pow2_pos (-53)). pose proof (pow2_pos (-1075)).
    apply Qabs_Qle_condition. split; lra.
Qed.

Lemma binary64_nonneg (q : Q) : 0 <= q -> 0 <= binary64 q.
Proof.
  intros Hq. destruct (Qlt_le_dec 0 q) as [Hpos|Hzero].
  - rewrite binary64_of_pos by done. unfold binary64_pos.
    set (s := Z.min (52 - ilog2 q) 1074).
    pose proof (pow2_pos s). pose proof (pow2_pos (- s)).
    apply Qmult_le_0_compat; [|lra].
    change 0 with (inject_Z 0). rewrite <- Zle_Qle.
    apply round_half_even_ge. change (inject_Z 0) with 0.
    apply Qmult_le_0_compat; lra.
  - assert (E : q == 0) by lra. rewrite (binary64_of_zero q E). lra.
Qed.

(** Rounding does not cross an integer below [2^53]. *)
Lemma binary64_le_Z (q : Q) (N : Z) :
  0 <= q -> q <= inject_Z N -> (N < 2 ^ 53)%Z -> binary64 q <= inject_Z N.
Proof.
  intros Hq HN Hbig. destruct (Qlt_le_dec 0 q) as [Hpos|Hzero].
  - rewrite binary64_of_pos by done. unfold binary64_pos.
    destruct (ilog2_spec q Hpos) as [Hlo _].
    assert (He : (ilog2 q < 53)%Z).
    { destruct (Z_lt_le_dec (ilog2 q) 53) as [|Hge]; [done|].
      pose proof (pow2_le 53 (ilog2 q) Hge) as H53.
      rewrite (pow2_Z 53) in H53 by lia.
      assert (inject_Z (2 ^ 53) <= inject_Z N) by lra.
      rewrite <- Zle_Qle in *. lia. }
    set (s := Z.min (52 - ilog2 q) 1074).
    assert (Hs : (0 <= s)%Z) by (unfold s; lia).
    pose proof (pow2_pos s) as Hps. pose proof (pow2_pos (- s)) as Hpn.
    assert (Hm : (round_half_even (q * pow2 s) <= N * 2 ^ s)%Z).
    { apply round_half_even_le. rewrite inject_Z_mult, <- (pow2_Z s Hs).
      apply Qmult_le_compat_r; lra. }
    rewrite Zle_Qle, inject_Z_mult, <- (pow2_Z s Hs) in Hm.
    assert (E : inject_Z N == inject_Z N * pow2 s * pow2 (- s)).
    { rewrite <- Qmult_assoc, pow2_cancel. ring. }
    rewrite E. apply Qmult_le_compat_r; lra.
  - assert (E : q == 0) by lra. rewrite (binary64_of_zero q E). lra.
Qed.

Lemma binary64_opp (q : Q) : binary64 (- q) = - binary64 q \/ q == 0.
Proof.
  destruct q as [[|n|n] d]; [by right|left..]; unfold binary64; simpl Qnum.
  - reflexivity.
  - change (- (Z.neg n # d)) with (Z.pos n # d).
    change (- - binary64_pos (Z.pos n # d)) with
      (Qopp (Qopp (binary64_pos (Z.pos n # d)))).
    by destruct (binary64_pos (Z.pos n # d)) as [[|m|m] e].
Qed.

(** The rounding error with its constants written out: relative error
    [2^-53], and an absolute term for the subnormal range. *)
Lemma binary64_error_abs (q : Q) :
  Qabs (binary64 q - q) <= Qabs q * unit_roundoff + tiny.
Proof.
  assert (Hu : pow2 (-53) == unit_roundoff) by (vm_compute; reflexivity).
  assert (Ht : pow2 (-1075) <= tiny) by (vm_compute; discriminate).
  unfold unit_roundoff, tiny in *.
  destruct (Qlt_le_dec q 0) as [Hneg|Hpos].
  - assert (Hq : 0 <= - q) by lra.
    pose proof (binary64_error (- q) Hq) as H.
    destruct (binary64_opp q) as [E|E]; [|lra].
    rewrite E, Hu in H.
    assert (E2 : - binary64 q - - q == - (binary64 q - q)) by ring.
    rewrite E2, Qabs_opp in H.
    rewrite (Qabs_neg q) by lra. lra.
  - pose proof (binary64_error q Hpos) as H. rewrite Hu in H.
    rewrite (Qabs_pos q) by lra. lra.
Qed.

End FloatFacts.

(** ** The concentration percentage *)

Module ConcentrationFacts.
Import Num Insights Spec FloatFacts AggregatorFacts.
Local Open Scope Q_scope.

Lemma Qfloor_unique (x : Q) (k : Z) :
  inject_Z k <= x -> x < inject_Z (k + 1) -> Qfloor x = k.
Proof.
  intros Hlo Hhi.
  assert (H1 : (k <= Qfloor x)%Z).
  { rewrite <- (Qfloor_Z k). by apply Qfloor_resp_le. }
  assert (H2 : (Qfloor x < k + 1)%Z).
  { rewrite Zlt_Qlt. pose proof (Qfloor_le x). lra. }
  lia.
Qed.

Lemma share_bounds (top total : Z) :
  (0 <= top <= total)%Z -> (0 < total)%Z ->
  0 <= inject_Z top / inject_Z total <= 1.
Proof.
  intros [H0 H1] Ht.
  assert (Hq : 0 < inject_Z total) by (change 0 with (inject_Z 0); by rewrite <- Zlt_Qlt).
  split.
  - apply Qle_shift_div_l; [done|]. rewrite Qmult_0_l.
    change 0 with (inject_Z 0). by rewrite <- Zle_Qle.
  - apply Qle_shift_div_r; [done|]. rewrite Qmult_1_l. by rewrite <- Zle_Qle.
Qed.

(** With a share between 0 and 1 the percentage is between 0 and 100. *)
Lemma concentration_bounds (top total : Z) :
  (0 <= top <= total)%Z -> (0 <= concentration top total <= 100)%Z.
Proof.
  intros Htop. unfold concentration.
  destruct (0 <? total)%Z eqn:Ht; [|lia]. apply Z.ltb_lt in Ht.
  destruct (share_bounds top total Htop Ht) as [Hlo Hhi].
  unfold js_mul, js_div, Math_round.
  set (x1 := binary64 (inject_Z top / inject_Z total)).
  assert (Hx1 : 0 <= x1 <= 1).
  { split; [by apply binary64_nonneg|].
    change 1 with (inject_Z 1). apply binary64_le_Z; [done|done|lia]. }
  set (y := binary64 (x1 * 100)).
  assert (Hy : 0 <= y <= 100).
  { split; [apply binary64_nonneg; lra|].
    change 100 with (inject_Z 100). apply binary64_le_Z; [lra| |lia].
    change (inject_Z 100) with 100. lra. }
  split.
  - change 0%Z with (Qfloor 0). apply Qfloor_resp_le. lra.
  - change 100%Z with (Qfloor (100 + (1 # 2))). apply Qfloor_resp_le. lra.
Qed.

(** Away from an exact tie, and for counts below [2^40], the two roundings
    of the handler do not move the percentage across a half. *)
Lemma concentration_exact (top total : Z) :
  (0 < total < 2 ^ 40)%Z -> (- 2 ^ 40 <= top <= 2 ^ 40)%Z ->
  ((200 * top + total) mod (2 * total) <> 0)%Z ->
  concentration top total = round_half_up (100 * inject_Z top / inject_Z total).
Proof.
  intros [Ht Htb] Htop Htie. unfold concentration.
  rewrite (proj2 (Z.ltb_lt 0 total) Ht).
  unfold js_mul, js_div, Math_round, round_half_up.
  set (x0 := inject_Z top / inject_Z total).
  set (x1 := binary64 x0). set (y := binary64 (x1 * 100)).
  assert (Hq : 0 < inject_Z total) by (change 0 with (inject_Z 0); by rewrite <- Zlt_Qlt).
  (* the quotient and remainder of the exact value *)
  set (k := ((200 * top + total) / (2 * total))%Z).
  set (r := ((200 * top + total) mod (2 * total))%Z).
  assert (Hdiv : (200 * top + total = 2 * total * k + r)%Z)
    by (apply Z.div_mod; lia).
  assert (Hr : (1 <= r <= 2 * total - 1)%Z).
  { pose proof (Z.mod_pos_bound (200 * top + total) (2 * total)). fold r in H. lia. }
  set (D := / (2 * inject_Z total)).
  assert (HD : 0 < D) by (apply Qinv_lt_0_compat; lra).
  assert (HDt : D * inject_Z total == 1 # 2).
  { unfold D. field. lra. }
  assert (Hx : 100 * x0 + (1 # 2) == inject_Z k + inject_Z r * D).
  { unfold x0, D. apply (f_equal inject_Z) in Hdiv.
    rewrite !inject_Z_plus, !inject_Z_mult in Hdiv.
    change (inject_Z 200) with 200 in Hdiv. change (inject_Z 2) with 2 in Hdiv.
    assert (Hr' : inject_Z r == 200 * inject_Z top + inject_Z total
                               - 2 * inject_Z total * inject_Z k)
      by (rewrite Hdiv; ring).
    rewrite Hr'. field. lra. }
  assert (HrD : D <= inject_Z r * D /\ inject_Z r * D <= 1 - D).
  { assert (H1 : 1 <= inject_Z r) by (change 1 with (inject_Z 1); rewrite <- Zle_Qle; lia).
    assert (H2 : inject_Z r <= 2 * inject_Z total - 1).
    { assert (H : inject_Z r <= inject_Z (2 * total + -1)) by (rewrite <- Zle_Qle; lia).
      rewrite inject_Z_plus, inject_Z_mult in H.
      change (inject_Z 2) with 2 in H. change (inject_Z (-1)) with (-1) in H. lra. }
    split.
    - rewrite <- (Qmult_1_l D) at 1. apply Qmult_le_compat_r; lra.
    - assert (inject_Z r * D <= (2 * inject_Z total - 1) * D)
        by (apply Qmult_le_compat_r; lra).
      lra. }
  (* the size of the exact share *)
  assert (HA : Qabs x0 <= 2199023255552 * D).
  { unfold x0. unfold Qdiv. rewrite Qabs_Qmult, Qabs_Qinv.
    rewrite (Qabs_pos (inject_Z total)) by lra.
    assert (Hinv : / inject_Z total == 2 * D) by (unfold D; field; lra).
    rewrite Hinv.
    assert (Hab : Qabs (inject_Z top) <= 1099511627776).
    { apply Qabs_Qle_condition. change 1099511627776 with (inject_Z (2 ^ 40)).
      change (- inject_Z (2 ^ 40)) with (inject_Z (- 2 ^ 40)).
      rewrite <- !Zle_Qle. lia. }
    assert (Qabs (inject_Z top) * (2 * D) <= 1099511627776 * (2 * D))
      by (apply Qmult_le_compat_r; lra).
    lra. }
  assert (HDbig : 1 # 2199023255552 <= D).
  { assert (inject_Z total <= 1099511627776).
    { change 1099511627776 with (inject_Z (2 ^ 40)). rewrite <- Zle_Qle. lia. }
    assert (D * inject_Z total <= D * 1099511627776)
      by (rewrite !(Qmult_comm D); apply Qmult_le_compat_r; lra).
    lra. }
  (* the two roundings *)
  pose proof (binary64_error_abs x0) as E1. fold x1 in E1.
  pose proof (binary64_error_abs (x1 * 100)) as E2. fold y in E2.
  pose proof (Qabs_nonneg x0) as HA0.
  pose proof (Qle_Qabs x0) as HA1.
  assert (HA2 : - Qabs x0 <= x0) by (rewrite <- Qabs_opp; pose proof (Qle_Qabs (- x0)); lra).
  apply Qabs_Qle_condition in E1.
  assert (HB : Qabs (x1 * 100) <= 100 * (Qabs x0 + Qabs x0 * unit_roundoff + tiny)).
  { apply Qabs_Qle_condition. unfold unit_roundoff, tiny in *. lra. }
  apply Qabs_Qle_condition in E2.
  unfold unit_roundoff, tiny in *.
  assert (Hx' : 100 * inject_Z top / inject_Z total + (1 # 2)
                == inject_Z k + inject_Z r * D).
  { rewrite <- Hx. unfold x0, Qdiv. ring. }
  transitivity k; [|symmetry];
    apply Qfloor_unique; rewrite ?inject_Z_plus; change (inject_Z 1) with 1; lra.
Qed.

Lemma foldl_sum_step (l : list (option Z)) (acc : option Z) :
  default 0%Z (foldl sum_step acc l)
  = (default 0%Z acc + Zsum (default 0%Z <$> l))%Z.
Proof.
  revert acc. induction l as [|v vs IH]; intros acc; [simpl; lia|].
  rewrite fmap_cons. cbn [foldl Zsum foldr].
  rewrite IH, sum_step_default. unfold Zsum. lia.
Qed.

Lemma totalCustomersResult_spec (uploadId : string) (rows : list Row.t) :
  totalCustomersResult uploadId rows = total_customer_count uploadId rows.
Proof.
  unfold totalCustomersResult, total_customer_count.
  rewrite foldl_sum_step. simpl.
  induction rows as [|r rs IH]; simpl; [done|].
  fold (successfully_geocoded uploadId r).
  destruct (successfully_geocoded uploadId r); simpl; [|exact IH].
  unfold row_customers at 1.
  destruct (Row.customer_count r) as [x|] eqn:Hx; simpl; rewrite ?Hx; simpl;
    refold_fmap; lia.
Qed.

Lemma foldl_add (f : grid_cell -> Z) (l : list grid_cell) (acc : Z) :
  foldl (fun sum row => (sum + f row)%Z) acc l = (acc + Zsum (f <$> l))%Z.
Proof.
  revert acc. induction l as [|c cs IH]; intros acc; [simpl; lia|].
  rewrite fmap_cons. cbn [foldl Zsum foldr]. rewrite IH. unfold Zsum. lia.
Qed.

Lemma Zsum_cons (x : Z) (l : list Z) : Zsum (x :: l) = (x + Zsum l)%Z.
Proof. done. Qed.

Lemma Zsum_filter_split (k : Z * Z) (ks : list (Z * Z)) (pts : list point) :
  k ∉ ks ->
  Zsum (customers <$> List.filter (fun p => bool_decide (cell_key p ∈ k :: ks)) pts)
  = (Zsum (customers <$> members k pts)
     + Zsum (customers <$> List.filter (fun p => bool_decide (cell_key p ∈ ks)) pts))%Z.
Proof.
  intros Hk. unfold members.
  induction pts as [|p ps IH]; [done|].
  cbn [List.filter].
  destruct (key_eqb (cell_key p) k) eqn:Hp.
  - apply key_eqb_eq in Hp.
    rewrite bool_decide_eq_true_2 by (rewrite Hp; left).
    rewrite (bool_decide_eq_false_2 (cell_key p ∈ ks)) by (by rewrite Hp).
    rewrite !fmap_cons, !Zsum_cons, IH. lia.
  - apply key_eqb_neq in Hp.
    destruct (bool_decide (cell_key p ∈ ks)) eqn:Hin.
    + apply bool_decide_eq_true in Hin.
      rewrite bool_decide_eq_true_2 by (by right).
      rewrite !fmap_cons, !Zsum_cons, IH. lia.
    + apply bool_decide_eq_false in Hin.
      rewrite bool_decide_eq_false_2; [exact IH|].
      rewrite elem_of_cons. intros [?|?]; congruence.
Qed.

Lemma Zsum_by_key (ks : list (Z * Z)) (pts : list point) :
  NoDup ks ->
  Zsum (customers <$> List.filter (fun p => bool_decide (cell_key p ∈ ks)) pts)
  = Zsum ((fun k => Zsum (customers <$> members k pts)) <$> ks).
Proof.
  induction 1 as [|k ks Hk Hnd IH].
  - induction pts as [|p ps IHp]; [done|]. cbn [List.filter].
    rewrite bool_decide_eq_false_2 by apply not_elem_of_nil. exact IHp.
  - rewrite Zsum_filter_split by done. rewrite fmap_cons, Zsum_cons. by rewrite IH.
Qed.

Lemma denseAreasResult_subset (uploadId : string) (rows : list Row.t) (c : grid_cell) :
  c ∈ denseAreasResult uploadId rows -> c ∈ grid_cells uploadId rows.
Proof. apply elem_of_take_order_by. Qed.

Lemma denseAreasResult_keys_nodup (uploadId : string) (rows : list Row.t) :
  NoDup (key_of <$> denseAreasResult uploadId rows).
Proof.
  unfold denseAreasResult. rewrite fmap_take.
  eapply sublist_NoDup; [|apply sublist_take].
  rewrite (order_by_perm count_desc (grid_cells uploadId rows)).
  rewrite AggregatorFacts.grid_cells_keys.
  apply (AggregatorFacts.group_by_cell_grouped (successful_rows uploadId rows)).
Qed.

(** The handler adds up the totals of the dense cells: that is the sum
    over the rows of those cells. *)
Lemma customersInTop3_spec (uploadId : string) (rows : list Row.t) :
  customersInTop3 (denseAreasResult uploadId rows) = top3_customer_count uploadId rows.
Proof.
  unfold customersInTop3, top3_customer_count, in_cells.
  rewrite foldl_add, Z.add_0_l.
  rewrite (Zsum_by_key _ _ (denseAreasResult_keys_nodup uploadId rows)).
  rewrite <- list_fmap_compose. f_equal.
  apply Forall_fmap_ext, Forall_forall. intros c Hc. simpl.
  apply denseAreasResult_subset in Hc.
  by destruct (AggregatorFacts.grid_cell_members uploadId rows c Hc) as (_ & _ & _ & _ & ->).
Qed.

Lemma Zsum_nonneg (l : list Z) : Forall (fun x => (0 <= x)%Z) l -> (0 <= Zsum l)%Z.
Proof. induction 1; simpl; lia. Qed.

Lemma geocoded_row (uploadId : string) (r : Row.t) (p : point) :
  geocoded uploadId r = Some p ->
  successfully_geocoded uploadId r = true /\ customers p = row_customers r.
Proof.
  unfold geocoded. fold (successfully_geocoded uploadId r).
  destruct (successfully_geocoded uploadId r); [|done].
  destruct (Row.lat r), (Row.lng r); try done. by intros [= <-].
Qed.

(** With non-negative counts the share of the dense cells is between 0
    and the total. *)
Lemma top3_le_total (uploadId : string) (rows : list Row.t) :
  counts_nonnegative uploadId rows ->
  (0 <= top3_customer_count uploadId rows <= total_customer_count uploadId rows)%Z.
Proof.
  intros Hnn. unfold top3_customer_count, total_customer_count.
  generalize (in_cells (denseAreasResult uploadId rows)) as keep.
  intros keep. unfold successful_rows, counts_nonnegative in *.
  induction Hnn as [|r rs Hr Hrs IH]; simpl; [lia|]. refold_fmap.
  destruct (geocoded uploadId r) as [p|] eqn:Hp.
  - destruct (geocoded_row uploadId r p Hp) as [Hs Hc].
    rewrite Hs. specialize (Hr Hs). cbn [List.filter].
    destruct (keep p); rewrite !fmap_cons, !Zsum_cons, ?Hc; lia.
  - destruct (successfully_geocoded uploadId r) eqn:Hs; [|exact IH].
    specialize (Hr eq_refl). rewrite fmap_cons, Zsum_cons. lia.
Qed.

End ConcentrationFacts.

(** ** Claims about the concentration percentage *)

Section ConcentrationClaims.
Import Num Insights Spec ConcentrationFacts.
Local Open Scope Q_scope.

Variable ST_Distance : Q * Q -> Q * Q -> Q.
Variable provider : Q -> Q -> Resolver.fetched.

Lemma insights_concentration (uploadId : string) (rows : list Row.t) :
  concentrationPercent (insights ST_Distance provider uploadId rows).1
  = concentration (customersInTop3 (denseAreasResult uploadId rows))
                  (totalCustomersResult uploadId rows).
Proof.
  unfold insights.
  destruct (label_all provider (center_of <$> denseAreasResult uploadId rows) _)
    as [denseLabels st1].
  destruct (0 <? length _)%nat; [destruct (label_all provider _ st1)|]; done.
Qed.


End ConcentrationClaims.



(** ** Claims about the reported distance and the display radius *)

Section DistanceClaims.
Import Num Insights Spec FloatFacts EngineFacts.
Local Open Scope Q_scope.

(** [round1] of a distance of at most 3 km is the binary64 value of a
    numeral with one decimal, the nearest one up to the rounding of two
    multiplications. *)
Lemma round1_nearest_tenth (d : Q) :
  0 <= d <= 3 ->
  exists n : Z,
    (0 <= n <= 30)%Z
    /\ round1 d = parseFloat (inject_Z n / 10)
    /\ Qabs (inject_Z n / 10 - d) <= (1 # 20) + (1 # 1000000000000).
Proof.
  intros [Hd0 Hd3]. unfold round1, js_div, js_mul, parseFloat, Math_round.
  set (x1 := binary64 d). set (y := binary64 (x1 * 10)).
  exists (Qfloor (y + (1 # 2))).
  pose proof (binary64_error_abs d) as E1. fold x1 in E1.
  rewrite (Qabs_pos d) in E1 by done.
  assert (Hx1 : 0 <= x1 <= 3).
  { split; [by apply binary64_nonneg|].
    change 3 with (inject_Z 3). apply binary64_le_Z; [done|done|lia]. }
  pose proof (binary64_error_abs (x1 * 10)) as E2. fold y in E2.
  rewrite (Qabs_pos (x1 * 10)) in E2 by lra.
  assert (Hy : 0 <= y <= 30).
  { split; [apply binary64_nonneg; lra|].
    change 30 with (inject_Z 30). apply binary64_le_Z; [lra| |lia].
    change (inject_Z 30) with 30. lra. }
  pose proof (Qfloor_le (y + (1 # 2))) as Hlo.
  pose proof (Qlt_floor (y + (1 # 2))) as Hhi.
  rewrite inject_Z_plus in Hhi. change (inject_Z 1) with 1 in Hhi.
  apply Qabs_Qle_condition in E1, E2. unfold unit_roundoff, tiny in *.
  split; [|split; [done|]].
  - split.
    + change 0%Z with (Qfloor 0). apply Qfloor_resp_le. lra.
    + change 30%Z with (Qfloor (30 + (1 # 2))). apply Qfloor_resp_le. lra.
  - assert (E : inject_Z (Qfloor (y + (1 # 2))) / 10
                == inject_Z (Qfloor (y + (1 # 2))) * (1 # 10)) by (field; done).
    rewrite E. apply Qabs_Qle_condition. split; lra.
Qed.

Variable ST_Distance : Q * Q -> Q * Q -> Q.
Variable provider : Q -> Q -> Resolver.fetched.

(** C10.  The [distanceKm] of a whitespace area is [round1] of the
    distance to the nearest dense centroid, a value with one decimal; the
    3 km threshold and the ascending order are those of the unrounded
    distances.  Unrounded distances of 2.96 and 2.97 km, both under 3 km,
    are both reported as 3.0. *)
Theorem distanceKm_rounded_after_selection (uploadId : string) (rows : list Row.t) :
  (exists found : list candidate,
      Forall2 (fun a r => WhiteSpaceArea.distanceKm a = round1 (cand_distance_km r))
              (whiteSpaceAreas (insights ST_Distance provider uploadId rows).1) found
      /\ Forall (fun r => nearest ST_Distance (cand_cell r)
                            (denseAreasResult uploadId rows) (cand_distance_km r)
                          /\ cand_distance_km r <= 3) found
      /\ StronglySorted Qle (cand_distance_km <$> found))
  /\ (forall d, 0 <= d <= 3 ->
        exists n : Z, (0 <= n <= 30)%Z
          /\ round1 d = parseFloat (inject_Z n / 10)
          /\ Qabs (inject_Z n / 10 - d) <= (1 # 20) + (1 # 1000000000000))
  /\ ((296 # 100) < (297 # 100) /\ (297 # 100) < 3
      /\ round1 (296 # 100) == 3 /\ round1 (297 # 100) == 3).
Proof.
  split; [|split].
  - exists (whiteSpaceResult ST_Distance uploadId rows). split; [|split].
    + eapply Forall2_impl; [apply insights_white_space|].
      intros a r (_ & _ & _ & H). exact H.
    + eapply Forall_impl; [apply whiteSpaceResult_kept|].
      intros r (_ & _ & _ & Hn & Hle). by split.
    + apply whiteSpaceResult_sorted.
  - apply round1_nearest_tenth.
  - split_and!; vm_compute; reflexivity.
Qed.

End DistanceClaims.

(** The theorem on the sample ridge: the areas at 2.96 and 2.97 km are
    both reported at 3.0 km, in the order of their unrounded distances. *)
Lemma distanceKm_ridge_witness :
  (Qred ∘ Insights.cand_distance_km)
    <$> Insights.whiteSpaceResult Sample.taxicab "u1" Sample.ridge
    = [(3 # 2)%Q; (74 # 25)%Q; (297 # 100)%Q]
  /\ (Qred ∘ Insights.WhiteSpaceArea.distanceKm)
       <$> Insights.whiteSpaceAreas
             (Insights.insights Sample.taxicab Sample.unreachable "u1" Sample.ridge).1
       = [(3 # 2)%Q; 3%Q; 3%Q]
  /\ exists found : list Insights.candidate,
       Forall2 (fun a r => Insights.WhiteSpaceArea.distanceKm a
                           = Insights.round1 (Insights.cand_distance_km r))
               (Insights.whiteSpaceAreas
                  (Insights.insights Sample.taxicab Sample.unreachable "u1" Sample.ridge).1)
               found
       /\ StronglySorted Qle (Insights.cand_distance_km <$> found).
Proof.
  split; [vm_compute; reflexivity|]. split; [vm_compute; reflexivity|].
  destruct (distanceKm_rounded_after_selection Sample.taxicab Sample.unreachable
              "u1" Sample.ridge) as ((found & Hshow & _ & Hsorted) & _).
  by exists found.
Defined.

Section RadiusClaims.
Import Num Insights Spec.
Local Open Scope Q_scope.

(** C8, as the code has it.  The display radius is computed by the
    presentation layer from the [distanceKm] of the report, and it is
    [clamp(ceil(distanceKm), 0.5, 3)]. *)
Theorem display_radius_clamps_ceiling (area : WhiteSpaceArea.t) :
  radius area == clamp (inject_Z (Qceiling (WhiteSpaceArea.distanceKm area))) (1 # 2) 3.
Proof.
  unfold radius, clamp, Math_min, Math_max, Math_ceil.
  set (c := inject_Z (Qceiling (WhiteSpaceArea.distanceKm area))).
  destruct (Qle_bool (1 # 2) c) eqn:H1, (Qle_bool c (1 # 2)) eqn:H2;
    [| |change (Qle_bool 3 (1 # 2)) with false..];
    destruct (Qle_bool 3 c) eqn:H3;
    try apply Qle_bool_iff in H1; try apply Qle_bool_iff in H2;
    try apply Qle_bool_iff in H3;
    try apply EngineFacts.Qle_bool_false in H1;
    try apply EngineFacts.Qle_bool_false in H2;
    try apply EngineFacts.Qle_bool_false in H3; lra.
Qed.

End RadiusClaims.

(** C8 as stated fails: the report carries no radius.  The nearest
    whitespace area of the sample ridge is reported with count 1, its
    centre and [distanceKm] 1.5; the radius that the presentation layer
    derives is 2, which is none of the numbers of the area. *)
Lemma display_radius_counterexample :
  exists a rest,
    Insights.whiteSpaceAreas
      (Insights.insights Sample.taxicab Sample.unreachable "u1" Sample.ridge).1 = a :: rest
    /\ Insights.radius a == 2
    /\ Forall (fun x => ~ x == Insights.radius a) (Spec.area_numbers a).
Proof.
  eexists _, _. split; [vm_compute; reflexivity|].
  split; [vm_compute; reflexivity|].
  repeat constructor; vm_compute; discriminate.
Qed.

(** ** The pipeline *)

Module PipelineFacts.
Import Resolver Pipeline PipelineSpec.

Section WithResolver.
Variable geocodeAddress : string -> geocode_result.

Lemma for_each_start_row (batch : list (Z * string)) (w : world) :
  for_each start_row batch w
  = (tt, {| store := store w; trace := trace w ++ (call_event <$> batch) |}).
Proof.
  revert w. induction batch as [|row rest IH]; intros w.
  - simpl. unfold mret, M_ret. rewrite app_nil_r. by destruct w.
  - cbn [for_each]. unfold mbind, M_bind, start_row, emit.
    rewrite IH. cbn [store trace]. rewrite fmap_cons, <- app_assoc. done.
Qed.

Lemma finish_row_spec (c : counts) (row : Z * string) (w : world) :
  successCount (finish_row geocodeAddress c row w).1
    = (if found geocodeAddress row then S (successCount c) else successCount c)
  /\ trace (finish_row geocodeAddress c row w).2
      = trace w ++ [write_event geocodeAddress row]
  /\ uploads (store (finish_row geocodeAddress c row w).2) = uploads (store w).
Proof.
  unfold finish_row, write_event, found.
  destruct (geocodeAddress row.2) as [la ln|err]; done.
Qed.

(** What resuming the callbacks of a batch does to the counters, the
    trace and the table of uploads. *)
Lemma fold_rows_spec (batch : list (Z * string)) (c : counts) (w : world) :
  successCount (fold_rows geocodeAddress c batch w).1
    = (successCount c + length (List.filter (found geocodeAddress) batch))%nat
  /\ trace (fold_rows geocodeAddress c batch w).2
      = trace w ++ (write_event geocodeAddress <$> batch)
  /\ uploads (store (fold_rows geocodeAddress c batch w).2) = uploads (store w).
Proof.
  revert c w. induction batch as [|row rest IH]; intros c w.
  - simpl. rewrite app_nil_r. split_and!; [lia|done|done].
  - cbn [fold_rows List.filter]. unfold mbind, M_bind.
    destruct (finish_row_spec c row w) as (F1 & F2 & F3).
    destruct (finish_row geocodeAddress c row w) as [c1 w1].
    destruct (IH c1 w1) as (H1 & H2 & H3). cbn [fst snd] in *.
    cbv beta iota.
    rewrite H1, H2, H3, F1, F2, F3, fmap_cons, <- app_assoc.
    split_and!; try done.
    destruct (found geocodeAddress row); cbn [length]; lia.
Qed.

Lemma process_batch_spec (batch : list (Z * string)) (c : counts) (w : world) :
  successCount (process_batch geocodeAddress batch c w).1
    = (successCount c + length (List.filter (found geocodeAddress) batch))%nat
  /\ trace (process_batch geocodeAddress batch c w).2
      = trace w ++ (call_event <$> batch) ++ (write_event geocodeAddress <$> batch)
  /\ uploads (store (process_batch geocodeAddress batch c w).2) = uploads (store w).
Proof.
  unfold process_batch, mbind, M_bind. rewrite for_each_start_row.
  match goal with
  | |- context [fold_rows _ c batch ?w'] =>
      destruct (fold_rows_spec batch c w') as (H1 & H2 & H3)
  end.
  rewrite H1, H2, H3. cbn [store trace]. by rewrite <- app_assoc.
Qed.

Lemma resolver_calls_app (a b : list event) :
  resolver_calls (a ++ b) = resolver_calls a ++ resolver_calls b.
Proof. apply omap_app. Qed.

Lemma status_writes_app (u : string) (a b : list event) :
  status_writes u (a ++ b) = status_writes u a ++ status_writes u b.
Proof. apply omap_app. Qed.

Lemma resolver_calls_call_events (batch : list (Z * string)) :
  resolver_calls (call_event <$> batch) = batch.
Proof.
  induction batch as [|[i a] rest IH]; [done|].
  rewrite fmap_cons. unfold resolver_calls in *. cbn [omap list_omap call_event fst snd].
  refold_fmap. by rewrite IH.
Qed.

Lemma resolver_calls_write_events (batch : list (Z * string)) :
  resolver_calls (write_event geocodeAddress <$> batch) = [].
Proof. by induction batch as [|row rest IH]. Qed.

Lemma status_writes_call_events (u : string) (batch : list (Z * string)) :
  status_writes u (call_event <$> batch) = [].
Proof. by induction batch as [|row rest IH]. Qed.

Lemma status_writes_write_events (u : string) (batch : list (Z * string)) :
  status_writes u (write_event geocodeAddress <$> batch) = [].
Proof. by induction batch as [|row rest IH]. Qed.

Lemma batches_spec (rows : list (Z * string)) (i : nat) (c : counts) (w : world) :
  successCount (batches geocodeAddress rows i c w).1
    = (successCount c + length (List.filter (found geocodeAddress) (drop i rows)))%nat
  /\ (exists events,
        trace (batches geocodeAddress rows i c w).2 = trace w ++ events
        /\ row_events (drop i rows) events)
  /\ uploads (store (batches geocodeAddress rows i c w).2) = uploads (store w).
Proof.
  funelim (batches geocodeAddress rows i c w).
  - (* one more batch *)
    set (batch := slice rows i (i + batchSize)) in *.
    destruct (process_batch_spec batch c w) as (P1 & P2 & P3).
    set (c1 := (process_batch geocodeAddress batch c w).1) in *.
    set (w1 := (process_batch geocodeAddress batch c w).2) in *.
    set (w2 := if decide (i + batchSize < length rows)
               then (emit (Delayed 200) w1).2 else w1) in *.
    assert (Hw2 : exists pause, trace w2 = trace w1 ++ pause
                   /\ row_events [] pause
                   /\ uploads (store w2) = uploads (store w1)).
    { unfold w2. destruct (decide (i + batchSize < length rows)).
      - exists [Delayed 200]. by split_and!.
      - exists []. rewrite app_nil_r. by split_and!. }
    destruct Hw2 as (pause & Hp1 & [Hp2 Hp3] & Hp4).
    destruct H as (H1 & (events & H2 & [H3 H4]) & H5).
    assert (Hdrop : drop i rows = batch ++ drop (i + batchSize) rows).
    { unfold batch, slice. replace (i + batchSize - i)%nat with batchSize by lia.
      rewrite <- (take_drop batchSize (drop i rows)) at 1.
      by rewrite drop_drop. }
    split_and!.
    + rewrite H1, P1, Hdrop, List.filter_app, length_app. lia.
    + exists ((call_event <$> batch) ++ (write_event geocodeAddress <$> batch)
              ++ pause ++ events).
      split; [|split].
      * rewrite H2, Hp1, P2. by rewrite <- !app_assoc.
      * rewrite !resolver_calls_app, resolver_calls_call_events,
          resolver_calls_write_events, Hp2, H3. by rewrite Hdrop.
      * intros u. rewrite !status_writes_app, status_writes_call_events,
          status_writes_write_events, Hp3, H4. done.
    + by rewrite H5, Hp4, P3.
  - (* the loop ends *)
    rewrite drop_ge by lia. split_and!; [simpl; lia| |done].
    exists []. rewrite app_nil_r. by split_and!.
Qed.

Lemma sql_update_twice {A} (p : A -> bool) (f g : A -> A) (table : list A) :
  (forall r, p (f r) = p r) ->
  sql_update p g (sql_update p f table)
  = sql_update p (fun r => g (f r)) table.
Proof.
  intros Hp. unfold sql_update. rewrite <- list_fmap_compose.
  apply list_fmap_ext. intros _ r _. simpl.
  destruct (p r) eqn:Hr; [by rewrite Hp, Hr|by rewrite Hr].
Qed.

Lemma status_of_update (uploadId : string) (s : UploadStatus.t) (us : list Upload.t) :
  find (fun u => String.eqb (Upload.id u) uploadId) us <> None ->
  Upload.status <$>
    find (fun u => String.eqb (Upload.id u) uploadId)
         (sql_update (fun u => String.eqb (Upload.id u) uploadId)
                     (Upload.set_status s) us)
  = Some s.
Proof.
  induction us as [|u rest IH]; [done|]. cbn [find sql_update map].
  destruct (String.eqb (Upload.id u) uploadId) eqn:Hu.
  - cbn [Upload.set_status Upload.id]. by rewrite Hu.
  - rewrite Hu. exact IH.
Qed.

Lemma select_upload_length (uploadId : string) (w : world) :
  (length (select_upload uploadId w).1 =? 0)%nat
  = bool_decide (status_of uploadId (store w) = None).
Proof.
  unfold select_upload, read, status_of. cbn [fst]. rewrite length_fmap.
  induction (uploads (store w)) as [|u rest IH]; [done|]. cbn [List.filter find].
  destruct (String.eqb (Upload.id u) uploadId); [done|exact IH].
Qed.

Lemma final_status_count (rows : list (Z * string)) :
  (if (0 <? length (List.filter (found geocodeAddress) rows))%nat
   then UploadStatus.done else UploadStatus.failed)
  = final_status geocodeAddress rows.
Proof.
  unfold final_status. induction rows as [|row rest IH]; [done|].
  cbn [List.filter existsb]. by destruct (found geocodeAddress row).
Qed.

Lemma update_status_unfold (s : UploadStatus.t) (uploadId : string) (w : world) :
  update_status s uploadId w = (tt, with_status s uploadId w).
Proof. done. Qed.

(** The handler of the trigger, without the monad. *)
Lemma geocode_unfold (uploadId : string) (w : world) :
  (geocode geocodeAddress uploadId w).2
  = if bool_decide (status_of uploadId (store w) = None)
    then {| store := store w; trace := trace w ++ [Responded NotFound404] |}
    else
      let w1 := {| store := store (with_status UploadStatus.processing uploadId w);
                   trace := trace (with_status UploadStatus.processing uploadId w)
                            ++ [Responded Started] |} in
      match pending_rows uploadId (store w) with
      | [] => with_status UploadStatus.done uploadId w1
      | rows =>
          with_status
            (if (0 <? successCount
                        (batches geocodeAddress rows 0
                           {| successCount := 0; failedCount := 0 |} w1).1)%nat
             then UploadStatus.done else UploadStatus.failed)
            uploadId
            (batches geocodeAddress rows 0 {| successCount := 0; failedCount := 0 |} w1).2
      end.
Proof.
  unfold geocode. unfold mbind at 1. unfold M_bind at 1.
  pose proof (select_upload_length uploadId w) as Hsel.
  unfold select_upload, read in *. cbn [fst] in Hsel. rewrite Hsel.
  destruct (bool_decide (status_of uploadId (store w) = None)); [done|].
  unfold mbind, M_bind, select_pending, read, emit.
  rewrite update_status_unfold. cbn [store trace].
  change (upload_rows (store (with_status UploadStatus.processing uploadId w)))
    with (upload_rows (store w)).
  fold (pending_rows uploadId (store w)).
  destruct (pending_rows uploadId (store w)) as [|row rest]; [done|].
  cbn [length Nat.eqb].
  by destruct (batches geocodeAddress (row :: rest) 0 _ _).
Qed.

Lemma status_of_with_status (s : UploadStatus.t) (uploadId : string) (w : world) :
  status_of uploadId (store w) <> None ->
  status_of uploadId (store (with_status s uploadId w)) = Some s.
Proof.
  intros H. unfold status_of in *. cbn [with_status store uploads].
  apply status_of_update. intros Hn. apply H. by rewrite Hn.
Qed.

Lemma status_of_uploads (uploadId : string) (d d' : db) :
  uploads d = uploads d' -> status_of uploadId d = status_of uploadId d'.
Proof. unfold status_of. by intros ->. Qed.

Lemma uploads_with_status_twice (s s' : UploadStatus.t) (uploadId : string) (us : list Upload.t) :
  sql_update (fun u => String.eqb (Upload.id u) uploadId) (Upload.set_status s')
    (sql_update (fun u => String.eqb (Upload.id u) uploadId) (Upload.set_status s) us)
  = sql_update (fun u => String.eqb (Upload.id u) uploadId) (Upload.set_status s') us.
Proof. by rewrite sql_update_twice. Qed.

(** The run of the trigger on an upload that exists. *)
Lemma geocode_run (uploadId : string) (w : world) :
  status_of uploadId (store w) <> None ->
  exists events,
    trace (geocode geocodeAddress uploadId w).2
      = trace w ++ [StatusWritten uploadId UploadStatus.processing; Responded Started]
                ++ events
                ++ [StatusWritten uploadId
                      (outcome geocodeAddress (pending_rows uploadId (store w)))]
    /\ row_events (pending_rows uploadId (store w)) events
    /\ (pending_rows uploadId (store w) = [] -> events = [])
    /\ uploads (store (geocode geocodeAddress uploadId w).2)
       = sql_update (fun u => String.eqb (Upload.id u) uploadId)
           (Upload.set_status (outcome geocodeAddress (pending_rows uploadId (store w))))
           (uploads (store w)).
Proof.
  intros Hex. rewrite geocode_unfold, bool_decide_eq_false_2 by done.
  cbv zeta.
  set (w1 := {| store := store (with_status UploadStatus.processing uploadId w);
                trace := trace (with_status UploadStatus.processing uploadId w)
                         ++ [Responded Started] |}).
  destruct (pending_rows uploadId (store w)) as [|row rest] eqn:Hrows.
  - exists []. split_and!; try done.
    + unfold w1. cbn [with_status trace outcome]. by rewrite <- !app_assoc.
    + unfold w1. cbn [with_status store uploads outcome].
      apply uploads_with_status_twice.
  - set (rows := row :: rest) in *.
    destruct (batches_spec rows 0 {| successCount := 0; failedCount := 0 |} w1)
      as (B1 & (events & B2 & B3) & B4).
    rewrite drop_0 in *. cbn [successCount] in B1.
    rewrite B1, Nat.add_0_l, final_status_count.
    change (outcome geocodeAddress rows) with (final_status geocodeAddress rows).
    exists events. split_and!; try done.
    + cbn [with_status trace]. rewrite B2. unfold w1.
      cbn [with_status trace]. by rewrite <- !app_assoc.
    + cbn [with_status store uploads]. rewrite B4. unfold w1.
      cbn [with_status store uploads]. apply uploads_with_status_twice.
Qed.

Lemma find_update_other (uploadId u : string) (f : Upload.t -> Upload.t)
    (us : list Upload.t) :
  u <> uploadId -> (forall r, Upload.id (f r) = Upload.id r) ->
  Upload.status <$> find (fun r => String.eqb (Upload.id r) u)
                         (sql_update (fun r => String.eqb (Upload.id r) uploadId) f us)
  = Upload.status <$> find (fun r => String.eqb (Upload.id r) u) us.
Proof.
  intros Hne Hid. induction us as [|r rest IH]; [done|].
  cbn [sql_update map find].
  destruct (String.eqb (Upload.id r) uploadId) eqn:Hr.
  - apply String.eqb_eq in Hr. rewrite Hid.
    rewrite (proj2 (String.eqb_neq (Upload.id r) u)) by congruence. exact IH.
  - destruct (String.eqb (Upload.id r) u); [done|exact IH].
Qed.

Lemma outcome_cases (rows : list (Z * string)) :
  outcome geocodeAddress rows = UploadStatus.done
  \/ outcome geocodeAddress rows = UploadStatus.failed.
Proof.
  destruct rows as [|row rest]; [by left|].
  unfold outcome, final_status. destruct (existsb _ _); auto.
Qed.

Lemma status_writes_self (uploadId : string) (s : UploadStatus.t) :
  status_writes uploadId [StatusWritten uploadId s] = [s].
Proof. unfold status_writes. simpl. by rewrite String.eqb_refl. Qed.

Lemma status_writes_other (uploadId u : string) (s : UploadStatus.t) :
  u <> uploadId -> status_writes u [StatusWritten uploadId s] = [].
Proof.
  intros Hne. unfold status_writes. simpl.
  by rewrite (proj2 (String.eqb_neq uploadId u)).
Qed.

(** The trigger on an upload that does not exist answers 404 and writes
    nothing. *)
Lemma geocode_missing (uploadId : string) (w : world) :
  status_of uploadId (store w) = None ->
  (geocode geocodeAddress uploadId w).2
  = {| store := store w; trace := trace w ++ [Responded NotFound404] |}.
Proof. intros Hex. by rewrite geocode_unfold, bool_decide_eq_true_2. Qed.

End WithResolver.
End PipelineFacts.

(** ** Claims about the pipeline *)

Section PipelineClaims.
Import Resolver Pipeline PipelineSpec PipelineFacts.

Variable geocodeAddress : string -> geocode_result.


Lemma run_writes_app (a b : list UploadStatus.t) :
  run_writes a -> run_writes b -> run_writes (a ++ b).
Proof. induction 1; [done|]. intros Hb. simpl. constructor; auto. Qed.

(** What one operation writes for an upload. *)
Lemma perform_writes (op : operation) (w : world) (u : string) :
  exists written,
    status_writes u (trace (perform geocodeAddress op w))
      = status_writes u (trace w) ++ written
    /\ run_writes written
    /\ status_of u (store (perform geocodeAddress op w))
       = from_option Some (status_of u (store w)) (last written).
Proof.
  destruct op as [uploadId| |]; cbn [perform];
    [|exists []; by rewrite app_nil_r; split_and!; try constructor..].
  destruct (status_of uploadId (store w)) as [s0|] eqn:Hex.
  - assert (Hex' : status_of uploadId (store w) <> None) by congruence.
    destruct (geocode_run geocodeAddress uploadId w Hex')
      as (events & Htrace & [Hcalls Hwrites] & Hnone & Huploads).
    rewrite Htrace.
    change [StatusWritten uploadId UploadStatus.processing; Responded Started]
      with ([StatusWritten uploadId UploadStatus.processing] ++ [Responded Started]).
    rewrite !status_writes_app, Hwrites.
    destruct (decide (u = uploadId)) as [->|Hne].
    + rewrite !status_writes_self.
      exists [UploadStatus.processing;
              outcome geocodeAddress (pending_rows uploadId (store w))].
      split_and!.
      * done.
      * constructor; [apply outcome_cases|constructor].
      * unfold status_of in *. rewrite Huploads. cbn [last from_option].
        apply status_of_update. intros Hn. by rewrite Hn in Hex.
    + rewrite !status_writes_other by done.
      exists []. split_and!; [done|constructor|].
      unfold status_of. rewrite Huploads. cbn [last from_option].
      by apply find_update_other.
  - rewrite geocode_missing by done. cbn [store trace].
    exists []. rewrite status_writes_app. split_and!; [done|constructor|done].
Qed.

Lemma last_app_cases (a b : list UploadStatus.t) (d : option UploadStatus.t) :
  from_option Some (from_option Some d (last a)) (last b)
  = from_option Some d (last (a ++ b)).
Proof.
  destruct b as [|x b] using rev_ind; [by rewrite app_nil_r|].
  rewrite app_assoc, !last_snoc. done.
Qed.


End PipelineClaims.




(** ** Claims about the label memo *)

Section MemoClaims.
Import Insights Spec EngineFacts.

Variable ST_Distance : Q * Q -> Q * Q -> Q.
Variable provider : Q -> Q -> Resolver.fetched.

Lemma label_all_issued (centers : list center) (st : labeler) :
  issued (label_all provider centers st).2
  = issued st ++ List.filter (missed (geocodeCache st)) centers.
Proof. done. Qed.

Lemma stored_labels_lookup (cache : gmap string string) (pending : list center)
    (k : string) :
  foldl (fun m c => <[cache_key c := reverseGeocode provider (lat c) (lng c)]> m)
        cache pending !! k = None
  <-> cache !! k = None /\ k ∉ cache_key <$> pending.
Proof.
  revert cache. induction pending as [|c cs IH]; intros cache.
  - simpl. split; [intros H; split; [done|apply not_elem_of_nil]|by intros [H _]].
  - cbn [foldl]. rewrite IH, fmap_cons, not_elem_of_cons.
    destruct (decide (cache_key c = k)) as [<-|Hne].
    + rewrite lookup_insert_eq. split; [by intros [? _]|by intros (_ & ? & _)].
    + rewrite lookup_insert_ne by done. split.
      * intros [? ?]. split_and!; done.
      * intros (? & ? & ?). done.
Qed.

(** After a batch every key of the batch is in the memo. *)
Lemma label_all_cached (centers : list center) (st : labeler) (c : center) :
  c ∈ centers ->
  geocodeCache (label_all provider centers st).2 !! cache_key c <> None.
Proof.
  intros Hc. unfold label_all. cbn [snd geocodeCache].
  rewrite stored_labels_lookup. intros [Hmiss Hnot]. apply Hnot.
  apply list_elem_of_fmap. exists c. split; [done|].
  apply list_elem_of_In, List.filter_In. split; [by apply list_elem_of_In|].
  unfold missed. by apply bool_decide_eq_true.
Qed.

(** The calls of one computation: one for every dense area, whatever its
    key, and one for every whitespace area whose key is not that of a dense
    area.  The memo starts empty. *)
Lemma insights_issued (uploadId : string) (rows : list Row.t) :
  issued (insights ST_Distance provider uploadId rows).2
  = (center_of <$> denseAreasResult uploadId rows)
    ++ List.filter
         (fun c => bool_decide
                     (cache_key c ∉ cache_key <$> (center_of <$> denseAreasResult uploadId rows)))
         ((center_of ∘ cand_cell) <$> whiteSpaceResult ST_Distance uploadId rows).
Proof.
  set (dense := center_of <$> denseAreasResult uploadId rows).
  assert (Hfirst : List.filter (missed ∅) dense = dense).
  { induction dense as [|c cs IH]; [done|]. cbn [List.filter].
    unfold missed at 1. rewrite lookup_empty, bool_decide_eq_true_2 by done.
    by rewrite IH. }
  assert (Hwhite : whiteSpaceResult ST_Distance uploadId rows = []
                   \/ denseAreasResult uploadId rows <> []).
  { destruct (denseAreasResult uploadId rows) eqn:Hd; [left|by right].
    unfold whiteSpaceResult. by rewrite Hd, whitespace_candidates_no_dense. }
  unfold insights. fold dense.
  destruct (label_all provider dense _) as [denseLabels st1] eqn:Hl.
  assert (Hlen : length denseLabels = length (denseAreasResult uploadId rows)).
  { replace denseLabels with (label_all provider dense
                                {| geocodeCache := ∅; issued := [] |}).1
      by (by rewrite Hl).
    rewrite label_all_length. unfold dense. by rewrite length_fmap. }
  assert (Hst1 : st1 = (label_all provider dense {| geocodeCache := ∅; issued := [] |}).2)
    by (by rewrite Hl).
  assert (Hissued1 : issued st1 = dense).
  { rewrite Hst1, label_all_issued. cbn [issued geocodeCache]. by rewrite Hfirst. }
  assert (Hmiss : forall c, missed (geocodeCache st1) c
                            = bool_decide (cache_key c ∉ cache_key <$> dense)).
  { intros c. unfold missed. apply bool_decide_ext.
    rewrite Hst1. unfold label_all. cbn [snd geocodeCache].
    rewrite stored_labels_lookup, Hfirst, lookup_empty.
    split; [by intros [_ ?]|by intros ?]. }
  destruct (0 <? length _)%nat eqn:Hpos.
  - destruct (label_all provider _ st1) as [whiteLabels st2] eqn:Hw.
    cbn [snd].
    replace st2 with (label_all provider
                        ((center_of ∘ cand_cell) <$> whiteSpaceResult ST_Distance uploadId rows)
                        st1).2 by (by rewrite Hw).
    rewrite label_all_issued, Hissued1. f_equal.
    apply List.filter_ext. exact Hmiss.
  - cbn [snd]. rewrite Hissued1.
    apply Nat.ltb_ge in Hpos. rewrite length_zip_with, Hlen, Nat.min_id in Hpos.
    destruct Hwhite as [->|Hne]; [by rewrite app_nil_r|].
    destruct (denseAreasResult uploadId rows); [done|simpl in Hpos; lia].
Qed.

End MemoClaims.

(** C6 at the sample boundary.  The two dense cells "37.78,-122.42" and
    "37.77,-122.42" have centroids with the same memo key
    "37.77,-122.42"; both look the key up before either label is stored,
    and [reverseGeocode] is called twice. *)
Theorem label_memo_two_calls_for_one_key :
  Insights.DenseArea.cellId
    <$> Insights.topDenseAreas
          (Insights.insights Sample.taxicab Sample.unreachable "u1" Sample.boundary).1
  = ["37.78,-122.42"; "37.77,-122.42"]
  /\ Insights.cache_key
       <$> Insights.issued
             (Insights.insights Sample.taxicab Sample.unreachable "u1" Sample.boundary).2
     = ["37.77,-122.42"; "37.77,-122.42"].
Proof. split; vm_compute; reflexivity. Qed.

(** ** Claims about the reverse-geocoding label *)

Section LabelClaims.
Import Resolver LabelSpec.

Lemma find_none_of_all_false (p : feature -> bool) (features : list feature) :
  Forall (fun g => p g = false) features -> find p features = None.
Proof. induction 1 as [|g gs Hg _ IH]; [done|]. cbn [find]. by rewrite Hg. Qed.

Lemma first_of_priority_preferred (types : list string) (features : list feature)
    (f : feature) :
  preferred types features f -> first_of_priority types features = Some f.
Proof.
  intros (i & type & Hi & Hfind & Hearlier). revert i Hi Hearlier.
  induction types as [|t ts IH]; intros i Hi Hearlier; [done|].
  cbn [first_of_priority]. destruct i as [|i].
  - injection Hi as ->. by rewrite Hfind.
  - rewrite find_none_of_all_false by (apply (Hearlier 0%nat); [lia|done]).
    apply (IH i); [done|].
    intros j earlier Hj Hlook. apply (Hearlier (S j)); [lia|done].
Qed.

Lemma first_of_priority_none (types : list string) (features : list feature) :
  none_preferred types features -> first_of_priority types features = None.
Proof.
  unfold none_preferred. induction types as [|t ts IH]; intros Hnone; [done|].
  cbn [first_of_priority].
  rewrite find_none_of_all_false by (apply Hnone; left).
  apply IH. intros type Htype. apply Hnone. by right.
Qed.

Lemma truthy_differing (n : string) (o : option string) :
  truthy o && strict_ne (Some n) o = true -> differing n o = o.
Proof.
  destruct o as [x|]; [|done]. unfold truthy, strict_ne, differing.
  by intros ->.
Qed.

Lemma not_truthy_differing (n : string) (o : option string) :
  truthy o && strict_ne (Some n) o = false -> differing n o = None.
Proof.
  destruct o as [x|]; [|done]. unfold truthy, strict_ne, differing.
  by intros ->.
Qed.

(** The label of a candidate with a name is the composed label. *)
Lemma area_label_composed (f : feature) (lat lng : Q) :
  name f <> EmptyString -> area_label f lat lng = composed f.
Proof.
  unfold name, area_label, composed, distinguishing, name.
  destruct (text f) as [n|] eqn:Hn; [|done]. cbn [default from_option id].
  intros Hne.
  destruct (truthy (context_text "locality" _) && strict_ne _ _) eqn:Hl.
  - rewrite (truthy_differing n _ Hl).
    destruct (context_text "locality" _) as [l|]; done.
  - rewrite (not_truthy_differing n _ Hl).
    destruct (truthy (context_text "region" _) && strict_ne _ _) eqn:Hr.
    + rewrite (truthy_differing n _ Hr).
      destruct (context_text "region" _) as [r|]; done.
    + rewrite (not_truthy_differing n _ Hr).
      unfold or_else at 1, truthy.
      by rewrite (proj2 (String.eqb_neq n EmptyString) Hne).
Qed.

(** C7, as the code has it.  The label is composed from the first
    candidate of the first priority type that has one; when no candidate
    has a priority type it is the name of the first candidate, provided
    that one is not an address, and the coordinate string otherwise (an
    address in first place hides the candidates after it); the coordinate
    string is also the label of an answer without candidates and of a
    failed request. *)
Theorem reverse_label_policy (answer : fetched) (lat lng : Q) :
  (forall features f,
      answer = Body (Some features) ->
      preferred priorityTypes features f -> name f <> EmptyString ->
      label_of answer lat lng = composed f)
  /\ (forall first rest,
        answer = Body (Some (first :: rest)) ->
        none_preferred priorityTypes (first :: rest) ->
        (has_type "address" first = false -> name first <> EmptyString ->
         label_of answer lat lng = name first)
        /\ (has_type "address" first = true ->
            label_of answer lat lng = near lat lng))
  /\ (answer = FetchThrows \/ answer = Body None \/ answer = Body (Some []) ->
      label_of answer lat lng = near lat lng).
Proof.
  split_and!.
  - intros features f -> Hpref Hname.
    pose proof (first_of_priority_preferred _ _ _ Hpref) as Hfirst.
    destruct features as [|first rest].
    { destruct Hpref as (i & type & _ & Hfind & _). done. }
    unfold label_of. rewrite Hfirst. by apply area_label_composed.
  - intros first rest -> Hnone. unfold label_of.
    rewrite (first_of_priority_none _ _ Hnone). split.
    + intros -> Hname. cbn [negb]. unfold or_else, truthy, name in *.
      destruct (text first) as [n|]; [|done]. cbn [default from_option id] in Hname.
      by rewrite (proj2 (String.eqb_neq n EmptyString) Hname).
    + by intros ->.
  - by intros [-> | [-> | ->]].
Qed.

End LabelClaims.

(** The theorem on an answer whose second candidate is a neighbourhood. *)
Lemma reverse_label_mission_witness :
  Resolver.label_of
    (Resolver.Body (Some [Sample.valencia_street; Sample.mission]))
    (parseFloat (3777 # 100)) (parseFloat (-12242 # 100))
  = "Mission District / California".
Proof.
  destruct (reverse_label_policy
              (Resolver.Body (Some [Sample.valencia_street; Sample.mission]))
              (parseFloat (3777 # 100)) (parseFloat (-12242 # 100))) as (H & _).
  rewrite (H [Sample.valencia_street; Sample.mission] Sample.mission).
  - vm_compute. reflexivity.
  - reflexivity.
  - exists 0%nat, "neighborhood". split; [reflexivity|]. split; [reflexivity|].
    intros j earlier Hj. lia.
  - vm_compute. discriminate.
Defined.

(** C7 as stated fails: when the first candidate is an address and no
    candidate has a priority type, the label is the coordinate string,
    not the name of the first candidate that is not an address. *)
Lemma reverse_label_counterexample :
  Resolver.label_of
    (Resolver.Body (Some [Sample.valencia_street; Sample.postcode_94103]))
    (parseFloat (3777 # 100)) (parseFloat (-12242 # 100))
  = "Near 37.77, -122.42"
  /\ LabelSpec.stated_label [Sample.valencia_street; Sample.postcode_94103]
       (parseFloat (3777 # 100)) (parseFloat (-12242 # 100))
     = "94103"
  /\ Resolver.label_of
       (Resolver.Body (Some [Sample.valencia_street; Sample.postcode_94103]))
       (parseFloat (3777 # 100)) (parseFloat (-12242 # 100))
     <> LabelSpec.stated_label [Sample.valencia_street; Sample.postcode_94103]
          (parseFloat (3777 # 100)) (parseFloat (-12242 # 100)).
Proof. split_and!; vm_compute; [reflexivity|reflexivity|discriminate]. Qed.

(** * Further properties of the code *)

(** ** The report of the insight engine *)

Module ReportFacts.
Import Num Insights Spec ReportSpec AggregatorFacts EngineFacts NumeralFacts ConcentrationFacts FloatFacts.
Local Open Scope Q_scope.

Lemma fmap_zip_with_l {A B C D} (f : C -> D) (z : A -> B -> C) (g : A -> D)
    (l : list A) (k : list B) :
  length k = length l -> (forall a b, f (z a b) = g a) ->
  f <$> zip_with z l k = g <$> l.
Proof.
  intros Hlen Hf. revert k Hlen.
  induction l as [|a l IH]; intros [|b k] Hlen; simpl in *; try done.
  rewrite Hf. f_equal. apply IH. lia.
Qed.

Lemma count_desc_total (a b : grid_cell) :
  count_desc a b = false -> count_desc b a = true.
Proof. unfold count_desc. rewrite Nat.leb_gt, Nat.leb_le. lia. Qed.

Lemma count_desc_trans (a b c : grid_cell) :
  count_desc a b = true -> count_desc b c = true -> count_desc a c = true.
Proof. unfold count_desc. rewrite !Nat.leb_le. lia. Qed.

(** In a sorted list, what [take] leaves out is ranked after what it
    keeps. *)
Lemma StronglySorted_take_drop {A} (R : A -> A -> Prop) (n : nat) (l : list A)
    (x y : A) :
  StronglySorted R l -> x ∈ take n l -> y ∈ drop n l -> R x y.
Proof.
  intros Hs. revert n. induction Hs as [|z zs Hs IH Hz]; intros n Hx Hy.
  - rewrite take_nil in Hx. by apply elem_of_nil in Hx.
  - destruct n as [|n]; [by apply elem_of_nil in Hx|].
    cbn [take drop] in Hx, Hy. apply elem_of_cons in Hx as [->|Hx].
    + rewrite Forall_forall in Hz. apply Hz.
      by eapply (subseteq_drop n zs).
    + by eapply IH.
Qed.

Lemma omap_none {A B} (f : A -> option B) (l : list A) :
  (forall x, x ∈ l -> f x = None) -> omap f l = [].
Proof.
  induction l as [|x l IH]; intros H; [done|]. cbn [omap list_omap].
  rewrite (H x) by apply list_elem_of_here. apply IH.
  intros y Hy. apply H. by apply list_elem_of_further.
Qed.

Lemma is_dense_true (dense : list grid_cell) (c : grid_cell) :
  c ∈ dense -> is_dense dense c = true.
Proof.
  intros Hc. unfold is_dense. apply existsb_exists. exists c.
  split; [by apply list_elem_of_In|]. by apply key_eqb_eq.
Qed.

Lemma key_text_inj (k k' : Z * Z) : key_text k = key_text k' -> k = k'.
Proof.
  destruct k as [a b], k' as [a' b']. unfold key_text. cbn [fst snd]. intros H.
  pose proof (cell_id_inj
                {| cell_lat := a; cell_lng := b; count := 0; center_lat := 0;
                   center_lng := 0; total_customers := 0 |}
                {| cell_lat := a'; cell_lng := b'; count := 0; center_lat := 0;
                   center_lng := 0; total_customers := 0 |} H) as [H1 H2].
  simpl in *. congruence.
Qed.

Lemma NoDup_fmap_inj {A B} (f : A -> B) (l : list A) :
  (forall x y, f x = f y -> x = y) -> NoDup l -> NoDup (f <$> l).
Proof.
  intros Hf. induction 1 as [|x l Hx Hl IH]; [constructor|].
  rewrite fmap_cons. constructor; [|done].
  intros Hin. apply list_elem_of_fmap in Hin as (y & Hy & Hyl).
  apply Hf in Hy as ->. done.
Qed.


(** *** Rounding to a cell *)

Lemma Qsum_cons (x : Q) (l : list Q) : Qsum (x :: l) = x + Qsum l.
Proof. done. Qed.

(** The sum of numbers that are all on one side of a bound. *)
Lemma Qsum_ge (a : Q) (l : list Q) :
  Forall (fun x => a <= x) l -> a * inject_Z (Z.of_nat (length l)) <= Qsum l.
Proof.
  induction 1 as [|x l Hx Hl IH]; [change (inject_Z (Z.of_nat (length (@nil Q)))) with 0; change (Qsum []) with 0; lra|].
  rewrite Qsum_cons. cbn [length]. rewrite Nat2Z.inj_succ, <- Z.add_1_r, inject_Z_plus.
  change (inject_Z 1) with 1. lra.
Qed.

Lemma Qsum_gt (a : Q) (l : list Q) :
  l <> [] -> Forall (fun x => a < x) l -> a * inject_Z (Z.of_nat (length l)) < Qsum l.
Proof.
  intros Hne H. induction H as [|x l Hx Hl IH]; [done|].
  rewrite Qsum_cons. cbn [length]. rewrite Nat2Z.inj_succ, <- Z.add_1_r, inject_Z_plus.
  change (inject_Z 1) with 1.
  destruct l as [|y l];
    [change (inject_Z (Z.of_nat (length (@nil Q)))) with 0; change (Qsum []) with 0; lra|].
  assert (a * inject_Z (Z.of_nat (length (y :: l))) < Qsum (y :: l)) by (by apply IH).
  lra.
Qed.

Lemma Qsum_le (b : Q) (l : list Q) :
  Forall (fun x => x <= b) l -> Qsum l <= b * inject_Z (Z.of_nat (length l)).
Proof.
  induction 1 as [|x l Hx Hl IH]; [change (inject_Z (Z.of_nat (length (@nil Q)))) with 0; change (Qsum []) with 0; lra|].
  rewrite Qsum_cons. cbn [length]. rewrite Nat2Z.inj_succ, <- Z.add_1_r, inject_Z_plus.
  change (inject_Z 1) with 1. lra.
Qed.

Lemma Qsum_lt (b : Q) (l : list Q) :
  l <> [] -> Forall (fun x => x < b) l -> Qsum l < b * inject_Z (Z.of_nat (length l)).
Proof.
  intros Hne H. induction H as [|x l Hx Hl IH]; [done|].
  rewrite Qsum_cons. cbn [length]. rewrite Nat2Z.inj_succ, <- Z.add_1_r, inject_Z_plus.
  change (inject_Z 1) with 1.
  destruct l as [|y l];
    [change (inject_Z (Z.of_nat (length (@nil Q)))) with 0; change (Qsum []) with 0; lra|].
  assert (Qsum (y :: l) < b * inject_Z (Z.of_nat (length (y :: l)))) by (by apply IH).
  lra.
Qed.

(** The numbers that [ROUND] takes to [k] hundredths: an interval that is
    closed on the side away from zero. *)
Lemma ROUND2_spec (v : Q) (k : Z) :
  ROUND2 v = k
  <-> (if (0 <? k)%Z then inject_Z k - (1 # 2) <= v * 100
       else inject_Z k - (1 # 2) < v * 100)
      /\ (if (k <? 0)%Z then v * 100 <= inject_Z k + (1 # 2)
          else v * 100 < inject_Z k + (1 # 2)).
Proof.
  unfold ROUND2.
  assert (Hsign : (Qnum v <? 0)%Z = true <-> v < 0).
  { rewrite Z.ltb_lt. unfold Qlt. simpl. lia. }
  destruct (Qnum v <? 0)%Z eqn:Hv.
  - assert (Hneg : v < 0) by (by apply Hsign).
    pose proof (Qfloor_le (- v * 100 + (1 # 2))) as Hlo.
    pose proof (Qlt_floor (- v * 100 + (1 # 2))) as Hhi.
    rewrite inject_Z_plus in Hhi. change (inject_Z 1) with 1 in Hhi.
    set (f := Qfloor (- v * 100 + (1 # 2))) in *.
    assert (Hf : (0 <= f)%Z).
    { unfold f. change 0%Z with (Qfloor 0). apply Qfloor_resp_le. lra. }
    split.
    + intros <-. rewrite inject_Z_opp. clearbody f.
      destruct (0 <? - f)%Z eqn:H1; [apply Z.ltb_lt in H1; lia|].
      destruct (- f <? 0)%Z eqn:H2; [split; lra|].
      apply Z.ltb_ge in H2. assert (f = 0%Z) as -> by lia.
      change (inject_Z 0) with 0 in *. split; lra.
    + intros [H1 H2].
      destruct (0 <? k)%Z eqn:Hk.
      * apply Z.ltb_lt in Hk. assert (1 <= inject_Z k).
        { change 1 with (inject_Z 1). rewrite <- Zle_Qle. lia. }
        lra.
      * apply Z.ltb_ge in Hk.
        assert (Hfk : f = (- k)%Z); [|lia].
        apply Qfloor_unique.
        -- rewrite inject_Z_opp. destruct (k <? 0)%Z eqn:Hk0; [lra|].
           apply Z.ltb_ge in Hk0. assert (k = 0%Z) as -> by lia.
           change (inject_Z 0) with 0. lra.
        -- rewrite inject_Z_plus, inject_Z_opp. change (inject_Z 1) with 1. lra.
  - assert (Hpos : 0 <= v).
    { destruct (Qlt_le_dec v 0) as [H|H]; [|done]. apply Hsign in H. congruence. }
    pose proof (Qfloor_le (v * 100 + (1 # 2))) as Hlo.
    pose proof (Qlt_floor (v * 100 + (1 # 2))) as Hhi.
    rewrite inject_Z_plus in Hhi. change (inject_Z 1) with 1 in Hhi.
    set (f := Qfloor (v * 100 + (1 # 2))) in *.
    assert (Hf : (0 <= f)%Z).
    { unfold f. change 0%Z with (Qfloor 0). apply Qfloor_resp_le. lra. }
    split.
    + intros <-. clearbody f.
      destruct (f <? 0)%Z eqn:H2; [apply Z.ltb_lt in H2; lia|].
      destruct (0 <? f)%Z eqn:H1; [split; lra|].
      apply Z.ltb_ge in H1. assert (f = 0%Z) as -> by lia.
      change (inject_Z 0) with 0 in *. split; lra.
    + intros [H1 H2].
      destruct (k <? 0)%Z eqn:Hk.
      * apply Z.ltb_lt in Hk. assert (inject_Z k <= -1).
        { change (-1) with (inject_Z (-1)). rewrite <- Zle_Qle. lia. }
        lra.
      * apply Z.ltb_ge in Hk. apply Qfloor_unique.
        -- destruct (0 <? k)%Z eqn:Hk0; [lra|].
           apply Z.ltb_ge in Hk0. assert (k = 0%Z) as -> by lia.
           change (inject_Z 0) with 0. lra.
        -- rewrite inject_Z_plus. change (inject_Z 1) with 1. lra.
Qed.

(** The mean of numbers of one cell is in the cell. *)
Lemma ROUND2_mean (k : Z) (l : list Q) (m : Q) :
  l <> [] -> Forall (fun x => ROUND2 x = k) l -> m == mean l -> ROUND2 m = k.
Proof.
  intros Hne Hall Hm. unfold mean in Hm.
  assert (Hn : 0 < inject_Z (Z.of_nat (length l))).
  { change 0 with (inject_Z 0). rewrite <- Zlt_Qlt.
    destruct l; [done|simpl; lia]. }
  assert (Hsum : m * inject_Z (Z.of_nat (length l)) == Qsum l).
  { rewrite Hm. field. lra. }
  apply ROUND2_spec. split.
  - destruct (0 <? k)%Z eqn:Hk.
    + assert (H : ((inject_Z k - (1 # 2)) * (1 # 100)) * inject_Z (Z.of_nat (length l))
                  <= Qsum l).
      { apply Qsum_ge. eapply Forall_impl; [exact Hall|]. intros x Hx.
        apply ROUND2_spec in Hx as [Hx _]. rewrite Hk in Hx. lra. }
      set (n := inject_Z (Z.of_nat (length l))) in *. clearbody n.
      assert (0 <= (m * 100 - (inject_Z k - (1 # 2))) * n) by lra.
      nra.
    + assert (H : ((inject_Z k - (1 # 2)) * (1 # 100)) * inject_Z (Z.of_nat (length l))
                  < Qsum l).
      { apply Qsum_gt; [done|]. eapply Forall_impl; [exact Hall|]. intros x Hx.
        apply ROUND2_spec in Hx as [Hx _]. rewrite Hk in Hx. lra. }
      set (n := inject_Z (Z.of_nat (length l))) in *. clearbody n.
      assert (0 < (m * 100 - (inject_Z k - (1 # 2))) * n) by lra.
      nra.
  - destruct (k <? 0)%Z eqn:Hk.
    + assert (H : Qsum l
                  <= ((inject_Z k + (1 # 2)) * (1 # 100)) * inject_Z (Z.of_nat (length l))).
      { apply Qsum_le. eapply Forall_impl; [exact Hall|]. intros x Hx.
        apply ROUND2_spec in Hx as [_ Hx]. rewrite Hk in Hx. lra. }
      set (n := inject_Z (Z.of_nat (length l))) in *. clearbody n.
      assert (0 <= (inject_Z k + (1 # 2) - m * 100) * n) by lra.
      nra.
    + assert (H : Qsum l
                  < ((inject_Z k + (1 # 2)) * (1 # 100)) * inject_Z (Z.of_nat (length l))).
      { apply Qsum_lt; [done|]. eapply Forall_impl; [exact Hall|]. intros x Hx.
        apply ROUND2_spec in Hx as [_ Hx]. rewrite Hk in Hx. lra. }
      set (n := inject_Z (Z.of_nat (length l))) in *. clearbody n.
      assert (0 < (inject_Z k + (1 # 2) - m * 100) * n) by lra.
      nra.
Qed.


(** *** Binary64 values of small integers *)

Lemma binary64_ge_Z (q : Q) (N : Z) :
  0 < q -> inject_Z N <= q -> q < inject_Z (2 ^ 53) -> inject_Z N <= binary64 q.
Proof.
  intros Hpos HN Hbig. rewrite binary64_of_pos by done. unfold binary64_pos.
  destruct (ilog2_spec q Hpos) as [Hlo _].
  assert (He : (ilog2 q < 53)%Z).
  { destruct (Z_lt_le_dec (ilog2 q) 53) as [|Hge]; [done|].
    pose proof (pow2_le 53 (ilog2 q) Hge) as H53.
    rewrite (pow2_Z 53) in H53 by lia. lra. }
  set (s := Z.min (52 - ilog2 q) 1074).
  assert (Hs : (0 <= s)%Z) by (unfold s; lia).
  pose proof (pow2_pos s) as Hps. pose proof (pow2_pos (- s)) as Hpn.
  assert (Hm : (N * 2 ^ s <= round_half_even (q * pow2 s))%Z).
  { apply round_half_even_ge. rewrite inject_Z_mult, <- (pow2_Z s Hs).
    apply Qmult_le_compat_r; lra. }
  rewrite Zle_Qle, inject_Z_mult, <- (pow2_Z s Hs) in Hm.
  assert (E : inject_Z N == inject_Z N * pow2 s * pow2 (- s)).
  { rewrite <- Qmult_assoc, pow2_cancel. ring. }
  rewrite E. apply Qmult_le_compat_r; lra.
Qed.

(** A positive integer below [2^53] is a binary64 value. *)
Lemma binary64_Z (q : Q) (N : Z) :
  (0 < N < 2 ^ 53)%Z -> q == inject_Z N -> binary64 q == inject_Z N.
Proof.
  intros [HN0 HN] Hq.
  assert (0 < inject_Z N) by (change 0 with (inject_Z 0); by rewrite <- Zlt_Qlt).
  assert (inject_Z N < inject_Z (2 ^ 53)) by (by rewrite <- Zlt_Qlt).
  apply Qle_antisym.
  - apply binary64_le_Z; [lra|lra|done].
  - apply binary64_ge_Z; lra.
Qed.

Lemma binary64_nonpos (q : Q) : q <= 0 -> binary64 q <= 0.
Proof.
  intros Hq. destruct (binary64_opp q) as [H|H].
  - pose proof (binary64_nonneg (- q)) as Hn. rewrite H in Hn. lra.
  - rewrite (binary64_of_zero q H). lra.
Qed.

(** Rounding to binary64 does not cross a small non-negative integer. *)
Lemma binary64_below (q : Q) (N : Z) :
  q <= inject_Z N -> (0 <= N < 2 ^ 53)%Z -> binary64 q <= inject_Z N.
Proof.
  intros Hq [HN0 HN].
  assert (0 <= inject_Z N) by (change 0 with (inject_Z 0); by rewrite <- Zle_Qle).
  destruct (Qlt_le_dec q 0) as [Hneg|Hpos].
  - pose proof (binary64_nonpos q). lra.
  - by apply binary64_le_Z.
Qed.

(** When the top three cells hold all the customers the share is 100. *)
Lemma concentration_full (total : Z) : (0 < total)%Z -> concentration total total = 100%Z.
Proof.
  intros Ht. unfold concentration. rewrite (proj2 (Z.ltb_lt 0 total)) by done.
  unfold js_mul, js_div, Math_round.
  assert (H0 : 0 < inject_Z total) by (change 0 with (inject_Z 0); by rewrite <- Zlt_Qlt).
  assert (H1 : binary64 (inject_Z total / inject_Z total) == inject_Z 1).
  { apply binary64_Z; [lia|]. change (inject_Z 1) with 1. field. lra. }
  assert (H2 : binary64 (binary64 (inject_Z total / inject_Z total) * 100) == inject_Z 100).
  { apply binary64_Z; [lia|]. rewrite H1. reflexivity. }
  apply Qfloor_unique; rewrite H2; [done|done].
Qed.

(** *** Customers *)

Lemma customers_all_rows (uploadId : string) (rows : list Row.t) :
  StoreSpec.coordinates_when_success uploadId rows ->
  Zsum (customers <$> successful_rows uploadId rows) = total_customer_count uploadId rows.
Proof.
  unfold total_customer_count, successful_rows.
  induction 1 as [|r rs Hr Hrs IH]; [done|].
  cbn [omap list_omap List.filter]. refold_fmap.
  destruct (geocoded uploadId r) as [p|] eqn:Hp.
  - destruct (geocoded_row uploadId r p Hp) as [Hs Hc].
    rewrite Hs, !fmap_cons, !Zsum_cons, Hc. by rewrite <- IH.
  - destruct (successfully_geocoded uploadId r) eqn:Hs; [|exact IH].
    exfalso. destruct (Hr eq_refl) as [[la Hla] [ln Hln]].
    unfold geocoded in Hp. fold (successfully_geocoded uploadId r) in Hp.
    by rewrite Hs, Hla, Hln in Hp.
Qed.

Lemma filter_all {A} (p : A -> bool) (l : list A) :
  (forall x, x ∈ l -> p x = true) -> List.filter p l = l.
Proof.
  induction l as [|x l IH]; intros H; [done|]. cbn [List.filter].
  rewrite (H x) by apply list_elem_of_here. f_equal. apply IH.
  intros y Hy. apply H. by apply list_elem_of_further.
Qed.


(** *** The distance of a report and the radius of the highlight *)

Lemma round1_le_3 (d : Q) : d <= 3 -> round1 d <= 3.
Proof.
  intros Hd. unfold round1, js_div, js_mul, parseFloat, Math_round.
  set (x1 := binary64 d).
  assert (Hx1 : x1 <= 3).
  { change 3 with (inject_Z 3). apply binary64_below; [done|lia]. }
  set (y := binary64 (x1 * 10)).
  assert (Hy : y <= 30).
  { change 30 with (inject_Z 30). apply binary64_below; [|lia].
    change (inject_Z 30) with 30. lra. }
  assert (Hn : (Qfloor (y + (1 # 2)) <= 30)%Z).
  { change 30%Z with (Qfloor (30 + (1 # 2))). apply Qfloor_resp_le. lra. }
  change 3 with (inject_Z 3). apply binary64_below; [|lia].
  rewrite Zle_Qle in Hn. change (inject_Z 30) with 30 in Hn.
  change (inject_Z 3) with 3.
  apply Qle_shift_div_r; [done|]. lra.
Qed.

Lemma round1_nonneg (d : Q) : 0 <= d -> 0 <= round1 d.
Proof.
  intros Hd. unfold round1, js_div, js_mul, parseFloat, Math_round.
  apply binary64_nonneg.
  assert (H1 : 0 <= binary64 d) by (by apply binary64_nonneg).
  assert (H2 : 0 <= binary64 (binary64 d * 10)) by (apply binary64_nonneg; lra).
  assert (Hn : (0 <= Qfloor (binary64 (binary64 d * 10) + (1 # 2)))%Z).
  { change 0%Z with (Qfloor 0). apply Qfloor_resp_le. lra. }
  rewrite Zle_Qle in Hn. change (inject_Z 0) with 0 in Hn.
  apply Qle_shift_div_l; [done|]. lra.
Qed.

(** The radius in terms of the ceiling of the distance. *)
Lemma radius_cases (a : WhiteSpaceArea.t) :
  let k := Qceiling (WhiteSpaceArea.distanceKm a) in
  ((k <= 0)%Z /\ radius a = (1 # 2))
  \/ (k = 1%Z /\ radius a = 1)
  \/ (k = 2%Z /\ radius a = 2)
  \/ ((3 <= k)%Z /\ radius a = 3).
Proof.
  intros k. unfold radius, Math_ceil. fold k.
  destruct (Z_le_gt_dec k 0%Z) as [H0|H0].
  { left. split; [done|]. unfold Math_max.
    destruct (Qle_bool (1 # 2) (inject_Z k)) eqn:Hle; [|done].
    apply Qle_bool_iff in Hle.
    assert (inject_Z k <= 0) by (change 0 with (inject_Z 0); by rewrite <- Zle_Qle).
    lra. }
  right. destruct (Z.eq_dec k 1%Z) as [->|H1]; [by left|].
  right. destruct (Z.eq_dec k 2%Z) as [->|H2]; [by left|].
  right. split; [lia|].
  assert (Hk : 3 <= inject_Z k) by (change 3 with (inject_Z 3); rewrite <- Zle_Qle; lia).
  unfold Math_max.
  rewrite (proj2 (Qle_bool_iff (1 # 2) (inject_Z k))) by lra.
  unfold Math_min. by rewrite (proj2 (Qle_bool_iff 3 (inject_Z k))).
Qed.

Lemma zoomLevel_cases (x : Q) :
  (x <= 1 /\ Client.zoomLevel x = 14%Z)
  \/ (1 < x /\ x <= 2 /\ Client.zoomLevel x = 13%Z)
  \/ (2 < x /\ Client.zoomLevel x = 12%Z).
Proof.
  unfold Client.zoomLevel.
  destruct (Qle_bool x 1) eqn:H1.
  { left. by apply Qle_bool_iff in H1. }
  apply Qle_bool_false in H1. right.
  destruct (Qle_bool x 2) eqn:H2.
  { left. by apply Qle_bool_iff in H2. }
  apply Qle_bool_false in H2. by right.
Qed.

(** *** Labels are never empty *)

Lemma append_nonempty_l (a b : string) : a <> EmptyString -> a +:+ b <> EmptyString.
Proof. by destruct a. Qed.

Lemma append_nonempty_r (a b : string) : b <> EmptyString -> a +:+ b <> EmptyString.
Proof. destruct a; [done|]. by intros _. Qed.

Lemma toFixed2_nonempty (x : Q) : toFixed2 x <> EmptyString.
Proof.
  unfold toFixed2, hundredths.
  destruct (Qnum x <? 0)%Z; [by apply append_nonempty_l|].
  by apply append_nonempty_r, append_nonempty_l.
Qed.

Lemma coordinates_nonempty (lat lng : Q) : Resolver.coordinates lat lng <> EmptyString.
Proof. apply append_nonempty_l, toFixed2_nonempty. Qed.

Lemma or_else_nonempty (a : option string) (b : string) :
  b <> EmptyString -> Resolver.or_else a b <> EmptyString.
Proof.
  intros Hb. unfold Resolver.or_else, Resolver.truthy, Resolver.interpolate.
  destruct a as [s|]; [|done].
  destruct (String.eqb s EmptyString) eqn:Hs; [done|].
  by apply String.eqb_neq in Hs.
Qed.

Lemma label_of_nonempty (answer : Resolver.fetched) (lat lng : Q) :
  Resolver.label_of answer lat lng <> EmptyString.
Proof.
  assert (Hnear : Resolver.near lat lng <> EmptyString) by done.
  unfold Resolver.label_of.
  destruct answer as [|[[|firstFeature rest]|]]; try done.
  destruct (Resolver.first_of_priority _ _) as [f|].
  - unfold Resolver.area_label.
    destruct (_ && _); [by apply append_nonempty_r, append_nonempty_l|].
    destruct (_ && _); [by apply append_nonempty_r, append_nonempty_l|].
    apply or_else_nonempty, or_else_nonempty, coordinates_nonempty.
  - destruct (negb _); [|done].
    apply or_else_nonempty, coordinates_nonempty.
Qed.

Section WithProvider.
Variable ST_Distance : Q * Q -> Q * Q -> Q.
Variable provider : Q -> Q -> Resolver.fetched.

(** The report in closed form: the labels of the dense areas are looked up
    in the empty memo, those of the whitespace areas in the memo that the
    dense areas leave behind. *)
Lemma insights_unfold (uploadId : string) (rows : list Row.t) :
  let dense := denseAreasResult uploadId rows in
  let white := whiteSpaceResult ST_Distance uploadId rows in
  let st1 := (label_all provider (center_of <$> dense)
                {| geocodeCache := ∅; issued := [] |}).2 in
  (insights ST_Distance provider uploadId rows).1
  = {| topDenseAreas :=
         zip_with dense_area dense (getLabel provider ∅ <$> (center_of <$> dense));
       concentrationPercent :=
         concentration (customersInTop3 dense) (totalCustomersResult uploadId rows);
       whiteSpaceAreas :=
         zip_with white_space_area white
           (getLabel provider (geocodeCache st1) <$> ((center_of ∘ cand_cell) <$> white)) |}.
Proof.
  intros dense white st1. unfold insights. fold dense. fold white.
  unfold label_all at 1. cbn [geocodeCache issued].
  unfold label_all in st1. cbn [geocodeCache issued snd] in st1. fold st1.
  destruct (0 <? length _)%nat eqn:Hpos.
  - unfold label_all. cbn [fst]. done.
  - cbn [fst]. apply Nat.ltb_ge in Hpos.
    rewrite length_zip_with, !length_fmap, Nat.min_id in Hpos.
    assert (Hnil : dense = []) by (destruct dense; [done|simpl in Hpos; lia]).
    assert (Hw : white = []).
    { unfold white, whiteSpaceResult. fold dense. rewrite Hnil.
      by rewrite whitespace_candidates_no_dense. }
    by rewrite Hw.
Qed.

Lemma dense_cellIds (uploadId : string) (rows : list Row.t) :
  DenseArea.cellId <$> topDenseAreas (insights ST_Distance provider uploadId rows).1
  = cell_id <$> denseAreasResult uploadId rows.
Proof.
  rewrite insights_unfold. cbn [topDenseAreas].
  apply fmap_zip_with_l; [by rewrite !length_fmap|done].
Qed.

Lemma dense_counts (uploadId : string) (rows : list Row.t) :
  DenseArea.count <$> topDenseAreas (insights ST_Distance provider uploadId rows).1
  = (Z.of_nat ∘ count) <$> denseAreasResult uploadId rows.
Proof.
  rewrite insights_unfold. cbn [topDenseAreas].
  apply fmap_zip_with_l; [by rewrite !length_fmap|done].
Qed.

Lemma white_cellIds (uploadId : string) (rows : list Row.t) :
  WhiteSpaceArea.cellId <$> whiteSpaceAreas (insights ST_Distance provider uploadId rows).1
  = (cell_id ∘ cand_cell) <$> whiteSpaceResult ST_Distance uploadId rows.
Proof.
  rewrite insights_unfold. cbn [whiteSpaceAreas].
  apply fmap_zip_with_l; [by rewrite !length_fmap|done].
Qed.

Lemma white_distances (uploadId : string) (rows : list Row.t) :
  WhiteSpaceArea.distanceKm <$> whiteSpaceAreas (insights ST_Distance provider uploadId rows).1
  = (round1 ∘ cand_distance_km) <$> whiteSpaceResult ST_Distance uploadId rows.
Proof.
  rewrite insights_unfold. cbn [whiteSpaceAreas].
  apply fmap_zip_with_l; [by rewrite !length_fmap|done].
Qed.

Lemma denseAreasResult_sorted (uploadId : string) (rows : list Row.t) :
  StronglySorted (fun a b => count_desc a b = true) (denseAreasResult uploadId rows).
Proof.
  apply StronglySorted_take, order_by_sorted;
    [apply count_desc_total|apply count_desc_trans].
Qed.

(** With at most three cells every cell is a dense cell. *)
Lemma few_cells_dense (uploadId : string) (rows : list Row.t) :
  (length (grid_cells uploadId rows) <= 3)%nat ->
  denseAreasResult uploadId rows ≡ₚ grid_cells uploadId rows.
Proof.
  intros Hlen. unfold denseAreasResult.
  rewrite take_ge by (by rewrite order_by_length). apply order_by_perm.
Qed.

Lemma few_cells_no_candidate (uploadId : string) (rows : list Row.t) :
  (length (grid_cells uploadId rows) <= 3)%nat ->
  whiteSpaceResult ST_Distance uploadId rows = [].
Proof.
  intros Hlen. unfold whiteSpaceResult, whitespace_candidates.
  rewrite omap_none; [done|]. intros c Hc.
  unfold whitespace_candidate.
  rewrite is_dense_true by (by rewrite few_cells_dense).
  by rewrite andb_false_r.
Qed.

(** The keys of the whitespace rows are keys of cells, each once. *)
Lemma whiteSpaceResult_keys_nodup (uploadId : string) (rows : list Row.t) :
  NoDup ((key_of ∘ cand_cell) <$> whiteSpaceResult ST_Distance uploadId rows).
Proof.
  unfold whiteSpaceResult. rewrite fmap_take.
  eapply sublist_NoDup; [|apply sublist_take].
  rewrite (order_by_perm distance_asc _).
  assert (Hsub : forall dense cells,
             sublist ((key_of ∘ cand_cell) <$> whitespace_candidates ST_Distance cells dense)
                     (key_of <$> cells)).
  { intros dense cells. induction cells as [|c cs IH]; [done|].
    unfold whitespace_candidates in *. cbn [omap list_omap]. refold_fmap.
    destruct (whitespace_candidate ST_Distance dense c) as [r|] eqn:Hr.
    - apply whitespace_candidate_spec in Hr as (Hr & _).
      rewrite !fmap_cons. cbn [compose]. rewrite Hr. by apply sublist_skip.
    - rewrite fmap_cons. by apply sublist_cons. }
  eapply sublist_NoDup; [|apply Hsub].
  rewrite grid_cells_keys.
  apply (group_by_cell_grouped (successful_rows uploadId rows)).
Qed.


(** What the memo holds after a batch was stored. *)
Lemma stored_labels_Some (cache : gmap string string) (pending : list center)
    (k label : string) :
  foldl (fun m c => <[cache_key c := reverseGeocode provider (lat c) (lng c)]> m)
        cache pending !! k = Some label ->
  cache !! k = Some label
  \/ exists c, c ∈ pending /\ cache_key c = k
                /\ label = reverseGeocode provider (lat c) (lng c).
Proof.
  revert cache. induction pending as [|c cs IH]; intros cache; [by left|].
  cbn [foldl]. intros H. apply IH in H as [H|(c' & Hc' & Hk & Hl)].
  - destruct (decide (cache_key c = k)) as [Hk|Hk].
    + rewrite Hk, lookup_insert_eq in H. injection H as <-.
      right. exists c. split; [apply list_elem_of_here|done].
    + rewrite lookup_insert_ne in H by done. by left.
  - right. exists c'. split; [by apply list_elem_of_further|done].
Qed.

Lemma filter_missed_empty (centers : list center) :
  List.filter (missed ∅) centers = centers.
Proof.
  apply filter_all. intros c _. unfold missed.
  by rewrite lookup_empty, bool_decide_eq_true_2.
Qed.

Lemma zip_with_fmap_r {A B C} (z : A -> B -> C) (f : A -> B) (l : list A) :
  zip_with z l (f <$> l) = (fun a => z a (f a)) <$> l.
Proof.
  induction l as [|a l IH]; [done|].
  rewrite !fmap_cons. cbn [zip_with]. by rewrite IH.
Qed.

(** The areas of the report, row by row. *)
Lemma insights_areas (uploadId : string) (rows : list Row.t) :
  let dense := denseAreasResult uploadId rows in
  let white := whiteSpaceResult ST_Distance uploadId rows in
  let memo := foldl (fun m c => <[cache_key c := reverseGeocode provider (lat c) (lng c)]> m)
                    ∅ (center_of <$> dense) in
  topDenseAreas (insights ST_Distance provider uploadId rows).1
  = (fun c => dense_area c (reverseGeocode provider (lat (center_of c)) (lng (center_of c))))
    <$> dense
  /\ whiteSpaceAreas (insights ST_Distance provider uploadId rows).1
     = (fun r => white_space_area r (getLabel provider memo (center_of (cand_cell r))))
       <$> white.
Proof.
  intros dense white memo. rewrite insights_unfold. cbn [topDenseAreas whiteSpaceAreas].
  fold dense. fold white. split.
  - rewrite <- list_fmap_compose, zip_with_fmap_r.
    apply list_fmap_ext. intros _ c _. cbn [compose]. unfold getLabel.
    by rewrite lookup_empty.
  - rewrite <- list_fmap_compose, zip_with_fmap_r.
    unfold label_all. cbn [snd geocodeCache]. by rewrite filter_missed_empty.
Qed.

End WithProvider.
End ReportFacts.

Section ReportProperties.
Import Num Insights Spec ReportSpec AggregatorFacts EngineFacts NumeralFacts ConcentrationFacts ReportFacts.
Local Open Scope Q_scope.

Variable ST_Distance : Q * Q -> Q * Q -> Q.
Variable provider : Q -> Q -> Resolver.fetched.

(** X1.  The dense areas of a report are the cells with the most points:
    there are as many as there are cells, up to three; their counts never
    increase along the list; and no cell that is left out has more points
    than a cell that is listed. *)
Theorem dense_areas_are_the_densest (uploadId : string) (rows : list Row.t) :
  let report := (insights ST_Distance provider uploadId rows).1 in
  let cells := grid_cells uploadId rows in
  length (topDenseAreas report) = Nat.min 3 (length cells)
  /\ StronglySorted Z.ge (DenseArea.count <$> topDenseAreas report)
  /\ (forall c n, c ∈ cells ->
        cell_id c ∉ DenseArea.cellId <$> topDenseAreas report ->
        n ∈ DenseArea.count <$> topDenseAreas report ->
        (Z.of_nat (count c) <= n)%Z).
Proof.
  intros report cells. unfold report. split; [|split].
  - rewrite <- (length_fmap DenseArea.cellId), dense_cellIds, length_fmap.
    unfold denseAreasResult. by rewrite length_take, order_by_length.
  - rewrite dense_counts.
    eapply StronglySorted_fmap; [|apply denseAreasResult_sorted].
    intros a b. unfold count_desc. rewrite Nat.leb_le. simpl. lia.
  - intros c n Hc Hid Hn. rewrite dense_cellIds in Hid. rewrite dense_counts in Hn.
    apply list_elem_of_fmap in Hn as (d & -> & Hd).
    assert (Hout : c ∈ drop 3 (order_by count_desc cells)).
    { assert (Hin : c ∈ order_by count_desc cells) by (by rewrite order_by_perm).
      rewrite <- (take_drop 3 (order_by count_desc cells)) in Hin.
      apply elem_of_app in Hin as [Hin|Hin]; [|done].
      exfalso. apply Hid. by apply list_elem_of_fmap_2. }
    assert (Hle : count_desc d c = true).
    { eapply (StronglySorted_take_drop (fun a b => count_desc a b = true) 3
                (order_by count_desc cells)); [|exact Hd|exact Hout].
      apply order_by_sorted; [apply count_desc_total|apply count_desc_trans]. }
    unfold count_desc in Hle. apply Nat.leb_le in Hle. simpl. lia.
Qed.



(** X3.  With at most three cells every cell is a dense area and no
    whitespace area is reported; the top three then hold every customer,
    and the concentration is 100 when there is a customer at all (and every
    row marked [success] has its coordinates). *)
Theorem few_cells_all_dense (uploadId : string) (rows : list Row.t) :
  (length (grid_cells uploadId rows) <= 3)%nat ->
  let report := (insights ST_Distance provider uploadId rows).1 in
  whiteSpaceAreas report = []
  /\ length (topDenseAreas report) = length (grid_cells uploadId rows)
  /\ (StoreSpec.coordinates_when_success uploadId rows ->
      (0 < totalCustomersResult uploadId rows)%Z ->
      concentrationPercent report = 100%Z).
Proof.
  intros Hlen report. unfold report. split; [|split].
  - rewrite insights_unfold. cbn [whiteSpaceAreas].
    by rewrite few_cells_no_candidate.
  - rewrite <- (length_fmap DenseArea.cellId), dense_cellIds, length_fmap.
    by rewrite few_cells_dense.
  - intros Hco Htotal. rewrite insights_unfold. cbn [concentrationPercent].
    assert (Hall : customersInTop3 (denseAreasResult uploadId rows)
                   = totalCustomersResult uploadId rows).
    { rewrite customersInTop3_spec, totalCustomersResult_spec.
      rewrite <- (customers_all_rows uploadId rows Hco).
      unfold top3_customer_count. rewrite filter_all; [done|].
      intros p Hp. unfold in_cells. apply bool_decide_eq_true.
      rewrite (few_cells_dense uploadId rows Hlen), grid_cells_keys.
      by apply (group_by_cell_grouped (successful_rows uploadId rows)). }
    rewrite Hall. by apply concentration_full.
Qed.

(** X4.  An upload without a geocoded row has an empty report: no area,
    concentration 0, and no reverse-geocoding call. *)
Theorem no_geocoded_row_empty_report (uploadId : string) (rows : list Row.t) :
  successful_rows uploadId rows = [] ->
  insights ST_Distance provider uploadId rows
  = ({| topDenseAreas := []; concentrationPercent := 0; whiteSpaceAreas := [] |},
     {| geocodeCache := ∅; issued := [] |}).
Proof.
  intros Hnone. unfold insights, denseAreasResult, grid_cells. rewrite Hnone.
  cbn. unfold concentration.
  destruct (0 <? totalCustomersResult uploadId rows)%Z; [|done].
  unfold js_div, js_mul, Math_round. by vm_compute.
Qed.

(** X5.  One report costs at most six reverse-geocoding calls: one for every
    dense area and at most one for every whitespace area. *)
Theorem reverse_geocoding_calls_bounded (uploadId : string) (rows : list Row.t) :
  let result := insights ST_Distance provider uploadId rows in
  (length (topDenseAreas result.1) <= length (issued result.2))%nat
  /\ (length (issued result.2)
      <= length (topDenseAreas result.1) + length (whiteSpaceAreas result.1))%nat
  /\ (length (issued result.2) <= 6)%nat.
Proof.
  intros result. unfold result.
  pose proof (insights_issued ST_Distance provider uploadId rows) as Hissued.
  assert (Hd : length (topDenseAreas (insights ST_Distance provider uploadId rows).1)
               = length (denseAreasResult uploadId rows)).
  { by rewrite <- (length_fmap DenseArea.cellId), dense_cellIds, length_fmap. }
  assert (Hw : length (whiteSpaceAreas (insights ST_Distance provider uploadId rows).1)
               = length (whiteSpaceResult ST_Distance uploadId rows)).
  { by rewrite <- (length_fmap WhiteSpaceArea.cellId), white_cellIds, length_fmap. }
  rewrite Hissued, Hd, Hw, length_app, length_fmap.
  match goal with
  | |- context [List.filter ?p ?l] =>
      pose proof (List.filter_length_le p l) as Hf; rewrite length_fmap in Hf
  end.
  assert (length (denseAreasResult uploadId rows) <= 3)%nat.
  { unfold denseAreasResult. rewrite length_take. lia. }
  pose proof (whiteSpaceResult_length ST_Distance uploadId rows).
  lia.
Qed.


(** X7.  The label of a dense area is the reverse geocoding of its own
    centre.  The label of a whitespace area is that of a dense area with
    the same memo key when there is one, and the reverse geocoding of its
    own centre otherwise. *)
Theorem area_labels_from_memo (uploadId : string) (rows : list Row.t) :
  let report := (insights ST_Distance provider uploadId rows).1 in
  Forall (fun a => DenseArea.label a
                   = reverseGeocode provider (lat (DenseArea.center a))
                                             (lng (DenseArea.center a)))
         (topDenseAreas report)
  /\ Forall (fun a =>
               (exists d, d ∈ topDenseAreas report
                          /\ cache_key (DenseArea.center d)
                             = cache_key (WhiteSpaceArea.center a)
                          /\ WhiteSpaceArea.label a = DenseArea.label d)
               \/ ((cache_key (WhiteSpaceArea.center a)
                      ∉ ((cache_key ∘ DenseArea.center) <$> topDenseAreas report))
                   /\ WhiteSpaceArea.label a
                      = reverseGeocode provider (lat (WhiteSpaceArea.center a))
                                                (lng (WhiteSpaceArea.center a))))
            (whiteSpaceAreas report).
Proof.
  intros report. unfold report.
  destruct (insights_areas ST_Distance provider uploadId rows) as [Hd Hw].
  rewrite Hd, Hw. split.
  - apply Forall_fmap, Forall_forall. by intros c _.
  - apply Forall_fmap, Forall_forall. intros r _.
    cbn [compose white_space_area WhiteSpaceArea.center WhiteSpaceArea.label].
    set (memo := foldl _ ∅ _).
    destruct (memo !! cache_key (center_of (cand_cell r))) as [label|] eqn:Hget;
      unfold getLabel; rewrite Hget; unfold memo in Hget.
    + left. apply stored_labels_Some in Hget as [Hget|(c & Hc & Hk & Hl)];
        [by rewrite lookup_empty in Hget|].
      apply list_elem_of_fmap in Hc as (d & -> & Hdd).
      eexists. split; [by apply list_elem_of_fmap_2|]. by split.
    + right. split; [|done].
      apply stored_labels_lookup in Hget as [_ Hnot].
      by rewrite <- !list_fmap_compose in *.
Qed.


(** X8.  The highlight of a whitespace area covers the distance that the
    report gives: that distance is at most 3, the radius is 0.5, 1, 2 or
    3 km and is not less than the distance, and the zoom chosen from the
    radius is the one that the distance itself would give.  When
    [ST_Distance] is never negative the reported distance is not
    either. *)
Theorem highlight_radius_covers_distance (uploadId : string) (rows : list Row.t) :
  let report := (insights ST_Distance provider uploadId rows).1 in
  Forall (fun a =>
            WhiteSpaceArea.distanceKm a <= 3
            /\ (radius a = (1 # 2) \/ radius a = 1 \/ radius a = 2 \/ radius a = 3)
            /\ WhiteSpaceArea.distanceKm a <= radius a
            /\ Client.zoomLevel (radius a)
               = Client.zoomLevel (WhiteSpaceArea.distanceKm a))
         (whiteSpaceAreas report)
  /\ ((forall p q, 0 <= ST_Distance p q) ->
      Forall (fun a => 0 <= WhiteSpaceArea.distanceKm a) (whiteSpaceAreas report)).
Proof.
  intros report. unfold report.
  destruct (insights_areas ST_Distance provider uploadId rows) as [_ Hw].
  rewrite Hw.
  pose proof (whiteSpaceResult_kept ST_Distance uploadId rows) as Hkept.
  rewrite Forall_forall in Hkept. split.
  - apply Forall_fmap, Forall_forall. intros r Hr. cbn [compose].
    set (a := white_space_area r _).
    assert (Hd3 : WhiteSpaceArea.distanceKm a <= 3).
    { destruct (Hkept r Hr) as (_ & _ & _ & _ & Hle). by apply round1_le_3. }
    pose proof (Qle_ceiling (WhiteSpaceArea.distanceKm a)) as Hup.
    pose proof (Qceiling_lt (WhiteSpaceArea.distanceKm a)) as Hdown.
    unfold Z.sub in Hdown. rewrite inject_Z_plus, inject_Z_opp in Hdown.
    change (inject_Z 1) with 1 in Hdown.
    assert (Hk3 : (Qceiling (WhiteSpaceArea.distanceKm a) <= 3)%Z).
    { change 3%Z with (Qceiling 3). by apply Qceiling_resp_le. }
    split; [done|].
    destruct (radius_cases a) as [[Hk ->]|[[Hk ->]|[[Hk ->]|[Hk ->]]]];
      cbv zeta in Hk.
    + assert (inject_Z (Qceiling (WhiteSpaceArea.distanceKm a)) <= 0)
        by (change 0 with (inject_Z 0); by rewrite <- Zle_Qle).
      split; [by left|]. split; [lra|].
      destruct (zoomLevel_cases (WhiteSpaceArea.distanceKm a))
        as [[_ ->]|[(? & _)|(? & _)]]; [done|lra|lra].
    + rewrite Hk in Hup, Hdown. change (inject_Z 1) with 1 in *.
      split; [by right; left|]. split; [done|].
      destruct (zoomLevel_cases (WhiteSpaceArea.distanceKm a))
        as [[_ ->]|[(? & _)|(? & _)]]; [done|lra|lra].
    + rewrite Hk in Hup, Hdown. change (inject_Z 2) with 2 in *.
      split; [by right; right; left|]. split; [done|].
      destruct (zoomLevel_cases (WhiteSpaceArea.distanceKm a))
        as [[? _]|[(_ & _ & ->)|(? & _)]]; [lra|done|lra].
    + assert (Qceiling (WhiteSpaceArea.distanceKm a) = 3%Z) as Hk' by lia.
      rewrite Hk' in Hup, Hdown. change (inject_Z 3) with 3 in *.
      split; [by right; right; right|]. split; [done|].
      destruct (zoomLevel_cases (WhiteSpaceArea.distanceKm a))
        as [[? _]|[(_ & ? & _)|(_ & ->)]]; [lra|lra|done].
  - intros Hnn. apply Forall_fmap, Forall_forall. intros r Hr. cbn [compose].
    cbn [white_space_area WhiteSpaceArea.distanceKm].
    apply round1_nonneg.
    destruct (Hkept r Hr) as (_ & _ & _ & [(dc & _ & ->) _] & _).
    unfold distance_km. apply Qle_shift_div_l; [done|].
    rewrite Qmult_0_l. apply Hnn.
Qed.

(** X9.  No label is empty: the label that [reverseGeocode] builds from an
    answer never is, whatever the answer, and so none of the labels of a
    report is. *)
Theorem labels_never_empty (uploadId : string) (rows : list Row.t) :
  let report := (insights ST_Distance provider uploadId rows).1 in
  (forall answer lat lng, Resolver.label_of answer lat lng <> EmptyString)
  /\ Forall (fun a => DenseArea.label a <> EmptyString) (topDenseAreas report)
  /\ Forall (fun a => WhiteSpaceArea.label a <> EmptyString) (whiteSpaceAreas report).
Proof.
  intros report. unfold report.
  destruct (insights_areas ST_Distance provider uploadId rows) as [Hd Hw].
  rewrite Hd, Hw. split; [apply label_of_nonempty|]. split.
  - apply Forall_fmap, Forall_forall. intros c _. apply label_of_nonempty.
  - apply Forall_fmap, Forall_forall. intros r _. cbn [compose].
    cbn [white_space_area WhiteSpaceArea.label].
    set (memo := foldl _ ∅ _).
    destruct (memo !! cache_key (center_of (cand_cell r))) as [label|] eqn:Hget;
      unfold getLabel; rewrite Hget; unfold memo in Hget.
    + apply stored_labels_Some in Hget as [Hget|(c & _ & _ & ->)];
        [by rewrite lookup_empty in Hget|]. apply label_of_nonempty.
    + apply label_of_nonempty.
Qed.

End ReportProperties.

(** The report of three shops in two cells: no whitespace area, and the
    two cells hold all the customers. *)
Lemma few_cells_three_shops_witness :
  Insights.whiteSpaceAreas
    (Insights.insights Sample.taxicab Sample.unreachable "u1" Cases.three_shops).1 = []
  /\ Insights.concentrationPercent
       (Insights.insights Sample.taxicab Sample.unreachable "u1" Cases.three_shops).1
     = 100%Z.
Proof.
  destruct (few_cells_all_dense Sample.taxicab Sample.unreachable "u1" Cases.three_shops)
    as (H1 & _ & H3); [vm_compute; lia|].
  split; [exact H1|]. apply H3; [|vm_compute; reflexivity].
  repeat constructor; eexists; reflexivity.
Defined.

(** The stored sample upload, whose rows are all pending, has an empty
    report. *)
Lemma no_geocoded_row_stored_witness :
  Insights.insights Sample.taxicab Sample.unreachable "u1"
    (upload_rows (Pipeline.store Sample.stored))
  = ({| Insights.topDenseAreas := []; Insights.concentrationPercent := 0;
        Insights.whiteSpaceAreas := [] |},
     {| Insights.geocodeCache := ∅; Insights.issued := [] |}).
Proof.
  apply (no_geocoded_row_empty_report Sample.taxicab Sample.unreachable "u1").
  vm_compute. reflexivity.
Defined.


(** ** The rows after a run of the pipeline *)

Module RunFacts.
Import Resolver Pipeline PipelineSpec PipelineFacts RunSpec.

Section WithResolver.
Variable geocodeAddress : string -> geocode_result.

Lemma finish_row_rows (c : counts) (row : Z * string) (w : world) :
  upload_rows (store (finish_row geocodeAddress c row w).2)
  = row_written geocodeAddress (upload_rows (store w)) row.
Proof.
  unfold finish_row, row_written, resolved.
  by destruct (geocodeAddress row.2) as [la ln|err].
Qed.

Lemma fold_rows_rows (batch : list (Z * string)) (c : counts) (w : world) :
  upload_rows (store (fold_rows geocodeAddress c batch w).2)
  = foldl (row_written geocodeAddress) (upload_rows (store w)) batch.
Proof.
  revert c w. induction batch as [|row rest IH]; intros c w; [done|].
  cbn [fold_rows foldl]. unfold mbind, M_bind.
  pose proof (finish_row_rows c row w) as F.
  destruct (finish_row geocodeAddress c row w) as [c1 w1]. cbn [snd] in F.
  by rewrite IH, F.
Qed.

Lemma process_batch_rows (batch : list (Z * string)) (c : counts) (w : world) :
  upload_rows (store (process_batch geocodeAddress batch c w).2)
  = foldl (row_written geocodeAddress) (upload_rows (store w)) batch.
Proof.
  unfold process_batch, mbind, M_bind. rewrite for_each_start_row.
  by rewrite fold_rows_rows.
Qed.

Lemma slice_drop {A} (rows : list A) (i n : nat) :
  drop i rows = slice rows i (i + n) ++ drop (i + n) rows.
Proof.
  unfold slice. replace (i + n - i)%nat with n by lia.
  rewrite <- (take_drop n (drop i rows)) at 1. by rewrite drop_drop.
Qed.

Lemma batches_rows (rows : list (Z * string)) (i : nat) (c : counts) (w : world) :
  upload_rows (store (batches geocodeAddress rows i c w).2)
  = foldl (row_written geocodeAddress) (upload_rows (store w)) (drop i rows).
Proof.
  funelim (batches geocodeAddress rows i c w).
  - rewrite H. rewrite (slice_drop rows i batchSize), foldl_app.
    rewrite <- (process_batch_rows (slice rows i (i + batchSize)) c w).
    by destruct (decide (i + batchSize < length rows)).
  - by rewrite drop_ge by lia.
Qed.

(** The rows after the handler of the trigger. *)
Lemma geocode_rows (uploadId : string) (w : world) :
  status_of uploadId (store w) <> None ->
  upload_rows (store (geocode geocodeAddress uploadId w).2)
  = foldl (row_written geocodeAddress) (upload_rows (store w))
          (pending_rows uploadId (store w)).
Proof.
  intros Hex. rewrite geocode_unfold, bool_decide_eq_false_2 by done.
  cbv zeta. destruct (pending_rows uploadId (store w)) as [|row rest] eqn:Hrows; [done|].
  cbn [with_status store upload_rows]. by rewrite batches_rows, drop_0.
Qed.

Lemma resolved_id (result : geocode_result) (r : Row.t) :
  Row.id (resolved result r) = Row.id r.
Proof. by destruct result. Qed.

(** Writes for rows with distinct ids, one after the other, are one pass
    over the table. *)
Lemma foldl_row_written (rows : list (Z * string)) (table : list Row.t) :
  NoDup (fst <$> rows) ->
  foldl (row_written geocodeAddress) table rows
  = (fun r => match find (fun row => (row.1 =? Row.id r)%Z) rows with
              | Some row => resolved (geocodeAddress row.2) r
              | None => r
              end) <$> table.
Proof.
  revert table. induction rows as [|row rest IH]; intros table Hnd.
  - cbn [foldl find]. by rewrite list_fmap_id.
  - rewrite fmap_cons in Hnd. apply NoDup_cons in Hnd as [Hrow Hnd].
    cbn [foldl]. rewrite IH by done. unfold row_written, sql_update.
    rewrite <- list_fmap_compose. apply list_fmap_ext. intros _ r _.
    cbn [compose find].
    destruct (Row.id r =? row.1)%Z eqn:Hid.
    + apply Z.eqb_eq in Hid. rewrite resolved_id, Hid, Z.eqb_refl.
      destruct (find _ rest) as [row'|] eqn:Hf; [|done].
      exfalso. apply Hrow. apply find_some in Hf as [Hin Heq].
      apply Z.eqb_eq in Heq. rewrite <- Heq.
      apply list_elem_of_fmap_2. by apply list_elem_of_In.
    + rewrite Z.eqb_sym in Hid. by rewrite Hid.
Qed.

Lemma find_no_id (uploadId : string) (table : list Row.t) (i : Z) :
  i ∉ Row.id <$> table ->
  find (fun row : Z * string => (row.1 =? i)%Z)
       ((fun r => (Row.id r, Row.raw_address r))
        <$> List.filter (is_pending_of uploadId) table) = None.
Proof.
  intros Hi. destruct (find _ _) as [row|] eqn:Hf; [|done]. exfalso.
  apply find_some in Hf as [Hin Heq]. apply Z.eqb_eq in Heq.
  apply list_elem_of_In, list_elem_of_fmap in Hin as (r & -> & Hr).
  apply list_elem_of_In, List.filter_In in Hr as [Hr _].
  apply Hi. cbn [fst] in Heq. rewrite <- Heq.
  apply list_elem_of_fmap_2. by apply list_elem_of_In.
Qed.

(** The entry of a row among the selected rows. *)
Lemma find_pending (uploadId : string) (table : list Row.t) (r : Row.t) :
  NoDup (Row.id <$> table) -> r ∈ table ->
  find (fun row : Z * string => (row.1 =? Row.id r)%Z)
       ((fun r => (Row.id r, Row.raw_address r))
        <$> List.filter (is_pending_of uploadId) table)
  = if is_pending_of uploadId r then Some (Row.id r, Row.raw_address r) else None.
Proof.
  induction table as [|x t IH]; intros Hnd Hr; [by apply elem_of_nil in Hr|].
  rewrite fmap_cons in Hnd. apply NoDup_cons in Hnd as [Hx Hnd].
  apply elem_of_cons in Hr as [->|Hr].
  - cbn [List.filter]. destruct (is_pending_of uploadId x).
    + rewrite fmap_cons. cbn [find fst]. by rewrite Z.eqb_refl.
    + by apply find_no_id.
  - assert (Hne : Row.id x <> Row.id r).
    { intros Heq. apply Hx. rewrite Heq. by apply list_elem_of_fmap_2. }
    cbn [List.filter]. destruct (is_pending_of uploadId x).
    + rewrite fmap_cons. cbn [find fst].
      rewrite (proj2 (Z.eqb_neq _ _) Hne). by apply IH.
    + by apply IH.
Qed.

Lemma pending_rows_ids (uploadId : string) (d : db) :
  unique_row_ids d -> NoDup (fst <$> pending_rows uploadId d).
Proof.
  unfold unique_row_ids, pending_rows. intros Hnd.
  rewrite <- list_fmap_compose.
  assert (Hsub : sublist ((fst ∘ (fun r => (Row.id r, Row.raw_address r)))
                          <$> List.filter (is_pending_of uploadId) (upload_rows d))
                         (Row.id <$> upload_rows d)).
  { clear Hnd. induction (upload_rows d) as [|x t IH]; [done|]. cbn [List.filter].
    destruct (is_pending_of uploadId x); rewrite !fmap_cons.
    - apply sublist_skip, IH.
    - apply sublist_cons, IH. }
  by eapply sublist_NoDup.
Qed.

(** The rows after a run, in one pass. *)
Lemma geocode_settles (uploadId : string) (w : world) :
  status_of uploadId (store w) <> None -> unique_row_ids (store w) ->
  upload_rows (store (geocode geocodeAddress uploadId w).2)
  = settle geocodeAddress uploadId <$> upload_rows (store w).
Proof.
  intros Hex Hnd. rewrite geocode_rows by done.
  rewrite foldl_row_written by (by apply pending_rows_ids).
  apply Forall_fmap_ext, Forall_forall. intros r Hr.
  unfold pending_rows. rewrite find_pending by done. unfold settle.
  by destruct (is_pending_of uploadId r).
Qed.

Lemma settle_not_pending (uploadId : string) (r : Row.t) :
  is_pending_of uploadId (settle geocodeAddress uploadId r) = false.
Proof.
  unfold settle. destruct (is_pending_of uploadId r) eqn:Hp; [|done].
  unfold is_pending_of in *. apply andb_true_iff in Hp as [Hu _].
  destruct (geocodeAddress _); cbn; rewrite Hu; done.
Qed.

Lemma settle_id (uploadId : string) (r : Row.t) :
  Row.id (settle geocodeAddress uploadId r) = Row.id r.
Proof. unfold settle. destruct (is_pending_of uploadId r); [apply resolved_id|done]. Qed.

Lemma pending_rows_settled (uploadId : string) (table : list Row.t) (us : list Upload.t) :
  pending_rows uploadId
    {| uploads := us; upload_rows := settle geocodeAddress uploadId <$> table |} = [].
Proof.
  unfold pending_rows. cbn [upload_rows].
  induction table as [|r t IH]; [done|]. rewrite fmap_cons. cbn [List.filter].
  by rewrite settle_not_pending.
Qed.


(** *** Batches *)

Lemma chunks_of_enough {A} (n fuel fuel' : nat) (l : list A) :
  (0 < n)%nat -> (length l <= fuel)%nat -> (length l <= fuel')%nat ->
  chunks_of fuel n l = chunks_of fuel' n l.
Proof.
  intros Hn. revert fuel' l. induction fuel as [|fuel IH]; intros fuel' l Hf Hf'.
  - destruct l; [|simpl in Hf; lia]. by destruct fuel'.
  - destruct l as [|x l]; [by destruct fuel'|].
    destruct fuel' as [|fuel']; [simpl in Hf'; lia|].
    cbn [chunks_of]. f_equal.
    apply IH; rewrite length_drop; simpl in *; lia.
Qed.

Lemma chunks_cons {A} (n : nat) (l : list A) :
  (0 < n)%nat -> l <> [] -> chunks n l = take n l :: chunks n (drop n l).
Proof.
  intros Hn Hl. unfold chunks. destruct l as [|x l]; [done|].
  cbn [length chunks_of]. f_equal.
  apply chunks_of_enough; [done| |done]. rewrite length_drop. simpl. lia.
Qed.

Lemma chunks_nil {A} (n : nat) : chunks n (@nil A) = [].
Proof. done. Qed.

(** The pieces are consecutive, not empty and not longer than [n]. *)
Lemma chunks_spec {A} (n : nat) (l : list A) :
  (0 < n)%nat ->
  concat (chunks n l) = l
  /\ Forall (fun piece => (1 <= length piece <= n)%nat) (chunks n l).
Proof.
  intros Hn. remember (length l) as m eqn:Hm. revert l Hm.
  induction (lt_wf m) as [m _ IH]. intros l ->.
  destruct l as [|x l]; [by split; [|constructor]|].
  rewrite chunks_cons by done.
  destruct (IH (length (drop n (x :: l)))) with (l := drop n (x :: l)) as [Hc Hf].
  - rewrite length_drop. simpl. lia.
  - done.
  - split.
    + cbn [concat]. by rewrite Hc, take_drop.
    + constructor; [|done]. rewrite length_take. simpl. lia.
Qed.

Lemma pace_app (a b : list event) : pace (a ++ b) = pace a ++ pace b.
Proof. apply List.filter_app. Qed.

Lemma pace_call_events (batch : list (Z * string)) :
  pace (call_event <$> batch) = call_event <$> batch.
Proof. induction batch as [|row rest IH]; [done|]. rewrite fmap_cons. cbn. by f_equal. Qed.

Lemma pace_write_events (batch : list (Z * string)) :
  pace (write_event geocodeAddress <$> batch) = [].
Proof. by induction batch as [|row rest IH]. Qed.

(** The calls and the pauses of the loop. *)
Lemma batches_pace (rows : list (Z * string)) (i : nat) (c : counts) (w : world) :
  exists events,
    trace (batches geocodeAddress rows i c w).2 = trace w ++ events
    /\ pace events = paced (chunks batchSize (drop i rows)).
Proof.
  funelim (batches geocodeAddress rows i c w).
  - set (batch := slice rows i (i + batchSize)) in *.
    destruct (process_batch_spec geocodeAddress batch c w) as (_ & P2 & _).
    destruct H as (events & H1 & H2).
    assert (Hne : drop i rows <> []).
    { intros Hd. apply (f_equal length) in Hd. rewrite length_drop in Hd.
      simpl in Hd. lia. }
    rewrite (chunks_cons batchSize (drop i rows)) by (done || (unfold batchSize; lia)).
    rewrite drop_drop.
    replace (take batchSize (drop i rows)) with batch
      by (unfold batch, slice; f_equal; lia).
    destruct (decide (i + batchSize < length rows)) as [Hmore|Hlast].
    + exists ((call_event <$> batch) ++ (write_event geocodeAddress <$> batch)
              ++ [Delayed 200] ++ events).
      split.
      * rewrite H1. unfold emit. cbn [snd trace]. rewrite P2.
        by rewrite <- !app_assoc.
      * rewrite !pace_app, pace_call_events, pace_write_events, H2.
        assert (Hnext : drop (i + batchSize) rows <> []).
        { intros Hd. apply (f_equal length) in Hd. rewrite length_drop in Hd.
          simpl in Hd. lia. }
        rewrite (chunks_cons batchSize (drop (i + batchSize) rows))
          by (done || (unfold batchSize; lia)).
        done.
    + exists ((call_event <$> batch) ++ (write_event geocodeAddress <$> batch) ++ events).
      split.
      * rewrite H1, P2. by rewrite <- !app_assoc.
      * rewrite !pace_app, pace_call_events, pace_write_events, H2.
        rewrite (drop_ge rows (i + batchSize)) by lia.
        rewrite chunks_nil. cbn [paced app]. by rewrite app_nil_r.
  - exists []. rewrite app_nil_r. split; [done|].
    by rewrite drop_ge by lia.
Qed.

Lemma pending_rows_rows (uploadId : string) (d d' : db) :
  upload_rows d = upload_rows d' -> pending_rows uploadId d = pending_rows uploadId d'.
Proof. unfold pending_rows. by intros ->. Qed.

End WithResolver.
End RunFacts.

Section RunProperties.
Import Resolver Pipeline PipelineSpec PipelineFacts RunSpec RunFacts.

Variable geocodeAddress : string -> geocode_result.


(** X11.  A second trigger calls the resolver for no row: the rows that
    failed are not tried again.  It writes [processing], answers, and
    writes [done], also when the first run ended in [failed]; the rows stay
    as the first run left them. *)
Theorem second_trigger_calls_nobody (uploadId : string) (w : world) :
  status_of uploadId (store w) <> None ->
  unique_row_ids (store w) ->
  let first := (geocode geocodeAddress uploadId w).2 in
  let second := (geocode geocodeAddress uploadId first).2 in
  trace second
  = trace first ++ [StatusWritten uploadId UploadStatus.processing; Responded Started;
                    StatusWritten uploadId UploadStatus.done]
  /\ upload_rows (store second) = upload_rows (store first)
  /\ status_of uploadId (store second) = Some UploadStatus.done.
Proof.
  intros Hex Hnd first second.
  destruct (geocode_run geocodeAddress uploadId w Hex) as (_ & _ & _ & _ & Hup).
  assert (Hex1 : status_of uploadId (store first) <> None).
  { unfold status_of, first. rewrite Hup, status_of_update; [done|].
    intros Hn. apply Hex. unfold status_of. by rewrite Hn. }
  assert (Hnone : pending_rows uploadId (store first) = []).
  { rewrite <- (pending_rows_settled geocodeAddress uploadId (upload_rows (store w)) []).
    apply pending_rows_rows. unfold first. by rewrite geocode_settles. }
  destruct (geocode_run geocodeAddress uploadId first Hex1)
    as (events & Htrace & _ & Hnil & Hup2).
  rewrite Hnone in *. rewrite (Hnil eq_refl) in Htrace.
  split; [exact Htrace|]. split.
  - unfold second. by rewrite geocode_rows, Hnone.
  - unfold status_of, second. rewrite Hup2. apply status_of_update.
    intros Hn. apply Hex1. unfold status_of. by rewrite Hn.
Qed.

(** X12.  A run calls the resolver batch by batch: for the first ten
    pending rows, then, after a pause of 200 ms, for the next ten, and so
    on, without a pause after the last batch.  The batches are
    consecutive pieces of one to ten rows of the pending rows. *)
Theorem run_paces_resolver_calls (uploadId : string) (w : world) :
  status_of uploadId (store w) <> None ->
  let rows := pending_rows uploadId (store w) in
  (exists events,
      trace (geocode geocodeAddress uploadId w).2 = trace w ++ events
      /\ pace events = paced (chunks 10 rows))
  /\ concat (chunks 10 rows) = rows
  /\ Forall (fun batch => (1 <= length batch <= 10)%nat) (chunks 10 rows).
Proof.
  intros Hex rows. split; [|apply chunks_spec; lia].
  rewrite geocode_unfold, bool_decide_eq_false_2 by done. cbv zeta. fold rows.
  destruct rows as [|row rest] eqn:Hrows.
  - eexists. cbn [with_status trace]. rewrite <- !app_assoc. split; [done|done].
  - set (w1 := {| store := _; trace := _ |}).
    destruct (batches_pace geocodeAddress (row :: rest) 0
                {| successCount := 0; failedCount := 0 |} w1) as (events & H1 & H2).
    rewrite drop_0 in H2.
    eexists ([StatusWritten uploadId UploadStatus.processing; Responded Started]
             ++ events ++ [StatusWritten uploadId _]).
    split.
    + unfold with_status at 1. cbn [trace]. rewrite H1. unfold w1.
      cbn [with_status trace]. by rewrite <- !app_assoc.
    + rewrite !pace_app, H2. cbn. by rewrite app_nil_r.
Qed.


End RunProperties.


(** The stored sample upload triggered twice: the second run adds three
    events, none of them a resolver call. *)
Lemma second_trigger_stored_witness :
  let first := (Pipeline.geocode Sample.resolver "u1" Sample.stored).2 in
  let second := (Pipeline.geocode Sample.resolver "u1" first).2 in
  Pipeline.trace second
  = Pipeline.trace first
    ++ [Pipeline.StatusWritten "u1" UploadStatus.processing;
        Pipeline.Responded Pipeline.Started;
        Pipeline.StatusWritten "u1" UploadStatus.done].
Proof.
  destruct (second_trigger_calls_nobody Sample.resolver "u1" Sample.stored)
    as (H1 & _).
  - vm_compute. discriminate.
  - apply (bool_decide_eq_true_1 _). vm_compute. reflexivity.
  - exact H1.
Defined.

(** The twelve rows of the stored sample upload go out in a batch of ten
    and a batch of two. *)
Lemma run_paces_stored_witness :
  length <$> RunSpec.chunks 10 (PipelineSpec.pending_rows "u1" (Pipeline.store Sample.stored))
  = [10%nat; 2%nat]
  /\ exists events,
       Pipeline.trace (Pipeline.geocode Sample.resolver "u1" Sample.stored).2
       = Pipeline.trace Sample.stored ++ events
       /\ RunSpec.pace events
          = RunSpec.paced
              (RunSpec.chunks 10
                 (PipelineSpec.pending_rows "u1" (Pipeline.store Sample.stored))).
Proof.
  split; [vm_compute; reflexivity|].
  destruct (run_paces_resolver_calls Sample.resolver "u1" Sample.stored) as (H & _).
  - vm_compute. discriminate.
  - exact H.
Defined.


(** ** Text *)

Module TextFacts.
Import Text.

Lemma trimStart_length (s : string) : (String.length (trimStart s) <= String.length s)%nat.
Proof.
  induction s as [|c r IH]; [done|]. cbn [trimStart].
  destruct (is_space c); cbn [String.length]; lia.
Qed.

Lemma trimStart_fixed (s : string) :
  trimStart s = s <-> match s with
                      | String c _ => is_space c = false
                      | EmptyString => True
                      end.
Proof.
  destruct s as [|c r]; [done|]. cbn [trimStart].
  destruct (is_space c) eqn:Hc; [|done]. split; [|done].
  intros H. apply (f_equal String.length) in H.
  pose proof (trimStart_length r). cbn [String.length] in H. lia.
Qed.

Lemma trimStart_idem (s : string) : trimStart (trimStart s) = trimStart s.
Proof.
  induction s as [|c r IH]; [done|]. cbn [trimStart].
  destruct (is_space c) eqn:Hc; [done|]. cbn [trimStart]. by rewrite Hc.
Qed.

Lemma trimEnd_length (s : string) : (String.length (trimEnd s) <= String.length s)%nat.
Proof.
  induction s as [|c r IH]; [done|]. cbn [trimEnd].
  destruct (trimEnd r) as [|d k]; [destruct (is_space c)|];
    cbn [String.length] in *; lia.
Qed.

Lemma trimEnd_idem (s : string) : trimEnd (trimEnd s) = trimEnd s.
Proof.
  induction s as [|c r IH]; [done|]. cbn [trimEnd].
  destruct (trimEnd r) as [|d k] eqn:Hk.
  - destruct (is_space c) eqn:Hc; [done|]. cbn [trimEnd]. by rewrite Hc.
  - cbn [trimEnd] in *. by rewrite IH.
Qed.

(** [trimEnd] leaves the first character, if it leaves anything. *)
Lemma trimStart_trimEnd (t : string) : trimStart t = t -> trimStart (trimEnd t) = trimEnd t.
Proof.
  intros H. apply trimStart_fixed in H. apply trimStart_fixed.
  destruct t as [|c r]; [done|]. cbn [trimEnd].
  destruct (trimEnd r); [by rewrite H|done].
Qed.

Lemma trim_idem (s : string) : trim (trim s) = trim s.
Proof.
  unfold trim. rewrite (trimStart_trimEnd (trimStart s)) by apply trimStart_idem.
  apply trimEnd_idem.
Qed.

(** Text that [trim] leaves alone has no white space at either end. *)
Lemma trim_fixed (s : string) : trim s = s <-> trimStart s = s /\ trimEnd s = s.
Proof.
  unfold trim. split; [|by intros [-> ->]]. intros H.
  assert (Hs : trimStart s = s).
  { apply trimStart_fixed. destruct s as [|c r]; [done|].
    destruct (is_space c) eqn:Hc; [|done]. exfalso.
    apply (f_equal String.length) in H. cbn [trimStart] in H. rewrite Hc in H.
    pose proof (trimEnd_length (trimStart r)). pose proof (trimStart_length r).
    cbn [String.length] in H. lia. }
  split; [done|]. by rewrite Hs in H.
Qed.

Lemma trimStart_app (a b : string) :
  a <> EmptyString -> trimStart a = a -> trimStart (a +:+ b) = a +:+ b.
Proof.
  intros Ha H. apply trimStart_fixed in H. apply trimStart_fixed.
  by destruct a as [|c r].
Qed.

Lemma trimEnd_app (a b : string) :
  b <> EmptyString -> trimEnd b = b -> trimEnd (a +:+ b) = a +:+ b.
Proof.
  intros Hb H. induction a as [|c r IH]; [done|].
  change (String c r +:+ b) with (String c (r +:+ b)).
  cbn [trimEnd]. rewrite IH.
  destruct (r +:+ b) eqn:E; [|done]. by destruct r, b.
Qed.

Lemma append_empty (a b : string) : a +:+ b = EmptyString -> a = EmptyString /\ b = EmptyString.
Proof. by destruct a, b. Qed.

(** Parts without white space at their ends, joined. *)
Lemma join_clean (sep : string) (parts : list string) :
  parts <> [] ->
  Forall (fun p => p <> EmptyString /\ trim p = p) parts ->
  join sep parts <> EmptyString /\ trim (join sep parts) = join sep parts.
Proof.
  intros Hne Hall. destruct parts as [|part rest]; [done|]. cbn [join].
  apply Forall_cons in Hall as [Hpart Hrest]. clear Hne.
  revert part Hpart. induction Hrest as [|p rest Hp Hrest IH]; intros part Hpart; [done|].
  cbn [foldl]. apply IH.
  destruct Hpart as [Hn Ht], Hp as [Hpn Hpt].
  apply trim_fixed in Ht as [Hs He], Hpt as [Hps Hpe]. split.
  - intros H. by apply append_empty in H as [H _].
  - apply trim_fixed. split.
    + by apply trimStart_app.
    + apply trimEnd_app; [|by apply trimEnd_app].
      intros H. apply append_empty in H as [_ H]. done.
Qed.

(** *** Pieces of a name *)

Lemma split_nonempty (sep : ascii) (s : string) : split sep s <> [].
Proof.
  destruct s as [|c r]; [done|]. cbn [split].
  destruct (Ascii.eqb c sep); [done|]. by destruct (split sep r).
Qed.

Lemma split_app (sep : ascii) (a b : string) :
  split sep (a +:+ String sep b) = split sep a ++ split sep b.
Proof.
  induction a as [|c r IH].
  - change (EmptyString +:+ String sep b) with (String sep b).
    cbn [split app]. by rewrite Ascii.eqb_refl.
  - change (String c r +:+ String sep b) with (String c (r +:+ String sep b)).
    cbn [split]. rewrite IH. destruct (Ascii.eqb c sep); [done|].
    destruct (split sep r) as [|p ps] eqn:E; [|done].
    by apply split_nonempty in E.
Qed.

Lemma split_whole (sep : ascii) (s : string) :
  Chars.all_chars (fun c => negb (Ascii.eqb c sep)) s = true -> split sep s = [s].
Proof.
  induction s as [|c r IH]; [done|]. cbn [Chars.all_chars split].
  intros H. apply andb_true_iff in H as [Hc Hr]. apply negb_true_iff in Hc.
  by rewrite Hc, IH.
Qed.

(** The last piece has no separator; it is the whole text, or what
    follows the last separator. *)
Lemma split_last (sep : ascii) (s : string) :
  exists front e,
    split sep s = front ++ [e]
    /\ Chars.all_chars (fun c => negb (Ascii.eqb c sep)) e = true
    /\ (front = [] -> s = e)
    /\ (front <> [] -> exists stem, s = stem +:+ String sep e).
Proof.
  induction s as [|c r (front & e & Hsplit & He & Hwhole & Hstem)].
  - exists [], EmptyString. by split_and!.
  - cbn [split]. destruct (Ascii.eqb c sep) eqn:Hc.
    + apply Ascii.eqb_eq in Hc as ->.
      exists (EmptyString :: front), e. rewrite Hsplit. split_and!; try done.
      intros _. destruct front as [|p ps].
      * exists EmptyString. by rewrite Hwhole.
      * destruct Hstem as (stem & ->); [done|]. by exists (String sep stem).
    + rewrite Hsplit. destruct front as [|p ps].
      * exists [], (String c e). cbn [app Chars.all_chars]. rewrite Hc, He.
        split_and!; try done. intros _. by rewrite Hwhole.
      * exists (String c p :: ps), e. split_and!; try done.
        intros _. destruct Hstem as (stem & ->); [done|]. by exists (String c stem).
Qed.

Lemma toLowerCase_csv (ext : string) :
  toLowerCase ext = "csv" ->
  Chars.all_chars (fun c => negb (Ascii.eqb c ".")) ext = true.
Proof.
  destruct ext as [|a [|b [|c [|d r]]]]; try done. cbn [toLowerCase].
  intros [= Ha Hb Hc]. cbn [Chars.all_chars].
  destruct (Ascii.eqb a ".") eqn:Ea; [apply Ascii.eqb_eq in Ea as ->; by vm_compute in Ha|].
  destruct (Ascii.eqb b ".") eqn:Eb; [apply Ascii.eqb_eq in Eb as ->; by vm_compute in Hb|].
  destruct (Ascii.eqb c ".") eqn:Ec; [apply Ascii.eqb_eq in Ec as ->; by vm_compute in Hc|].
  done.
Qed.

(** *** Numerals *)

Lemma digit_of_pretty_N_char (d : N) :
  (d < 10)%N -> digit_of 10 (pretty_N_char d) = Some (Z.of_N d).
Proof.
  intros Hd.
  assert (H : d ∈ [0; 1; 2; 3; 4; 5; 6; 7; 8; 9]%N).
  { rewrite !elem_of_cons. lia. }
  rewrite !elem_of_cons in H.
  destruct H as [->|[->|[->|[->|[->|[->|[->|[->|[->|[->|H]]]]]]]]]]; try done.
  by apply elem_of_nil in H.
Qed.

Lemma digits_pretty_N_go (x : N) (s : string) :
  digits 10 (pretty_N_go x s) None
  = digits 10 s (if decide (x = 0)%N then None else Some (Z.of_N x)).
Proof.
  revert s. induction (N.lt_wf_0 x) as [x _ IH]; intros s.
  destruct (decide (x = 0)%N) as [->|Hx]; [by rewrite pretty_N_go_0|].
  rewrite pretty_N_go_step by lia.
  rewrite IH by (apply N.div_lt; lia).
  cbn [digits]. rewrite digit_of_pretty_N_char by (apply N.mod_lt; lia).
  f_equal. f_equal.
  pose proof (N.div_mod x 10 ltac:(lia)) as Hdm.
  clear IH. set (q := (x `div` 10)%N) in *. set (r := (x `mod` 10)%N) in *.
  clearbody q r. destruct (decide (q = 0)%N) as [Hz|Hz]; simpl; lia.
Qed.

Lemma is_digit_not_space (c : ascii) : Chars.is_digit c = true -> is_space c = false.
Proof. destruct c as [[] [] [] [] [] [] [] []]; by vm_compute. Qed.

Lemma no_hex_prefix (c : ascii) (r : string) :
  Chars.is_digit c = true -> Chars.all_chars Chars.is_digit r = true ->
  match String c r with
  | String "0"%char (String "x"%char rest) => (16%Z, rest)
  | String "0"%char (String "X"%char rest) => (16%Z, rest)
  | _ => (10%Z, String c r)
  end = (10%Z, String c r).
Proof.
  intros Hc Hr. destruct r as [|d r'].
  { destruct c as [[] [] [] [] [] [] [] []]; try done. }
  cbn [Chars.all_chars] in Hr. apply andb_true_iff in Hr as [Hdd _].
  assert (d <> "x"%char /\ d <> "X"%char) as [Hx HX].
  { split; intros ->; by vm_compute in Hdd. }
  destruct c as [[] [] [] [] [] [] [] []]; try done.
  destruct d as [[] [] [] [] [] [] [] []]; try done.
Qed.

Lemma parseInt_digits (s : string) :
  s <> EmptyString -> Chars.all_chars Chars.is_digit s = true ->
  parseInt s = digits 10 s None.
Proof.
  intros Hne Hd. destruct s as [|c r]; [done|]. cbn [Chars.all_chars] in Hd.
  apply andb_true_iff in Hd as [Hc Hr].
  unfold parseInt. cbn [trimStart]. rewrite (is_digit_not_space c Hc).
  assert (Hsign : c <> "-"%char /\ c <> "+"%char).
  { split; intros ->; by vm_compute in Hc. }
  destruct Hsign as [Hm Hp].
  assert (E : match String c r with
              | String "-"%char rest => ((-1)%Z, rest)
              | String "+"%char rest => (1%Z, rest)
              | _ => (1%Z, String c r)
              end = (1%Z, String c r)).
  { destruct c as [[] [] [] [] [] [] [] []]; try done. }
  rewrite E, no_hex_prefix by done.
  by destruct (digits 10 (String c r) None) as [v|]; cbn; [destruct v|].
Qed.

Lemma parseInt_minus_digits (s : string) :
  s <> EmptyString -> Chars.all_chars Chars.is_digit s = true ->
  parseInt (String "-" s) = Z.mul (-1) <$> digits 10 s None.
Proof.
  intros Hne Hd. destruct s as [|c r]; [done|]. cbn [Chars.all_chars] in Hd.
  apply andb_true_iff in Hd as [Hc Hr].
  unfold parseInt. cbn [trimStart].
  change (is_space "-") with false. cbv beta iota.
  by rewrite no_hex_prefix.
Qed.

Lemma digits_pretty_N (x : N) : digits 10 (pretty x) None = Some (Z.of_N x).
Proof.
  unfold pretty, pretty_N. case_decide as Hx; [by subst|].
  rewrite digits_pretty_N_go. by rewrite decide_False.
Qed.

(** [parseInt] reads back the decimal numeral of an integer. *)
Lemma parseInt_pretty (z : Z) : parseInt (pretty z) = Some z.
Proof.
  destruct z as [|p|p].
  - done.
  - change (pretty (Z.pos p)) with (pretty (N.pos p)).
    destruct (NumeralFacts.pretty_N_digits (N.pos p)) as [Hd Hne].
    rewrite parseInt_digits, digits_pretty_N by done. done.
  - change (pretty (Z.neg p)) with (String "-" (pretty (N.pos p))).
    destruct (NumeralFacts.pretty_N_digits (N.pos p)) as [Hd Hne].
    rewrite parseInt_minus_digits, digits_pretty_N by done. done.
Qed.

Lemma pretty_Z_nonempty (z : Z) : pretty z <> EmptyString.
Proof.
  destruct z as [|p|p]; [done| |done].
  apply (NumeralFacts.pretty_N_digits (N.pos p)).
Qed.

End TextFacts.

(** ** The intake of a file *)

Module IntakeFacts.
Import Text Intake IntakeSpec.

Lemma kept_nil (h : bool) (from : nat) : kept h from [] = [].
Proof. done. Qed.

Lemma kept_cons (h : bool) (from : nat) (row : record) (rest : list record) :
  kept h from (row :: rest)
  = if valid h row then (from, row) :: kept h (S from) rest else kept h (S from) rest.
Proof.
  unfold kept. cbn [imap List.filter snd].
  replace (from + 0)%nat with from by lia.
  assert (E : imap ((fun j row0 => ((from + j)%nat, row0)) ∘ S) rest
              = imap (fun j row0 => ((S from + j)%nat, row0)) rest).
  { apply imap_ext. intros j x _. cbn [compose]. f_equal. lia. }
  by rewrite E.
Qed.

Lemma stored_rows_nil (u : string) (h : bool) (seq : Z) (from : nat) :
  stored_rows u h seq from [] = [].
Proof. done. Qed.

Lemma stored_rows_cons (u : string) (h : bool) (seq : Z) (from : nat)
    (row : record) (rest : list record) :
  stored_rows u h seq from (row :: rest)
  = if valid h row
    then stored_row u h (seq + 1) from row :: stored_rows u h (seq + 1) (S from) rest
    else stored_rows u h seq (S from) rest.
Proof.
  unfold stored_rows. rewrite kept_cons. destruct (valid h row); [|done].
  cbn [imap fst snd]. rewrite Z.add_0_r. f_equal.
  apply imap_ext. intros k p _. cbn [compose]. f_equal. lia.
Qed.

Lemma count_of_cons {A} (p : A -> bool) (x : A) (l : list A) :
  count_of p (x :: l) = (if p x then 1 + count_of p l else count_of p l)%Z.
Proof.
  unfold count_of. cbn [List.filter]. destruct (p x); [|done].
  cbn [length]. lia.
Qed.

Lemma stored_rows_length (u : string) (h : bool) (seq : Z) (from : nat)
    (records : list record) :
  Z.of_nat (length (stored_rows u h seq from records)) = count_of (valid h) records.
Proof.
  revert seq from.
  induction records as [|row rest IH]; intros seq from; [done|].
  rewrite stored_rows_cons, count_of_cons.
  destruct (valid h row); [|apply IH].
  cbn [length]. rewrite Nat2Z.inj_succ, IH. lia.
Qed.

Lemma count_of_nonneg {A} (p : A -> bool) (l : list A) : (0 <= count_of p l)%Z.
Proof. unfold count_of. lia. Qed.

Lemma count_of_split {A} (p : A -> bool) (l : list A) :
  (count_of p l + count_of (negb ∘ p) l = Z.of_nat (length l))%Z.
Proof.
  induction l as [|x l IH]; [done|].
  rewrite !count_of_cons. cbn [compose length]. destruct (p x); cbn [negb]; lia.
Qed.

(** One turn of the loop for a record without an address. *)
Lemma for_records_invalid (u : string) (h : bool) (row : record) (rest : list record)
    (i : Z) (t : tally) (w : world) :
  valid h row = false ->
  for_records u h (row :: rest) i t w
  = for_records u h rest (i + 1)
      {| validRows := validRows t; invalidRows := invalidRows t + 1 |} w.
Proof. intros Hv. cbn [for_records]. unfold valid in Hv. by rewrite Hv. Qed.

(** One turn of the loop for a record with an address. *)
Lemma for_records_valid (u : string) (h : bool) (row : record) (rest : list record)
    (i : Z) (t : tally) (w : world) :
  valid h row = true ->
  for_records u h (row :: rest) i t w
  = match insert_upload_row u (i + 1) (rawAddress h row) (or_null row "service_type")
            (customer_count row) (or_null row "revenue_bucket") w with
    | (Returned _, w1) =>
        for_records u h rest (i + 1)
          {| validRows := validRows t + 1; invalidRows := invalidRows t |} w1
    | (Thrown, w1) => (Thrown, w1)
    end.
Proof. intros Hv. cbn [for_records]. unfold valid in Hv. by rewrite Hv. Qed.

(** The insert of a row that the store takes. *)
Lemma insert_upload_row_returned (u : string) (index : nat) (h : bool) (row : record)
    (w w1 : world) (x : unit) :
  insert_upload_row u (Z.of_nat index + 1) (rawAddress h row) (or_null row "service_type")
    (customer_count row) (or_null row "revenue_bucket") w = (Returned x, w1) ->
  storable row = true
  /\ ((upload_rows_id_seq w + 1)%Z ∉ (Row.id <$> upload_rows (store w)))
  /\ w1 = {| store :=
               {| uploads := uploads (store w);
                  upload_rows := upload_rows (store w)
                                 ++ [stored_row u h (upload_rows_id_seq w + 1) index row] |};
             upload_rows_id_seq := upload_rows_id_seq w + 1 |}.
Proof.
  unfold insert_upload_row, storable, stored_row.
  destruct (integer_of (customer_count row)) as [count|]; [|done].
  destruct (existsb _ _) eqn:Hex; [done|]. intros [= _ <-].
  split; [done|]. split; [|done].
  intros Hin. apply list_elem_of_fmap in Hin as (r & Hr & Hin).
  assert (existsb (fun r => (Row.id r =? upload_rows_id_seq w + 1)%Z)
                  (upload_rows (store w)) = true); [|congruence].
  apply existsb_exists. exists r. split; [by apply list_elem_of_In|].
  apply Z.eqb_eq. done.
Qed.

Lemma insert_upload_row_fresh (u : string) (index : nat) (h : bool) (row : record)
    (w : world) :
  storable row = true ->
  Forall (fun r => (Row.id r <= upload_rows_id_seq w)%Z) (upload_rows (store w)) ->
  insert_upload_row u (Z.of_nat index + 1) (rawAddress h row) (or_null row "service_type")
    (customer_count row) (or_null row "revenue_bucket") w
  = (Returned tt,
     {| store :=
          {| uploads := uploads (store w);
             upload_rows := upload_rows (store w)
                            ++ [stored_row u h (upload_rows_id_seq w + 1) index row] |};
        upload_rows_id_seq := upload_rows_id_seq w + 1 |}).
Proof.
  unfold insert_upload_row, storable, stored_row. intros Hs Hids.
  destruct (integer_of (customer_count row)) as [count|]; [|done].
  destruct (existsb _ _) eqn:Hex; [|done]. exfalso.
  apply existsb_exists in Hex as (r & Hr & Heq). apply Z.eqb_eq in Heq.
  rewrite Forall_forall in Hids. apply list_elem_of_In in Hr.
  specialize (Hids r Hr). lia.
Qed.

Lemma insert_upload_row_refused (u : string) (i : Z) (address : string)
    (service : option string) (row : record) (revenue : option string) (w : world) :
  storable row = false ->
  insert_upload_row u i address service (customer_count row) revenue w = (Thrown, w).
Proof.
  unfold insert_upload_row, storable.
  by destruct (integer_of (customer_count row)).
Qed.

(** What the loop has done when it returns. *)
Lemma for_records_returned (u : string) (h : bool) (records : list record)
    (from : nat) (t t' : tally) (w w' : world) :
  for_records u h records (Z.of_nat from) t w = (Returned t', w') ->
  validRows t' = (validRows t + count_of (valid h) records)%Z
  /\ invalidRows t' = (invalidRows t + count_of (negb ∘ valid h) records)%Z
  /\ uploads (store w') = uploads (store w)
  /\ upload_rows (store w')
     = upload_rows (store w) ++ stored_rows u h (upload_rows_id_seq w) from records
  /\ upload_rows_id_seq w' = (upload_rows_id_seq w + count_of (valid h) records)%Z
  /\ Forall (fun row => valid h row = true -> storable row = true) records.
Proof.
  revert from t w. induction records as [|row rest IH]; intros from t w.
  - cbn [for_records]. intros [= <- <-]. unfold count_of. cbn.
    rewrite app_nil_r. split_and!; try done; lia.
  - rewrite stored_rows_cons, !count_of_cons. cbn [compose].
    destruct (valid h row) eqn:Hv.
    + rewrite for_records_valid by done.
      destruct (insert_upload_row _ _ _ _ _ _ w) as [[x|] w1] eqn:Hins; [|done].
      apply insert_upload_row_returned in Hins as (Hst & _ & ->).
      replace (Z.of_nat from + 1)%Z with (Z.of_nat (S from)) by lia.
      intros Hrest. apply IH in Hrest as (H1 & H2 & H3 & H4 & H5 & H6).
      cbn [validRows invalidRows store uploads upload_rows upload_rows_id_seq negb] in *.
      rewrite H1, H2, H3, H4, H5, <- app_assoc.
      split_and!; try done; try lia. by constructor.
    + rewrite for_records_invalid by done.
      replace (Z.of_nat from + 1)%Z with (Z.of_nat (S from)) by lia.
      intros Hrest. apply IH in Hrest as (H1 & H2 & H3 & H4 & H5 & H6).
      cbn [validRows invalidRows negb] in *.
      rewrite H1, H2, H3, H4, H5. split_and!; try done; try lia.
      constructor; [by rewrite Hv|done].
Qed.

(** The loop returns when the store takes every record with an
    address. *)
Lemma for_records_returns (u : string) (h : bool) (records : list record)
    (from : nat) (t : tally) (w : world) :
  Forall (fun r => (Row.id r <= upload_rows_id_seq w)%Z) (upload_rows (store w)) ->
  Forall (fun row => valid h row = true -> storable row = true) records ->
  exists t' w', for_records u h records (Z.of_nat from) t w = (Returned t', w').
Proof.
  revert from t w. induction records as [|row rest IH]; intros from t w Hids Hst.
  - by eexists _, _.
  - apply Forall_cons in Hst as [Hrow Hst].
    destruct (valid h row) eqn:Hv.
    + rewrite for_records_valid, insert_upload_row_fresh by auto.
      replace (Z.of_nat from + 1)%Z with (Z.of_nat (S from)) by lia.
      apply IH; [|done]. cbn [store upload_rows upload_rows_id_seq].
      apply Forall_app. split.
      * eapply Forall_impl; [exact Hids|]. intros r Hr. simpl in Hr. lia.
      * repeat constructor. cbn. lia.
    + rewrite for_records_invalid by done.
      replace (Z.of_nat from + 1)%Z with (Z.of_nat (S from)) by lia.
      by apply IH.
Qed.

(** The loop stops at the first record with an address whose
    [customer_count] the store refuses; the rows before it stay. *)
Lemma for_records_thrown (u : string) (h : bool) (before after : list record)
    (bad : record) (from : nat) (t : tally) (w : world) :
  Forall (fun r => (Row.id r <= upload_rows_id_seq w)%Z) (upload_rows (store w)) ->
  Forall (fun row => valid h row = true -> storable row = true) before ->
  valid h bad = true -> storable bad = false ->
  for_records u h (before ++ bad :: after) (Z.of_nat from) t w
  = (Thrown,
     {| store :=
          {| uploads := uploads (store w);
             upload_rows := upload_rows (store w)
                            ++ stored_rows u h (upload_rows_id_seq w) from before |};
        upload_rows_id_seq := upload_rows_id_seq w + count_of (valid h) before |}).
Proof.
  intros Hids Hst Hv Hbad. revert from t w Hids.
  induction Hst as [|row rest Hrow Hst IH]; intros from t w Hids.
  - cbn [app]. rewrite for_records_valid, insert_upload_row_refused by done.
    unfold count_of. cbn. rewrite app_nil_r, Z.add_0_r. by destruct w as [[us rs] s].
  - cbn [app]. rewrite stored_rows_cons, count_of_cons.
    destruct (valid h row) eqn:Hvr.
    + rewrite for_records_valid, insert_upload_row_fresh by auto.
      replace (Z.of_nat from + 1)%Z with (Z.of_nat (S from)) by lia.
      rewrite IH.
      * cbn [store uploads upload_rows upload_rows_id_seq].
        rewrite <- app_assoc. do 2 f_equal. lia.
      * cbn [store upload_rows upload_rows_id_seq]. apply Forall_app. split.
        -- eapply Forall_impl; [exact Hids|]. intros r Hr. simpl in Hr. lia.
        -- repeat constructor. cbn. lia.
    + rewrite for_records_invalid by done.
      replace (Z.of_nat from + 1)%Z with (Z.of_nat (S from)) by lia.
      by rewrite IH.
Qed.


(** *** The rows that the loop stores *)

Lemma rawAddress_tidy (h : bool) (row : record) :
  valid h row = true -> tidy (rawAddress h row).
Proof.
  unfold valid, nonempty, tidy. intros Hv. apply negb_true_iff, String.eqb_neq in Hv.
  split; [done|]. unfold rawAddress in *. destruct h.
  - apply TextFacts.trim_idem.
  - apply TextFacts.join_clean.
    + intros Hnil. by rewrite Hnil in Hv.
    + apply Forall_forall. intros p Hp.
      apply list_elem_of_In, List.filter_In in Hp as [Hin Hp]. split.
      * by apply negb_true_iff, String.eqb_neq in Hp.
      * cbn [In] in Hin. destruct Hin as [<-|[<-|[<-|[]]]]; apply TextFacts.trim_idem.
Qed.

Lemma stored_rows_spec (u : string) (h : bool) (seq : Z) (from : nat)
    (records : list record) :
  Forall (fun r =>
            Row.upload_id r = u
            /\ Row.geocode_status r = GeocodeStatus.pending
            /\ Row.lat r = None /\ Row.lng r = None /\ Row.geocode_error r = None
            /\ tidy (Row.raw_address r)
            /\ (Z.of_nat from < Row.row_index r <= Z.of_nat (from + length records))%Z
            /\ exists row,
                 records !! (Z.to_nat (Row.row_index r) - 1 - from)%nat = Some row
                 /\ valid h row = true
                 /\ Row.raw_address r = rawAddress h row
                 /\ Row.service_type r = or_null row "service_type"
                 /\ Row.revenue_bucket r = or_null row "revenue_bucket"
                 /\ Row.customer_count r
                    = default None (integer_of (customer_count row)))
         (stored_rows u h seq from records).
Proof.
  revert seq from. induction records as [|row rest IH]; intros seq from; [constructor|].
  rewrite stored_rows_cons.
  assert (Htail : forall seq',
             Forall (fun r =>
                       Row.upload_id r = u
                       /\ Row.geocode_status r = GeocodeStatus.pending
                       /\ Row.lat r = None /\ Row.lng r = None
                       /\ Row.geocode_error r = None
                       /\ tidy (Row.raw_address r)
                       /\ (Z.of_nat from < Row.row_index r
                           <= Z.of_nat (from + length (row :: rest)))%Z
                       /\ exists row0,
                            (row :: rest) !! (Z.to_nat (Row.row_index r) - 1 - from)%nat
                            = Some row0
                            /\ valid h row0 = true
                            /\ Row.raw_address r = rawAddress h row0
                            /\ Row.service_type r = or_null row0 "service_type"
                            /\ Row.revenue_bucket r = or_null row0 "revenue_bucket"
                            /\ Row.customer_count r
                               = default None (integer_of (customer_count row0)))
                    (stored_rows u h seq' (S from) rest)).
  { intros seq'. eapply Forall_impl; [apply (IH seq' (S from))|].
    intros r (H1 & H2 & H3 & H4 & H5 & H6 & H7 & row0 & H8 & H9).
    split_and!; try done; [lia|cbn [length]; lia|].
    exists row0. split; [|done].
    replace (Z.to_nat (Row.row_index r) - 1 - from)%nat
      with (S (Z.to_nat (Row.row_index r) - 1 - S from)) by lia.
    done. }
  destruct (valid h row) eqn:Hv; [|apply Htail].
  constructor; [|apply Htail].
  cbn [stored_row Row.upload_id Row.geocode_status Row.lat Row.lng Row.geocode_error
       Row.raw_address Row.row_index Row.service_type Row.revenue_bucket
       Row.customer_count].
  split_and!; try done; [by apply rawAddress_tidy|lia|cbn [length]; lia|].
  exists row. replace (Z.to_nat (Z.of_nat from + 1) - 1 - from)%nat with 0%nat by lia.
  split_and!; try done.
Qed.

Lemma stored_rows_sorted (u : string) (h : bool) (seq : Z) (from : nat)
    (records : list record) :
  StronglySorted Z.lt (Row.row_index <$> stored_rows u h seq from records).
Proof.
  revert seq from. induction records as [|row rest IH]; intros seq from; [constructor|].
  rewrite stored_rows_cons. destruct (valid h row); [|apply IH].
  rewrite fmap_cons. constructor; [apply IH|].
  apply Forall_fmap. eapply Forall_impl; [apply (stored_rows_spec u h (seq + 1) (S from))|].
  intros r (_ & _ & _ & _ & _ & _ & Hr & _). cbn. lia.
Qed.

Lemma stored_rows_ids (u : string) (h : bool) (start : Z) (from : nat)
    (records : list record) :
  Row.id <$> stored_rows u h start from records
  = (fun k => (start + 1 + Z.of_nat k)%Z)
    <$> seq 0 (length (stored_rows u h start from records)).
Proof.
  revert start from. induction records as [|row rest IH]; intros start from; [done|].
  rewrite stored_rows_cons. destruct (valid h row); [|apply IH].
  cbn [length]. rewrite fmap_cons. cbn [seq]. rewrite fmap_cons.
  f_equal; [cbn; lia|].
  rewrite IH, <- fmap_S_seq, <- list_fmap_compose.
  apply list_fmap_ext. intros _ k _. cbn [compose]. lia.
Qed.

Lemma stored_rows_addresses (u : string) (h : bool) (seq : Z) (from : nat)
    (records : list record) :
  Row.raw_address <$> stored_rows u h seq from records
  = rawAddress h <$> List.filter (valid h) records.
Proof.
  revert seq from. induction records as [|row rest IH]; intros seq from; [done|].
  rewrite stored_rows_cons. cbn [List.filter]. destruct (valid h row); [|apply IH].
  rewrite !fmap_cons. f_equal. apply IH.
Qed.

(** *** From the intake to the pipeline *)

Lemma filter_none {A} (p : A -> bool) (l : list A) :
  Forall (fun x => p x = false) l -> List.filter p l = [].
Proof. induction 1 as [|x l Hx Hl IH]; [done|]. cbn [List.filter]. by rewrite Hx. Qed.

Lemma filter_every {A} (p : A -> bool) (l : list A) :
  Forall (fun x => p x = true) l -> List.filter p l = l.
Proof.
  induction 1 as [|x l Hx Hl IH]; [done|]. cbn [List.filter]. by rewrite Hx, IH.
Qed.

(** The pending rows of a new upload are the rows that the intake has
    stored for it. *)
Lemma pending_rows_stored (u : string) (h : bool) (start : Z) (records : list record)
    (us : list Upload.t) (old : list Row.t) :
  Forall (fun r => Row.upload_id r <> u) old ->
  PipelineSpec.pending_rows u
    {| uploads := us; upload_rows := old ++ stored_rows u h start 0 records |}
  = (fun r => (Row.id r, Row.raw_address r)) <$> stored_rows u h start 0 records.
Proof.
  intros Hold. unfold PipelineSpec.pending_rows. cbn [upload_rows].
  rewrite List.filter_app, filter_none, filter_every; [done| |].
  - eapply Forall_impl; [apply stored_rows_spec|].
    intros r (Hu & Hp & _). unfold Pipeline.is_pending_of.
    by rewrite Hu, Hp, String.eqb_refl.
  - eapply Forall_impl; [exact Hold|]. intros r Hr.
    unfold Pipeline.is_pending_of. by rewrite (proj2 (String.eqb_neq _ _) Hr).
Qed.

Lemma status_of_new (u : string) (us : list Upload.t) (new : Upload.t) (rows : list Row.t) :
  Upload.id new = u ->
  Pipeline.status_of u {| uploads := us ++ [new]; upload_rows := rows |} <> None.
Proof.
  intros Hid. unfold Pipeline.status_of. cbn [uploads].
  induction us as [|x us IH]; cbn [app find].
  - by rewrite Hid, String.eqb_refl.
  - by destruct (String.eqb (Upload.id x) u).
Qed.

(** *** The handler *)

Section WithParser.
Variable parse : string -> parsed.
Variable uuid : string.

(** The world after the insert of the upload. *)
Lemma insert_upload_free (name : string) (w : world) :
  Forall (fun u => Upload.id u <> uuid) (uploads (store w)) ->
  insert_upload uuid name UploadStatus.uploaded w
  = (Returned uuid,
     {| store := {| uploads := uploads (store w) ++ [new_upload uuid name 0 0 0];
                    upload_rows := upload_rows (store w) |};
        upload_rows_id_seq := upload_rows_id_seq w |}).
Proof.
  intros Hfree. unfold insert_upload.
  destruct (existsb _ _) eqn:Hex; [|done]. exfalso.
  apply existsb_exists in Hex as (u & Hu & Heq). apply String.eqb_eq in Heq.
  rewrite Forall_forall in Hfree. apply list_elem_of_In in Hu. by apply (Hfree u).
Qed.

Lemma insert_upload_cases (name : string) (w : world) :
  (insert_upload uuid name UploadStatus.uploaded w = (Thrown, w)
   /\ Exists (fun u => Upload.id u = uuid) (uploads (store w)))
  \/ (Forall (fun u => Upload.id u <> uuid) (uploads (store w))).
Proof.
  unfold insert_upload. destruct (existsb _ _) eqn:Hex.
  - left. split; [done|]. apply existsb_exists in Hex as (u & Hu & Heq).
    apply String.eqb_eq in Heq. apply Exists_exists. exists u.
    split; [by apply list_elem_of_In|done].
  - right. apply Forall_forall. intros u Hu Heq.
    assert (existsb (fun u => String.eqb (Upload.id u) uuid) (uploads (store w)) = true);
      [|congruence].
    apply existsb_exists. exists u. split; [by apply list_elem_of_In|].
    by apply String.eqb_eq.
Qed.

Lemma sql_update_new (us : list Upload.t) (name : string) (total valid invalid : Z) :
  Forall (fun u => Upload.id u <> uuid) us ->
  sql_update (fun u => String.eqb (Upload.id u) uuid) (set_counts total valid invalid)
             (us ++ [new_upload uuid name 0 0 0])
  = us ++ [new_upload uuid name total valid invalid].
Proof.
  intros Hfree. unfold sql_update. rewrite map_app. f_equal.
  - induction Hfree as [|u us Hu Hus IH]; [done|]. cbn [map].
    rewrite (proj2 (String.eqb_neq _ _) Hu). by rewrite IH.
  - cbn. by rewrite String.eqb_refl.
Qed.

Lemma get_upload_new (us : list Upload.t) (rows : list Row.t) (name : string)
    (total valid invalid : Z) :
  Forall (fun u => Upload.id u <> uuid) us ->
  Queries.get_upload uuid
    {| uploads := us ++ [new_upload uuid name total valid invalid]; upload_rows := rows |}
  = Queries.UploadRow uuid UploadStatus.uploaded total valid invalid.
Proof.
  intros Hfree. unfold Queries.get_upload. cbn [uploads].
  rewrite List.filter_app.
  assert (Hnone : List.filter (fun u => String.eqb (Upload.id u) uuid) us = []).
  { induction Hfree as [|u us Hu Hus IH]; [done|]. cbn [List.filter].
    by rewrite (proj2 (String.eqb_neq _ _) Hu). }
  rewrite Hnone. cbn. by rewrite String.eqb_refl.
Qed.

(** The handler on a file that passes its checks. *)
Lemma upload_accepted (f : file) (records : list record) (w : world) :
  accepted parse f records ->
  upload parse uuid (Some f) w
  = try_catch (store_records uuid (originalname f) (hasAddress records) records) w.
Proof.
  intros (Hext & Hparse & first & rest & -> & Hcols). unfold upload.
  rewrite Hext, Hparse. cbn [Resolver.strict_ne String.eqb Ascii.eqb Bool.eqb negb].
  cbn [hasAddress].
  assert (Hc : negb (has_column first "address")
               && (negb (has_column first "street") || negb (has_column first "city")
                   || negb (has_column first "postal")) = false).
  { destruct Hcols as [->|(-> & -> & ->)]; [done|]. by rewrite andb_false_r. }
  by rewrite Hc.
Qed.

(** The handler when the checks fail, and what passing them means. *)
Lemma upload_checked (req_file : option file) (w : world) :
  (exists e, upload parse uuid req_file w = (BadRequest e, w)
             /\ match e with
                | NoFile => req_file = None
                | NotCsv =>
                    exists f, req_file = Some f
                              /\ fileExtension (originalname f) <> Some "csv"
                | InvalidCsv details =>
                    exists f, req_file = Some f /\ parse (buffer f) = ParseThrows details
                | EmptyCsv =>
                    exists f, req_file = Some f /\ parse (buffer f) = Records []
                | MissingColumns =>
                    exists f first rest,
                      req_file = Some f
                      /\ parse (buffer f) = Records (first :: rest)
                      /\ has_column first "address" = false
                      /\ (has_column first "street" = false
                          \/ has_column first "city" = false
                          \/ has_column first "postal" = false)
                end)
  \/ (exists f records, req_file = Some f /\ accepted parse f records).
Proof.
  destruct req_file as [f|]; [|left; by exists NoFile].
  unfold upload, try_catch.
  destruct (fileExtension (originalname f)) as [ext|] eqn:Hext.
  - destruct (String.eqb ext "csv") eqn:Hcsv.
    + apply String.eqb_eq in Hcsv as ->.
      cbn [Resolver.strict_ne String.eqb Ascii.eqb Bool.eqb negb].
      destruct (parse (buffer f)) as [details|[|first rest]] eqn:Hparse.
      * left. exists (InvalidCsv details). split; [done|]. by exists f.
      * left. exists EmptyCsv. split; [done|]. by exists f.
      * destruct (has_column first "address") eqn:Ha.
        { right. exists f, (first :: rest). split; [done|].
          split; [done|]. split; [done|]. exists first, rest. split; [done|]. by left. }
        destruct (has_column first "street") eqn:Hs;
          [destruct (has_column first "city") eqn:Hc;
           [destruct (has_column first "postal") eqn:Hp|]|].
        -- right. exists f, (first :: rest). split; [done|].
           split; [done|]. split; [done|]. exists first, rest. split; [done|]. by right.
        -- left. exists MissingColumns. cbn. split; [done|].
           exists f, first, rest. split_and!; try done. by right; right.
        -- left. exists MissingColumns. cbn. split; [done|].
           exists f, first, rest. split_and!; try done. by right; left.
        -- left. exists MissingColumns. cbn. split; [done|].
           exists f, first, rest. split_and!; try done. by left.
    + left. exists NotCsv. cbn [Resolver.strict_ne]. rewrite Hcsv. cbn [negb].
      split; [done|]. exists f. split; [done|]. rewrite Hext. intros [= ->].
      by rewrite String.eqb_refl in Hcsv.
  - left. exists NotCsv. cbn [Resolver.strict_ne]. split; [done|].
    exists f. split; [done|]. by rewrite Hext.
Qed.

(** The part of the handler that writes, once the id of the upload is
    known to be free. *)
Lemma store_records_free (name : string) (h : bool) (records : list record) (w : world) :
  Forall (fun u => Upload.id u <> uuid) (uploads (store w)) ->
  let w0 := {| store := {| uploads := uploads (store w) ++ [new_upload uuid name 0 0 0];
                           upload_rows := upload_rows (store w) |};
               upload_rows_id_seq := upload_rows_id_seq w |} in
  try_catch (store_records uuid name h records) w
  = match for_records uuid h records 0 {| validRows := 0; invalidRows := 0 |} w0 with
    | (Returned t, w1) =>
        (Uploaded uuid (Z.of_nat (length records)) (validRows t) (invalidRows t),
         {| store :=
              {| uploads := sql_update (fun u => String.eqb (Upload.id u) uuid)
                              (set_counts (Z.of_nat (length records)) (validRows t)
                                          (invalidRows t))
                              (uploads (store w1));
                 upload_rows := upload_rows (store w1) |};
            upload_rows_id_seq := upload_rows_id_seq w1 |})
    | (Thrown, w1) => (InternalServerError, w1)
    end.
Proof.
  intros Hfree w0. unfold try_catch, store_records, mbind, M_bind.
  rewrite insert_upload_free by done. fold w0.
  by destruct (for_records uuid h records 0 _ w0) as [[t|] w1].
Qed.

Lemma store_records_taken (name : string) (h : bool) (records : list record) (w : world) :
  Exists (fun u => Upload.id u = uuid) (uploads (store w)) ->
  try_catch (store_records uuid name h records) w = (InternalServerError, w).
Proof.
  intros Htaken. unfold try_catch, store_records, mbind, M_bind.
  destruct (insert_upload_cases name w) as [[-> _]|Hfree]; [done|].
  exfalso. apply Exists_exists in Htaken as (u & Hu & Heq).
  rewrite Forall_forall in Hfree. by apply (Hfree u).
Qed.

(** What the handler has done when it answers 200. *)
Lemma upload_uploaded (req_file : option file) (w w' : world)
    (id : string) (total valid invalid : Z) :
  upload parse uuid req_file w = (Uploaded id total valid invalid, w') ->
  exists f records,
    req_file = Some f /\ accepted parse f records
    /\ Forall (fun u => Upload.id u <> uuid) (uploads (store w))
    /\ Forall (fun row => IntakeSpec.valid (hasAddress records) row = true ->
                          storable row = true) records
    /\ id = uuid
    /\ total = Z.of_nat (length records)
    /\ valid = count_of (IntakeSpec.valid (hasAddress records)) records
    /\ invalid = count_of (negb ∘ IntakeSpec.valid (hasAddress records)) records
    /\ w' = {| store :=
                {| uploads := uploads (store w)
                              ++ [new_upload uuid (originalname f) total valid invalid];
                   upload_rows := upload_rows (store w)
                                  ++ stored_rows uuid (hasAddress records)
                                       (upload_rows_id_seq w) 0 records |};
              upload_rows_id_seq := upload_rows_id_seq w + valid |}.
Proof.
  intros Hup.
  destruct (upload_checked req_file w) as [(e & He & _)|(f & records & -> & Hacc)];
    [congruence|].
  exists f, records. split; [done|]. split; [done|].
  rewrite (upload_accepted f records w Hacc) in Hup.
  destruct (insert_upload_cases (originalname f) w) as [[_ Htaken]|Hfree].
  { by rewrite store_records_taken in Hup. }
  split; [done|].
  rewrite store_records_free in Hup by done. cbv zeta in Hup.
  destruct (for_records _ _ _ _ _ _) as [[t|] w1] eqn:Hloop; [|done].
  apply (for_records_returned uuid _ records 0) in Hloop
    as (H1 & H2 & H3 & H4 & H5 & H6).
  cbn [validRows invalidRows store uploads upload_rows upload_rows_id_seq] in *.
  injection Hup as <- <- <- <- <-.
  rewrite H1, H2, H3, H4, H5, !Z.add_0_l.
  split_and!; try done. by rewrite sql_update_new.
Qed.

(** The handler on an accepted file, when the store is ready and takes
    every record with an address. *)
Lemma upload_stored (f : file) (records : list record) (w : world) :
  accepted parse f records ->
  ready uuid w ->
  Forall (fun row => IntakeSpec.valid (hasAddress records) row = true ->
                     storable row = true) records ->
  upload parse uuid (Some f) w
  = (Uploaded uuid (Z.of_nat (length records))
       (count_of (IntakeSpec.valid (hasAddress records)) records)
       (count_of (negb ∘ IntakeSpec.valid (hasAddress records)) records),
     {| store :=
          {| uploads := uploads (store w)
                        ++ [new_upload uuid (originalname f) (Z.of_nat (length records))
                              (count_of (IntakeSpec.valid (hasAddress records)) records)
                              (count_of (negb ∘ IntakeSpec.valid (hasAddress records))
                                        records)];
             upload_rows := upload_rows (store w)
                            ++ stored_rows uuid (hasAddress records)
                                 (upload_rows_id_seq w) 0 records |};
        upload_rows_id_seq :=
          upload_rows_id_seq w + count_of (IntakeSpec.valid (hasAddress records)) records |}).
Proof.
  intros Hacc [Hfree Hids] Hst.
  rewrite (upload_accepted f records w Hacc).
  rewrite store_records_free by done. cbv zeta.
  match goal with
  | |- context [for_records uuid ?h records 0 ?t ?w0] =>
      destruct (for_records_returns uuid h records 0 t w0) as (t' & w1 & Hloop);
        [done|done|];
      change (Z.of_nat 0) with 0%Z in Hloop; rewrite Hloop;
      apply (for_records_returned uuid h records 0) in Hloop
        as (H1 & H2 & H3 & H4 & H5 & _)
  end.
  cbn [validRows invalidRows store uploads upload_rows upload_rows_id_seq] in *.
  rewrite H1, H2, H3, H4, H5, !Z.add_0_l.
  by rewrite sql_update_new.
Qed.

End WithParser.

End IntakeFacts.

Section IntakeProperties.
Import Text Intake IntakeSpec IntakeFacts.

Variable parse : string -> parsed.
Variable uuid : string.

(** X14.  A file that passes the checks, offered to a store where the id
    of the upload is free and the sequence is ahead of the row ids, is
    stored when the [customer_count] of every record with an address fits
    the column: the answer carries the id and the counts, which add up to
    the number of records; the upload is stored as [uploaded] with these
    counts; one pending row is stored for every record with an address,
    in the order of the file, with the position of the record in the file
    (from 1) as its [row_index] and the next values of the sequence as
    ids. *)
Theorem upload_stores_valid_records (f : file) (records : list record) (w : world) :
  let h := hasAddress records in
  let total := Z.of_nat (length records) in
  let valid := count_of (valid h) records in
  let invalid := count_of (negb ∘ IntakeSpec.valid h) records in
  accepted parse f records ->
  ready uuid w ->
  Forall (fun row => IntakeSpec.valid h row = true -> storable row = true) records ->
  upload parse uuid (Some f) w
  = (Uploaded uuid total valid invalid,
     {| store :=
          {| uploads := uploads (store w)
                        ++ [new_upload uuid (originalname f) total valid invalid];
             upload_rows := upload_rows (store w)
                            ++ stored_rows uuid h (upload_rows_id_seq w) 0 records |};
        upload_rows_id_seq := upload_rows_id_seq w + valid |})
  /\ (valid + invalid = total)%Z.
Proof.
  intros h total valid invalid Hacc Hready Hst.
  split; [|apply count_of_split].
  by apply upload_stored.
Qed.


(** X16.  Whatever the store, the counts of a 200 answer add up to the
    number of records of the file, none is negative, and the upload that a
    later [GET /api/uploads/:id] returns has status [uploaded] and these
    counts. *)
Theorem upload_answer_matches_store (req_file : option file) (w w' : world)
    (id : string) (total valid invalid : Z) :
  upload parse uuid req_file w = (Uploaded id total valid invalid, w') ->
  (exists f records,
      req_file = Some f /\ parse (buffer f) = Records records
      /\ total = Z.of_nat (length records)
      /\ valid = count_of (IntakeSpec.valid (hasAddress records)) records)
  /\ (valid + invalid = total)%Z
  /\ (0 <= valid)%Z /\ (0 <= invalid)%Z
  /\ Queries.get_upload id (store w')
     = Queries.UploadRow id UploadStatus.uploaded total valid invalid.
Proof.
  intros Hup.
  apply upload_uploaded in Hup
    as (f & records & -> & Hacc & Hfree & _ & -> & -> & -> & -> & ->).
  split; [|split; [apply count_of_split|]].
  - exists f, records. destruct Hacc as (_ & Hparse & _). by split_and!.
  - split; [apply count_of_nonneg|]. split; [apply count_of_nonneg|].
    cbn [store]. by apply get_upload_new.
Qed.

(** X17.  An answer with status 400 leaves the store as it was.  The
    checks come in this order: a file, a name that ends in [csv], text
    that parses, a record, and the columns. *)
Theorem rejected_upload_writes_nothing (req_file : option file) (w w' : world)
    (e : rejection) :
  upload parse uuid req_file w = (BadRequest e, w') ->
  w' = w
  /\ match e with
     | NoFile => req_file = None
     | NotCsv =>
         exists f, req_file = Some f /\ fileExtension (originalname f) <> Some "csv"
     | InvalidCsv details =>
         exists f, req_file = Some f
                   /\ fileExtension (originalname f) = Some "csv"
                   /\ parse (buffer f) = ParseThrows details
     | EmptyCsv =>
         exists f, req_file = Some f
                   /\ fileExtension (originalname f) = Some "csv"
                   /\ parse (buffer f) = Records []
     | MissingColumns =>
         exists f first rest,
           req_file = Some f
           /\ fileExtension (originalname f) = Some "csv"
           /\ parse (buffer f) = Records (first :: rest)
           /\ has_column first "address" = false
           /\ (has_column first "street" = false
               \/ has_column first "city" = false
               \/ has_column first "postal" = false)
     end.
Proof.
  intros Hup.
  destruct (upload_checked parse uuid req_file w)
    as [(e0 & He & Hwhy)|(f & records & -> & Hacc)].
  - rewrite He in Hup. injection Hup as <- <-. split; [done|].
    destruct e0 as [| |details| |]; try done.
    + destruct Hwhy as (f & -> & Hparse). exists f. split; [done|]. split; [|done].
      unfold upload, try_catch in He.
      destruct (Resolver.strict_ne (fileExtension (originalname f)) (Some "csv")) eqn:Hx;
        [done|].
      unfold Resolver.strict_ne in Hx.
      destruct (fileExtension (originalname f)) as [ext|]; [|done].
      apply negb_false_iff, String.eqb_eq in Hx. by rewrite Hx.
    + destruct Hwhy as (f & -> & Hparse). exists f. split; [done|]. split; [|done].
      unfold upload, try_catch in He.
      destruct (Resolver.strict_ne (fileExtension (originalname f)) (Some "csv")) eqn:Hx;
        [done|].
      unfold Resolver.strict_ne in Hx.
      destruct (fileExtension (originalname f)) as [ext|]; [|done].
      apply negb_false_iff, String.eqb_eq in Hx. by rewrite Hx.
    + destruct Hwhy as (f & first & rest & -> & Hparse & Hcols).
      exists f, first, rest. split; [done|]. split; [|done].
      unfold upload, try_catch in He.
      destruct (Resolver.strict_ne (fileExtension (originalname f)) (Some "csv")) eqn:Hx;
        [done|].
      unfold Resolver.strict_ne in Hx.
      destruct (fileExtension (originalname f)) as [ext|]; [|done].
      apply negb_false_iff, String.eqb_eq in Hx. by rewrite Hx.
  - exfalso. rewrite (upload_accepted parse uuid f records w Hacc) in Hup.
    destruct (insert_upload_cases uuid (originalname f) w) as [[_ Htaken]|Hfree].
    + by rewrite store_records_taken in Hup.
    + rewrite store_records_free in Hup by done. cbv zeta in Hup.
      by destruct (for_records _ _ _ _ _ _) as [[t|] w1].
Qed.

(** X18.  The intake is not atomic.  When the [customer_count] of a record
    with an address is refused by the column (text that [parseInt] does
    not read, or an integer beyond 32 bits), the answer is 500, and the
    upload stays in the store, as [uploaded] and with counts 0, together
    with the rows of the records before that one. *)
Theorem refused_count_leaves_rows_behind (f : file) (before after : list record)
    (bad : record) (w : world) :
  let records := before ++ bad :: after in
  let h := hasAddress records in
  accepted parse f records ->
  ready uuid w ->
  Forall (fun row => IntakeSpec.valid h row = true -> storable row = true) before ->
  IntakeSpec.valid h bad = true ->
  storable bad = false ->
  upload parse uuid (Some f) w
  = (InternalServerError,
     {| store :=
          {| uploads := uploads (store w) ++ [new_upload uuid (originalname f) 0 0 0];
             upload_rows := upload_rows (store w)
                            ++ stored_rows uuid h (upload_rows_id_seq w) 0 before |};
        upload_rows_id_seq := upload_rows_id_seq w + count_of (IntakeSpec.valid h) before |}).
Proof.
  intros records h Hacc [Hfree Hids] Hst Hv Hbad.
  rewrite (upload_accepted parse uuid f records w Hacc).
  rewrite store_records_free by done. cbv zeta. fold h. unfold records.
  change 0%Z with (Z.of_nat 0) at 1.
  by rewrite (for_records_thrown uuid h before after bad 0).
Qed.

(** X19.  The name of a file passes the check of the extension exactly when
    it is [csv], in any mix of upper and lower case, or ends in a dot
    followed by that: what comes before the last dot does not matter, and
    a file called [csv], without a dot, passes too. *)
Theorem csv_extension_accepted (name : string) :
  fileExtension name = Some "csv"
  <-> exists ext,
        toLowerCase ext = "csv"
        /\ (name = ext \/ exists stem, name = stem +:+ "." +:+ ext).
Proof.
  unfold fileExtension. split.
  - destruct (TextFacts.split_last "." name) as (front & e & -> & He & Hwhole & Hstem).
    rewrite last_snoc. cbn [fmap option_fmap option_map]. intros [= Hlow].
    exists e. split; [done|]. destruct front as [|p ps].
    + left. by apply Hwhole.
    + right. by apply Hstem.
  - intros (ext & Hlow & [->|(stem & ->)]).
    + rewrite TextFacts.split_whole by (by apply TextFacts.toLowerCase_csv).
      cbn. by rewrite Hlow.
    + change ("." +:+ ext) with (String "." ext).
      rewrite TextFacts.split_app,
        (TextFacts.split_whole "." ext) by (by apply TextFacts.toLowerCase_csv).
      rewrite last_snoc. cbn. by rewrite Hlow.
Qed.

(** X20.  A [customer_count] cell that holds the decimal numeral of an
    integer is stored as that integer, negative ones too, when the
    integer has 32 bits, and is refused otherwise; an empty or missing
    cell is stored as NULL. *)
Theorem customer_count_numeral_stored (row : record) (z : Z) :
  integer_of (customer_count (<["customer_count" := pretty z]> row))
  = (if (- 2147483648 <=? z)%Z && (z <=? 2147483647)%Z then Some (Some z) else None)
  /\ integer_of (customer_count (<["customer_count" := EmptyString]> row)) = Some None
  /\ integer_of (customer_count (delete "customer_count" row)) = Some None.
Proof.
  unfold customer_count, or_null, record in *.
  rewrite !lookup_insert_eq, lookup_delete_eq.
  split; [|done].
  rewrite (proj2 (String.eqb_neq _ _) (TextFacts.pretty_Z_nonempty z)).
  by rewrite TextFacts.parseInt_pretty.
Qed.

(** X21.  From the file to the resolver.  After an accepted upload, a run of
    the pipeline for it calls the resolver once for every record with an
    address, in the order of the file, with the address built from the
    record, and for no other row (no row of the store referred to the new
    id before). *)
Theorem uploaded_records_are_resolved (geocodeAddress : string -> Resolver.geocode_result)
    (f : file) (records : list record) (w : world) :
  let h := hasAddress records in
  accepted parse f records ->
  ready uuid w ->
  Forall (fun row => IntakeSpec.valid h row = true -> storable row = true) records ->
  Forall (fun r => Row.upload_id r <> uuid) (upload_rows (store w)) ->
  let stored := (upload parse uuid (Some f) w).2 in
  let run := (Pipeline.geocode geocodeAddress uuid
                {| Pipeline.store := store stored; Pipeline.trace := [] |}).2 in
  snd <$> Pipeline.resolver_calls (Pipeline.trace run)
  = rawAddress h <$> List.filter (IntakeSpec.valid h) records
  /\ Pipeline.status_writes uuid (Pipeline.trace run)
     = [UploadStatus.processing;
        PipelineSpec.outcome geocodeAddress
          (Pipeline.resolver_calls (Pipeline.trace run))].
Proof.
  intros h Hacc Hready Hst Hold stored run. unfold run, stored.
  rewrite (upload_stored parse uuid f records w Hacc Hready Hst). cbn [snd store].
  match goal with
  | |- context [Pipeline.geocode geocodeAddress uuid ?w0] =>
      destruct (PipelineFacts.geocode_run geocodeAddress uuid w0)
        as (events & Htrace & [Hcalls Hwrites] & _ & _);
        [by apply status_of_new|]
  end.
  cbn [Pipeline.store Pipeline.trace app] in *. rewrite Htrace.
  rewrite pending_rows_stored in * by done. fold h in Hcalls, Htrace |- *.
  assert (Hall : Pipeline.resolver_calls
                   (Pipeline.StatusWritten uuid UploadStatus.processing
                    :: Pipeline.Responded Pipeline.Started
                    :: events ++ [Pipeline.StatusWritten uuid
                                    (PipelineSpec.outcome geocodeAddress
                                       ((fun r => (Row.id r, Row.raw_address r))
                                        <$> stored_rows uuid h (upload_rows_id_seq w) 0
                                              records))])
                 = (fun r => (Row.id r, Row.raw_address r))
                   <$> stored_rows uuid h (upload_rows_id_seq w) 0 records).
  { change (Pipeline.StatusWritten uuid UploadStatus.processing
            :: Pipeline.Responded Pipeline.Started :: events ++ ?l)
      with ([Pipeline.StatusWritten uuid UploadStatus.processing;
             Pipeline.Responded Pipeline.Started] ++ events ++ l).
    rewrite !PipelineFacts.resolver_calls_app, Hcalls. cbn. by rewrite app_nil_r. }
  rewrite Hall. split.
  - rewrite <- list_fmap_compose. apply stored_rows_addresses.
  - change (Pipeline.StatusWritten uuid UploadStatus.processing
            :: Pipeline.Responded Pipeline.Started :: events ++ ?l)
      with ([Pipeline.StatusWritten uuid UploadStatus.processing]
            ++ [Pipeline.Responded Pipeline.Started] ++ events ++ l).
    rewrite !PipelineFacts.status_writes_app, !PipelineFacts.status_writes_self, Hwrites.
    done.
Qed.

End IntakeProperties.

(** ** The store along the operations *)

Module StoreFacts.
Import StoreSpec.

Lemma sql_update_ids {A B} (key : A -> B) (p : A -> bool) (f : A -> A) (table : list A) :
  (forall r, key (f r) = key r) -> key <$> sql_update p f table = key <$> table.
Proof.
  intros Hkey. unfold sql_update. change (map ?g table) with (g <$> table).
  rewrite <- list_fmap_compose. apply list_fmap_ext. intros _ r _. cbn [compose].
  by destruct (p r).
Qed.

(** A new row at the next value of the sequence keeps the store sound. *)
Lemma sound_insert_row (d : db) (seq : Z) (r : Row.t) :
  sound d seq ->
  Row.id r = (seq + 1)%Z ->
  Row.upload_id r ∈ Upload.id <$> uploads d ->
  Row.geocode_status r = GeocodeStatus.pending ->
  Row.lat r = None ->
  sound {| uploads := uploads d; upload_rows := upload_rows d ++ [r] |} (seq + 1).
Proof.
  intros [H1 H2 H3 H4 H5] Hid Hu Hp Hlat. split; cbn [uploads upload_rows].
  - done.
  - rewrite fmap_app. apply NoDup_app. split; [done|]. split; [|apply NoDup_singleton].
    intros i Hi Hin. apply list_elem_of_singleton in Hin as ->.
    apply list_elem_of_fmap in Hi as (r' & Heq & Hr').
    rewrite Forall_forall in H3. specialize (H3 r' Hr'). lia.
  - apply Forall_app. split.
    + eapply Forall_impl; [exact H3|]. intros r' Hr'. simpl in Hr'. lia.
    + repeat constructor. lia.
  - apply Forall_app. split; [done|]. by repeat constructor.
  - apply Forall_app. split; [done|]. constructor; [|constructor]. split.
    + intros Hs. by rewrite Hp in Hs.
    + intros [[la Hla] _]. by rewrite Hlat in Hla.
Qed.

Lemma sound_sequence_step (d : db) (seq : Z) : sound d seq -> sound d (seq + 1).
Proof.
  intros [H1 H2 H3 H4 H5]. split; try done.
  eapply Forall_impl; [exact H3|]. intros r Hr. simpl in Hr. lia.
Qed.

Lemma sound_insert_upload (d : db) (seq : Z) (u : Upload.t) :
  sound d seq ->
  Forall (fun x => Upload.id x <> Upload.id u) (uploads d) ->
  sound {| uploads := uploads d ++ [u]; upload_rows := upload_rows d |} seq.
Proof.
  intros [H1 H2 H3 H4 H5] Hfree. split; cbn [uploads upload_rows]; try done.
  - rewrite fmap_app. apply NoDup_app. split; [done|]. split; [|apply NoDup_singleton].
    intros i Hi Hin. apply list_elem_of_singleton in Hin as ->.
    apply list_elem_of_fmap in Hi as (x & Heq & Hx).
    rewrite Forall_forall in Hfree. by apply (Hfree x Hx).
  - eapply Forall_impl; [exact H4|]. intros r Hr. simpl in Hr.
    rewrite fmap_app. apply elem_of_app. by left.
Qed.

Lemma sound_update_uploads (d : db) (seq : Z) (p : Upload.t -> bool)
    (f : Upload.t -> Upload.t) :
  (forall u, Upload.id (f u) = Upload.id u) ->
  sound d seq ->
  sound {| uploads := sql_update p f (uploads d); upload_rows := upload_rows d |} seq.
Proof.
  intros Hid [H1 H2 H3 H4 H5]. split; cbn [uploads upload_rows]; try done.
  - by rewrite sql_update_ids.
  - by rewrite sql_update_ids.
Qed.

(** An insert of the intake keeps the store sound, whether the store takes
    the row or not. *)
Lemma insert_upload_row_sound (u : string) (i : Z) (address : string)
    (service : option string) (count : Intake.parameter) (revenue : option string)
    (w : Intake.world) :
  sound (Intake.store w) (Intake.upload_rows_id_seq w) ->
  u ∈ Upload.id <$> uploads (Intake.store w) ->
  let w1 := (Intake.insert_upload_row u i address service count revenue w).2 in
  sound (Intake.store w1) (Intake.upload_rows_id_seq w1)
  /\ uploads (Intake.store w1) = uploads (Intake.store w).
Proof.
  intros Hs Hu. unfold Intake.insert_upload_row.
  destruct (Intake.integer_of count) as [c|]; [|done].
  destruct (existsb _ _); cbn [snd Intake.store Intake.upload_rows_id_seq uploads].
  - split; [by apply sound_sequence_step|done].
  - split; [by apply sound_insert_row|done].
Qed.

(** The loop of the intake keeps the store sound, however it ends. *)
Lemma for_records_sound (u : string) (h : bool) (records : list Intake.record)
    (i : Z) (t : Intake.tally) (w : Intake.world) :
  sound (Intake.store w) (Intake.upload_rows_id_seq w) ->
  u ∈ Upload.id <$> uploads (Intake.store w) ->
  let w1 := (Intake.for_records u h records i t w).2 in
  sound (Intake.store w1) (Intake.upload_rows_id_seq w1)
  /\ uploads (Intake.store w1) = uploads (Intake.store w).
Proof.
  revert i t w. induction records as [|row rest IH]; intros i t w Hs Hu; [done|].
  cbn [Intake.for_records].
  destruct (Intake.nonempty (Intake.rawAddress h row)); [|by apply IH].
  unfold mbind, Intake.M_bind.
  pose proof (insert_upload_row_sound u (i + 1) (Intake.rawAddress h row)
                (Intake.or_null row "service_type") (Intake.customer_count row)
                (Intake.or_null row "revenue_bucket") w Hs Hu) as [Hs1 Hu1].
  destruct (Intake.insert_upload_row _ _ _ _ _ _ w) as [[x|] w1];
    cbn [snd] in Hs1, Hu1 |- *; [|done].
  destruct (IH (i + 1)%Z {| Intake.validRows := Intake.validRows t + 1;
                            Intake.invalidRows := Intake.invalidRows t |} w1)
    as [Hs2 Hu2]; [done|by rewrite Hu1|].
  split; [done|]. by rewrite Hu2.
Qed.

Section WithResolver.
Variable geocodeAddress : string -> Resolver.geocode_result.

Lemma settle_upload_id (uploadId : string) (r : Row.t) :
  Row.upload_id (RunSpec.settle geocodeAddress uploadId r) = Row.upload_id r.
Proof.
  unfold RunSpec.settle, RunSpec.resolved.
  destruct (Pipeline.is_pending_of uploadId r); [|done].
  by destruct (geocodeAddress _).
Qed.

Lemma settle_coordinates (uploadId : string) (r : Row.t) :
  (Row.geocode_status r = GeocodeStatus.success
   <-> is_Some (Row.lat r) /\ is_Some (Row.lng r)) ->
  Row.geocode_status (RunSpec.settle geocodeAddress uploadId r) = GeocodeStatus.success
  <-> is_Some (Row.lat (RunSpec.settle geocodeAddress uploadId r))
      /\ is_Some (Row.lng (RunSpec.settle geocodeAddress uploadId r)).
Proof.
  intros Hr. unfold RunSpec.settle, RunSpec.resolved.
  destruct (Pipeline.is_pending_of uploadId r) eqn:Hp; [|done].
  unfold Pipeline.is_pending_of in Hp. apply andb_true_iff in Hp as [_ Hp].
  assert (Hst : Row.geocode_status r = GeocodeStatus.pending)
    by (by destruct (Row.geocode_status r)).
  destruct (geocodeAddress _) as [la ln|err]; cbn.
  - split; [by intros _; split; eexists|done].
  - split; [done|]. intros Hco. apply Hr in Hco. by rewrite Hst in Hco.
Qed.

(** A run of the pipeline keeps the store sound. *)
Lemma geocode_sound (uploadId : string) (w : Pipeline.world) (seq : Z) :
  sound (Pipeline.store w) seq ->
  sound (Pipeline.store (Pipeline.geocode geocodeAddress uploadId w).2) seq.
Proof.
  intros Hs.
  destruct (Pipeline.status_of uploadId (Pipeline.store w)) as [s|] eqn:Hex.
  - assert (Hex' : Pipeline.status_of uploadId (Pipeline.store w) <> None) by congruence.
    pose proof (RunFacts.geocode_settles geocodeAddress uploadId w Hex'
                  (sound_row_ids _ _ Hs)) as Hrows.
    destruct (PipelineFacts.geocode_run geocodeAddress uploadId w Hex')
      as (_ & _ & _ & _ & Hup).
    destruct Hs as [H1 H2 H3 H4 H5]. split; rewrite ?Hrows, ?Hup.
    + by rewrite sql_update_ids.
    + rewrite <- list_fmap_compose.
      erewrite list_fmap_ext; [exact H2|]. intros _ r _. apply RunFacts.settle_id.
    + apply Forall_fmap. eapply Forall_impl; [exact H3|]. intros r Hr. cbn [compose].
      by rewrite RunFacts.settle_id.
    + apply Forall_fmap. eapply Forall_impl; [exact H4|]. intros r Hr. cbn [compose].
      by rewrite settle_upload_id, sql_update_ids.
    + apply Forall_fmap. eapply Forall_impl; [exact H5|]. intros r Hr. cbn [compose].
      by apply settle_coordinates.
  - by rewrite PipelineFacts.geocode_missing.
Qed.

End WithResolver.

Section WithParser.
Variable parse : string -> Intake.parsed.
Variable uuid : string.

(** The intake keeps the store sound, whatever it answers. *)
Lemma upload_sound (req_file : option Intake.file) (w : Intake.world) :
  sound (Intake.store w) (Intake.upload_rows_id_seq w) ->
  sound (Intake.store (Intake.upload parse uuid req_file w).2)
        (Intake.upload_rows_id_seq (Intake.upload parse uuid req_file w).2).
Proof.
  intros Hs.
  destruct (IntakeFacts.upload_checked parse uuid req_file w)
    as [(e & -> & _)|(f & records & -> & Hacc)]; [done|].
  rewrite (IntakeFacts.upload_accepted parse uuid f records w Hacc).
  destruct (IntakeFacts.insert_upload_cases uuid (Intake.originalname f) w)
    as [[_ Htaken]|Hfree].
  { by rewrite IntakeFacts.store_records_taken. }
  rewrite IntakeFacts.store_records_free by done. cbv zeta.
  match goal with
  | |- context [Intake.for_records uuid ?h records 0 ?t ?w0] =>
      destruct (for_records_sound uuid h records 0 t w0) as [Hloop _];
        [by apply (sound_insert_upload _ _ (IntakeSpec.new_upload uuid _ 0 0 0))
        |cbn [Intake.store uploads]; rewrite fmap_app; apply elem_of_app; right;
         apply list_elem_of_here|];
      destruct (Intake.for_records uuid h records 0 t w0) as [[t'|] w1]
  end; cbn [snd Intake.store Intake.upload_rows_id_seq uploads] in *; [|done].
  by apply (sound_update_uploads (Intake.store w1)).
Qed.

End WithParser.
End StoreFacts.

Section StoreProperties.
Import StoreSpec StoreFacts.


End StoreProperties.

Section IntakeWitnesses.
Import Text Intake IntakeSpec.

Lemma shops_accepted : accepted Cases.reader Cases.shops_csv Cases.shops_records.
Proof.
  split; [vm_compute; reflexivity|]. split; [vm_compute; reflexivity|].
  eexists _, _. split; [reflexivity|]. left. vm_compute. reflexivity.
Qed.

Lemma shops_storable :
  Forall (fun row => IntakeSpec.valid (hasAddress Cases.shops_records) row = true
                     -> storable row = true)
         Cases.shops_records.
Proof. repeat (constructor; [vm_compute; congruence|]). constructor. Qed.

Lemma fresh_ready (uuid : string) : ready uuid Cases.fresh.
Proof. split; constructor. Qed.

Lemma upload_stores_shops_witness :
  upload Cases.reader "u7" (Some Cases.shops_csv) Cases.fresh
  = (Uploaded "u7" 3 2 1,
     {| store :=
          {| uploads := [new_upload "u7" "north/shops.CSV" 3 2 1];
             upload_rows :=
               stored_rows "u7" true 0 0 Cases.shops_records |};
        upload_rows_id_seq := 2 |}).
Proof.
  exact (proj1 (upload_stores_valid_records Cases.reader "u7" Cases.shops_csv
                  Cases.shops_records Cases.fresh
                  shops_accepted (fresh_ready "u7") shops_storable)).
Defined.


Lemma upload_answer_shops_witness :
  Queries.get_upload "u7" (store Cases.shops_stored)
  = Queries.UploadRow "u7" UploadStatus.uploaded 3 2 1.
Proof.
  destruct (upload_answer_matches_store Cases.reader "u7" (Some Cases.shops_csv)
              Cases.fresh Cases.shops_stored "u7" 3 2 1)
    as (_ & _ & _ & _ & Hget).
  - vm_compute. reflexivity.
  - exact Hget.
Defined.

Lemma rejected_notes_witness :
  exists f, Some Cases.notes_txt = Some f
            /\ fileExtension (originalname f) <> Some "csv".
Proof.
  destruct (rejected_upload_writes_nothing Cases.reader "u8" (Some Cases.notes_txt)
              Cases.fresh Cases.fresh NotCsv)
    as (_ & Hwhy).
  - vm_compute. reflexivity.
  - exact Hwhy.
Defined.

Lemma refused_count_crowds_witness :
  upload Cases.reader "u9" (Some Cases.crowds_csv) Cases.fresh
  = (InternalServerError,
     {| store :=
          {| uploads := [new_upload "u9" "crowds.csv" 0 0 0];
             upload_rows := stored_rows "u9" false 0 0 [Cases.crowds_first] |};
        upload_rows_id_seq := 1 |}).
Proof.
  apply (refused_count_leaves_rows_behind Cases.reader "u9" Cases.crowds_csv
           [Cases.crowds_first] [Cases.crowds_third] Cases.crowds_second Cases.fresh).
  - split; [vm_compute; reflexivity|]. split; [vm_compute; reflexivity|].
    eexists _, _. split; [reflexivity|]. right. vm_compute. done.
  - apply fresh_ready.
  - repeat (constructor; [vm_compute; congruence|]). constructor.
  - vm_compute. reflexivity.
  - vm_compute. reflexivity.
Defined.

Lemma uploaded_shops_resolved_witness :
  let run := (Pipeline.geocode Sample.resolver "u7"
                {| Pipeline.store := store Cases.shops_stored;
                   Pipeline.trace := [] |}).2 in
  snd <$> Pipeline.resolver_calls (Pipeline.trace run) = ["1 Main St"; "2 Oak Ave"].
Proof.
  exact (proj1 (uploaded_records_are_resolved Cases.reader "u7" Sample.resolver
                  Cases.shops_csv Cases.shops_records Cases.fresh
                  shops_accepted (fresh_ready "u7") shops_storable
                  (Forall_nil_2 _))).
Defined.

End IntakeWitnesses.

Section StoreWitnesses.
Import StoreSpec.

Lemma stored_sound : sound (Pipeline.store Sample.stored) 12.
Proof.
  split.
  - apply (bool_decide_eq_true_1 _). vm_compute. reflexivity.
  - apply (bool_decide_eq_true_1 _). vm_compute. reflexivity.
  - apply (bool_decide_eq_true_1 _). vm_compute. reflexivity.
  - apply (bool_decide_eq_true_1 _). vm_compute. reflexivity.
  - apply Forall_forall. intros r Hr.
    assert (H : Row.geocode_status r = GeocodeStatus.pending /\ Row.lat r = None).
    { revert r Hr. apply Forall_forall. repeat constructor. }
    destruct H as [Hs Hla]. rewrite Hs, Hla. split; [done|]. by intros [[? ?] _].
Qed.


End StoreWitnesses.

(** ** The points of the map *)

Module PointsFacts.
Import Insights Spec.

Lemma insert_by_Forall2 {A B} (R : A -> B -> Prop) (le1 : A -> A -> bool)
    (le2 : B -> B -> bool) (x : A) (y : B) (l : list A) (k : list B) :
  (forall a b a' b', R a a' -> R b b' -> le1 a b = le2 a' b') ->
  R x y -> Forall2 R l k -> Forall2 R (insert_by le1 x l) (insert_by le2 y k).
Proof.
  intros Hle Hxy. induction 1 as [|a b l k Hab Hlk IH]; cbn [insert_by].
  - by repeat constructor.
  - rewrite (Hle x a y b Hxy Hab). destruct (le2 y b); by repeat constructor.
Qed.

(** [ORDER BY] on two tables whose rows correspond and compare alike. *)
Lemma order_by_Forall2 {A B} (R : A -> B -> Prop) (le1 : A -> A -> bool)
    (le2 : B -> B -> bool) (l : list A) (k : list B) :
  (forall a b a' b', R a a' -> R b b' -> le1 a b = le2 a' b') ->
  Forall2 R l k -> Forall2 R (order_by le1 l) (order_by le2 k).
Proof.
  intros Hle. induction 1 as [|a b l k Hab Hlk IH]; [constructor|].
  unfold order_by in *. cbn [foldr]. by apply insert_by_Forall2.
Qed.

Lemma select_point_row (uploadId : string) (r : Row.t) :
  match Queries.select_point uploadId r with
  | Some ip => is_Some (geocoded uploadId r)
               /\ ip.1 = Row.row_index r
               /\ Queries.id ip.2 = Row.id r
               /\ Some (Queries.lat ip.2) = parseFloat <$> Row.lat r
               /\ Some (Queries.lng ip.2) = parseFloat <$> Row.lng r
  | None => geocoded uploadId r = None
  end.
Proof.
  unfold Queries.select_point, geocoded.
  destruct (_ && _); [|done].
  destruct (Row.lat r) as [la|], (Row.lng r) as [ln|]; done.
Qed.

Lemma select_point_geocoded (uploadId : string) (rows : list Row.t) :
  Forall2 (fun ip r => ip.1 = Row.row_index r
                       /\ Queries.id ip.2 = Row.id r
                       /\ Some (Queries.lat ip.2) = parseFloat <$> Row.lat r
                       /\ Some (Queries.lng ip.2) = parseFloat <$> Row.lng r)
          (omap (Queries.select_point uploadId) rows)
          (List.filter (fun r => bool_decide (is_Some (geocoded uploadId r))) rows).
Proof.
  induction rows as [|r rows IH]; [constructor|].
  cbn [omap list_omap List.filter]. refold_fmap.
  pose proof (select_point_row uploadId r) as Hr.
  destruct (Queries.select_point uploadId r) as [ip|].
  - destruct Hr as (Hs & Hr). rewrite bool_decide_eq_true_2 by done.
    by constructor.
  - rewrite bool_decide_eq_false_2; [done|]. rewrite Hr. by intros [? ?].
Qed.

Lemma select_point_length (uploadId : string) (rows : list Row.t) :
  length (omap (Queries.select_point uploadId) rows)
  = length (successful_rows uploadId rows).
Proof.
  unfold successful_rows. induction rows as [|r rows IH]; [done|].
  cbn [omap list_omap]. refold_fmap.
  pose proof (select_point_row uploadId r) as Hr.
  destruct (Queries.select_point uploadId r) as [ip|].
  - destruct Hr as ([p ->] & _). cbn [length]. by rewrite IH.
  - by rewrite Hr.
Qed.

Lemma sorted_by_row_index (rows : list Row.t) :
  StronglySorted (fun a b => (Row.row_index a <= Row.row_index b)%Z)
    (order_by (fun a b => (Row.row_index a <=? Row.row_index b)%Z) rows).
Proof.
  assert (H : forall l : list Row.t,
             StronglySorted
               (fun a b => (Row.row_index a <=? Row.row_index b)%Z = true) l ->
             StronglySorted (fun a b => (Row.row_index a <= Row.row_index b)%Z) l).
  { induction 1 as [|x l _ IH Hx]; constructor; [done|].
    eapply Forall_impl; [exact Hx|]. intros y Hy. by apply Z.leb_le. }
  apply H, order_by_sorted.
  - intros a b Hab. apply Z.leb_gt in Hab. apply Z.leb_le. lia.
  - intros a b c H1 H2. apply Z.leb_le in H1, H2. apply Z.leb_le. lia.
Qed.

Lemma add_point_counts (p : point) (groups : list group) :
  Zsum ((Z.of_nat ∘ g_count) <$> add_point p groups)
  = (1 + Zsum ((Z.of_nat ∘ g_count) <$> groups))%Z.
Proof.
  induction groups as [|g rest IH]; [done|]. cbn [add_point].
  destruct (key_eqb (g_key g) (cell_key p)).
  - rewrite !fmap_cons, !ConcentrationFacts.Zsum_cons. cbn. lia.
  - rewrite !fmap_cons, !ConcentrationFacts.Zsum_cons, IH. lia.
Qed.

Lemma group_by_cell_counts (points : list point) :
  Zsum ((Z.of_nat ∘ g_count) <$> group_by_cell points) = Z.of_nat (length points).
Proof.
  unfold group_by_cell.
  assert (H : forall groups,
             Zsum ((Z.of_nat ∘ g_count)
                   <$> foldl (fun groups p => add_point p groups) groups points)
             = (Zsum ((Z.of_nat ∘ g_count) <$> groups) + Z.of_nat (length points))%Z).
  { induction points as [|p ps IH]; intros groups; [cbn [foldl length]; lia|].
    cbn [foldl length]. rewrite IH, add_point_counts. lia. }
  rewrite H. cbn. lia.
Qed.

End PointsFacts.

Section PointsProperties.
Import Insights Spec PointsFacts.

(** X23.  The points query returns the rows of the upload that are marked
    [success] and have coordinates, in the order of their [row_index],
    each with its id and its coordinates; they are as many as the cells
    of the report count together. *)
Theorem points_are_the_geocoded_rows (uploadId : string) (d : db) :
  (exists rows,
      rows ≡ₚ List.filter (fun r => bool_decide (is_Some (geocoded uploadId r)))
                          (upload_rows d)
      /\ StronglySorted (fun a b => (Row.row_index a <= Row.row_index b)%Z) rows
      /\ Forall2 (fun p r => Queries.id p = Row.id r
                             /\ Some (Queries.lat p) = parseFloat <$> Row.lat r
                             /\ Some (Queries.lng p) = parseFloat <$> Row.lng r)
                 (Queries.get_points uploadId d) rows)
  /\ Z.of_nat (length (Queries.get_points uploadId d))
     = Zsum ((Z.of_nat ∘ count) <$> grid_cells uploadId (upload_rows d)).
Proof.
  split.
  - exists (order_by (fun a b => (Row.row_index a <=? Row.row_index b)%Z)
              (List.filter (fun r => bool_decide (is_Some (geocoded uploadId r)))
                           (upload_rows d))).
    split; [apply order_by_perm|]. split.
    + apply sorted_by_row_index.
    + unfold Queries.get_points. apply Forall2_fmap_l.
      eapply Forall2_impl.
      * apply (order_by_Forall2 _ Queries.by_row_index
                 (fun a b => (Row.row_index a <=? Row.row_index b)%Z));
          [|apply select_point_geocoded].
        intros a b a' b' (Ha & _) (Hb & _). unfold Queries.by_row_index.
        by rewrite Ha, Hb.
      * by intros ip r (_ & H).
  - unfold Queries.get_points.
    rewrite length_fmap, order_by_length, select_point_length.
    unfold grid_cells. rewrite <- list_fmap_compose.
    by rewrite <- group_by_cell_counts.
Qed.

End PointsProperties.

(** ** The presentation layer and the configuration *)

Section ClientProperties.

Lemma strip_slash_snoc (p : string) : Client.strip_slash (p +:+ "/") = p.
Proof.
  induction p as [|c r IH]; [done|].
  change (String c r +:+ "/") with (String c (r +:+ "/")).
  cbn [Client.strip_slash]. rewrite IH. by destruct r.
Qed.

Lemma strip_slash_other (u : string) :
  (forall p, u <> p +:+ "/") -> Client.strip_slash u = u.
Proof.
  induction u as [|c r IH]; intros Hu; [done|]. cbn [Client.strip_slash].
  destruct r as [|d r'].
  - destruct (Ascii.eqb c "/") eqn:Hc; [|done].
    apply Ascii.eqb_eq in Hc as ->. by destruct (Hu EmptyString).
  - rewrite IH; [done|]. intros p Hp. apply (Hu (String c p)).
    change (String c p +:+ "/") with (String c (p +:+ "/")). by rewrite Hp.
Qed.

(** X24.  The base URL of the API: the default when none is configured (or
    an empty one); otherwise the configured text without its final slash,
    one slash only, and unchanged when it does not end in a slash. *)
Theorem api_base_url_without_final_slash :
  Client.getApiBaseUrl None = "http://localhost:3000"
  /\ Client.getApiBaseUrl (Some EmptyString) = "http://localhost:3000"
  /\ (forall p, Client.getApiBaseUrl (Some (p +:+ "/")) = p)
  /\ (forall u, u <> EmptyString -> (forall p, u <> p +:+ "/") ->
                Client.getApiBaseUrl (Some u) = u).
Proof.
  split; [done|]. split; [done|]. split.
  - intros p. unfold Client.getApiBaseUrl, Resolver.truthy.
    assert (H : String.eqb (p +:+ "/") EmptyString = false).
    { apply String.eqb_neq. by destruct p. }
    rewrite H. cbn [negb Resolver.interpolate]. apply strip_slash_snoc.
  - intros u Hu Hslash. unfold Client.getApiBaseUrl, Resolver.truthy.
    rewrite (proj2 (String.eqb_neq _ _) Hu). cbn [negb Resolver.interpolate].
    by apply strip_slash_other.
Qed.

(** X25.  The port of the database is never 0: the text of a positive
    port is read as it is written, and without a port, or with port 0,
    the default 5432 is used. *)
Theorem database_port_never_zero (url_port : string) :
  Config.port url_port <> 0%Z
  /\ (forall n : Z, (0 < n)%Z -> Config.port (pretty n) = n)
  /\ Config.port EmptyString = 5432%Z
  /\ Config.port "0" = 5432%Z.
Proof.
  split; [|split; [|done]].
  - unfold Config.port. destruct (Text.parseInt url_port) as [p|]; [|done].
    destruct (p =? 0)%Z eqn:Hp; [done|]. by apply Z.eqb_neq in Hp.
  - intros n Hn. unfold Config.port. rewrite TextFacts.parseInt_pretty.
    by rewrite (proj2 (Z.eqb_neq n 0)) by lia.
Qed.

End ClientProperties.
